(** * The package registry of the genception packages driver

    A shallow embedding of [tools/genception/driver/packageregistry.go]
    and the properties of its registration, merge, import-resolution and
    reachability operations.

    Go strings are byte strings and are modelled as [string]; a Go slice of
    strings is a [list string]; a Go [map[string]T] is a [gmap string T].
    Nodes are handled through pointers ([*FlatPackage]) and mutated in
    place, so the model keeps an explicit heap of nodes and the registry
    stores locations. A node is taken to own its import map and its file
    list: the model has no two nodes that share the storage of one. An
    operation that can panic returns a [result]; the recursive walker
    takes fuel and returns an [option].

    The first part holds the definitions: the embedding of the code, then
    the invariants and the reachability relation the properties are stated
    with, then the nodes and registries of the examples. The second part
    holds the properties. *)

From stdpp Require Import gmap strings list fin_maps fin_sets.

Local Open Scope string_scope.
Local Open Scope list_scope.
Local Open Scope nat_scope.

Set Warnings "-clear-no-such-hyp".

(** ** Results of operations that can panic *)

Inductive result (A : Type) : Type :=
| Ok (a : A)
| Panic.
Arguments Ok {A} a.
Arguments Panic {A}.

Definition rbind {A B} (r : result A) (k : A → result B) : result B :=
  match r with
  | Ok a => k a
  | Panic => Panic
  end.

Notation "x ←r e ; k" := (rbind e (λ x, k))
  (at level 20, e at level 100, k at level 200, right associativity,
   format "x  ←r  e ;  '/' k").

(** A read that panics when there is nothing to read, as the dereference
    of a nil pointer does. *)
Definition of_option {A} (o : option A) : result A :=
  match o with
  | Some a => Ok a
  | None => Panic
  end.

(** ** Strings: [strings.HasPrefix] and slicing *)

(** [strings.HasPrefix(s, prefix)]:
    [len(s) >= len(prefix) && s[:len(prefix)] == prefix]. *)
Definition HasPrefix (s pfx : string) : bool :=
  bool_decide (String.length pfx ≤ String.length s)%nat
  && bool_decide (String.substring 0 (String.length pfx) s = pfx).

(** [s[n:]] for [n <= len(s)]. *)
Definition slice_from (n : nat) (s : string) : string :=
  String.substring n (String.length s - n) s.

(** ** Nodes *)

(** The fields of [FlatPackage] that the registry reads or writes. *)
Record FlatPackage : Type := mkFlatPackage {
  ID : string;
  PkgPath : string;
  GoFiles : list string;
  Imports : gmap string string;
  Standard : bool
}.

(** Modelled from the spec: [FlatPackage.IsStdlib] is declared with the node
    type, outside this file; the spec calls it the node's standard-library
    flag, the field [Standard] that [Match] reads directly. *)
Definition IsStdlib (pkg : FlatPackage) : bool := Standard pkg.

Definition set_ID (v : string) (p : FlatPackage) : FlatPackage :=
  mkFlatPackage v (PkgPath p) (GoFiles p) (Imports p) (Standard p).
Definition set_GoFiles (v : list string) (p : FlatPackage) : FlatPackage :=
  mkFlatPackage (ID p) (PkgPath p) v (Imports p) (Standard p).
Definition set_Imports (v : gmap string string) (p : FlatPackage) : FlatPackage :=
  mkFlatPackage (ID p) (PkgPath p) (GoFiles p) v (Standard p).

(** ** Identifier canonicalization *)

Definition stdlibPrefix : string := "@@io_bazel_rules_go//stdlib:".

Definition canonicalizeId (path id : string) (pkg : FlatPackage) : string :=
  if HasPrefix id stdlibPrefix then slice_from (String.length stdlibPrefix) id
  else if IsStdlib pkg then id
  else path.

(** [rewritePackage] overwrites the identity, then every import target. The
    loop assigns to the key it is visiting only, so each target is computed
    from the target that was there before the loop, in any iteration
    order. *)
Definition rewritePackage (pkg : FlatPackage) : FlatPackage :=
  let pkg1 := set_ID (PkgPath pkg) pkg in
  set_Imports (map_imap (λ k v, Some (canonicalizeId k v pkg1)) (Imports pkg1)) pkg1.

(** ** The superset test *)

(** The loop of [isSuperset]: [a] is what remains to be scanned, [bi] the
    index into [b]. Reading [b[bi]] out of range panics. *)
Fixpoint isSuperset_loop (a b : list string) (bi : nat) : result bool :=
  match a with
  | [] => Ok false
  | ai :: a' =>
    match b !! bi with
    | None => Panic
    | Some bbi =>
      if decide (ai = bbi) then
        if decide (S bi = length b) then Ok true
        else isSuperset_loop a' b (S bi)
      else isSuperset_loop a' b bi
    end
  end.

Definition isSuperset (a b : list string) : result bool :=
  if decide (length a < length b) then Ok false
  else isSuperset_loop a b 0.

(** ** The heap and the registry *)

(** Locations of nodes: the values of pointers. A location that is not in
    the heap stands for a nil pointer. *)
Abbreviation loc := positive.

(** The program state the registry works on: the heap of nodes, and the two
    maps of [PackageRegistry]. [packages] holds pointers. *)
Record State : Type := mkState {
  heap : gmap loc FlatPackage;
  packages : gmap string loc;
  stdlib : gmap string string
}.

Definition set_heap (h : gmap loc FlatPackage) (st : State) : State :=
  mkState h (packages st) (stdlib st).
Definition set_packages (m : gmap string loc) (st : State) : State :=
  mkState (heap st) m (stdlib st).
Definition set_stdlib (m : gmap string string) (st : State) : State :=
  mkState (heap st) (packages st) m.

(** [pr.packages[key]] followed by the nil test: the node and its location,
    or [None] when the key is absent or the pointer is nil. *)
Definition lookup_pkg (st : State) (key : string) : option (loc * FlatPackage) :=
  l ← packages st !! key; pkg ← heap st !! l; Some (l, pkg).

(** ** Registration and merge *)

Definition Update (st : State) (pkg : loc) : result State :=
  p ←r of_option (heap st !! pkg);
  match packages st !! PkgPath p with
  | None => Ok (set_packages (<[PkgPath p := pkg]> (packages st)) st)
  | Some existing =>
    e ←r of_option (heap st !! existing);
    sup ←r isSuperset (GoFiles p) (GoFiles e);
    if sup : bool then
      Ok (set_heap (<[existing := set_GoFiles (GoFiles p) e]> (heap st)) st)
    else Ok st
  end.

(** One iteration of the loop of [Add]. *)
Definition Add_one (st : State) (pkg : loc) : result State :=
  p0 ←r of_option (heap st !! pkg);
  let p := rewritePackage p0 in
  let st1 := set_heap (<[pkg := p]> (heap st)) st in
  let st2 := set_packages (<[PkgPath p := pkg]> (packages st1)) st1 in
  if IsStdlib p then Ok (set_stdlib (<[PkgPath p := ID p]> (stdlib st2)) st2)
  else Ok st2.

Fixpoint Add (st : State) (pkgs : list loc) : result State :=
  match pkgs with
  | [] => Ok st
  | pkg :: pkgs' => st' ←r Add_one st pkg; Add st' pkgs'
  end.

(** [NewPackageRegistry(pkgs...)] on a heap [h]. *)
Definition NewPackageRegistry (h : gmap loc FlatPackage) (pkgs : list loc) : result State :=
  Add (mkState h ∅ ∅) pkgs.

(** ** Events of the walker *)

(** [Inserted id] records an assignment [acc[id] = pkg]; [NotFound root] is
    the error the walker logs for a root it does not find. *)
Inductive event : Type :=
| Inserted (id : string)
| NotFound (root : string).

Definition inserted_ids (evs : list event) : list string :=
  omap (λ e, match e with Inserted id => Some id | NotFound _ => None end) evs.

(** A loop whose body may run out of fuel. *)
Fixpoint for_each {S X : Type} (body : S → X → option S) (s : S) (xs : list X) : option S :=
  match xs with
  | [] => Some s
  | x :: xs' => s' ← body s x; for_each body s' xs'
  end.

(** The same for a body that may panic. *)
Fixpoint for_each_r {S X : Type} (body : S → X → result S) (s : S) (xs : list X) : result S :=
  match xs with
  | [] => Ok s
  | x :: xs' => s' ←r body s x; for_each_r body s' xs'
  end.

Section Registry.

(** The order in which a [range] statement goes through a map is not
    specified; [range_map] is the order this run uses. The properties below
    assume of it only that it lists the entries of the map, each once. *)
Variable range_map : ∀ A : Type, gmap string A → list (string * A).

(** The reserved standard-library root label, declared outside this file. *)
Variable RulesGoStdlibLabel : string.

(** The per-node collaborators, declared with the node type: the import
    resolution step, which may change the node and may fail, and the test
    split, which may change the node and returns the new node or nil. *)
Variable error : Type.
Variable pkgResolveImports : (string → string) → FlatPackage → FlatPackage * option error.
Variable MoveTestFiles : FlatPackage → FlatPackage * option FlatPackage.

(** *** Import resolution and test split *)

(** The closure [resolve] of [ResolveImports]. *)
Definition resolve (st : State) (importPath : string) : string :=
  match stdlib st !! importPath with
  | Some pkgID => pkgID
  | None => ""
  end.

(** The split at the node [l] after the step has left the node [pkg1]:
    [MoveTestFiles] may change the node; the test node it returns, if any,
    is a new node, at a fresh location, and is stored under its identity. *)
Definition after_split (st : State) (l : loc) (pkg1 : FlatPackage) : State :=
  let st2 := set_heap (<[l := (MoveTestFiles pkg1).1]> (<[l := pkg1]> (heap st))) st in
  match (MoveTestFiles pkg1).2 with
  | None => st2
  | Some testFp =>
    let lt := fresh (dom (heap st2)) in
    mkState (<[lt := testFp]> (heap st2)) (<[ID testFp := lt]> (packages st2)) (stdlib st2)
  end.

(** The body of the loop of [ResolveImports] at the node [l]: the state
    after it, and the error it returns with, if any. *)
Definition ResolveImports_node (st : State) (l : loc) : result (State * option error) :=
  pkg ←r of_option (heap st !! l);
  let '(pkg1, err) := pkgResolveImports (resolve st) pkg in
  match err with
  | Some e => Ok (set_heap (<[l := pkg1]> (heap st)) st, Some e)
  | None => Ok (after_split st l pkg1, None)
  end.

(** [ResolveImports] along the keys [ks] that the range over
    [pr.packages] produces, in that order; the loop inserts into the map
    it ranges over, so the entry of a key is read when the key is
    reached. *)
Fixpoint ResolveImports (ks : list string) (st : State) : result (State * option error) :=
  match ks with
  | [] => Ok (st, None)
  | k :: ks' =>
    match packages st !! k with
    | None => ResolveImports ks' st
    | Some l =>
      r ←r ResolveImports_node st l;
      match r with
      | (st', Some e) => Ok (st', Some e)
      | (st', None) => ResolveImports ks' st'
      end
    end
  end.

(** *** The reachability walker *)

(** The body of the loop over the imports of a node. *)
Definition walk_import (rec : gmap string loc → string → option (gmap string loc * list event))
    (s : gmap string loc * list event) (pkgID : string)
    : option (gmap string loc * list event) :=
  match s.1 !! pkgID with
  | Some _ => Some s
  | None => r ← rec s.1 pkgID; Some (r.1, s.2 ++ r.2)
  end.

(** [walk] returns the visited map after the call and the events of the
    call, or [None] when the recursion is deeper than [fuel]. *)
Fixpoint walk (fuel : nat) (st : State) (acc : gmap string loc) (root : string)
    : option (gmap string loc * list event) :=
  match fuel with
  | 0 => None
  | S fuel' =>
    match lookup_pkg st root with
    | None => Some (acc, [NotFound root])
    | Some (l, pkg) =>
      for_each (walk_import (walk fuel' st))
        (<[ID pkg := l]> acc, [Inserted (ID pkg)])
        (range_map _ (Imports pkg)).*2
    end
  end.

(** The loop of [Query] and [Match] that walks from each root into one
    visited map. *)
Definition walk_root (fuel : nat) (st : State)
    (s : gmap string loc * list event) (rootPkg : string)
    : option (gmap string loc * list event) :=
  r ← walk fuel st s.1 rootPkg; Some (r.1, s.2 ++ r.2).

Definition walk_roots (fuel : nat) (st : State) (roots : list string)
    : option (gmap string loc * list event) :=
  for_each (walk_root fuel st) (∅, []) roots.

(** *** Queries *)

(** [Query]; its first parameter, the driver request, is not used. *)
Definition Query (fuel : nat) (st : State) (queries : list string)
    : option (list string * list loc) :=
  r ← walk_roots fuel st queries;
  Some (queries, (range_map _ r.1).*2).

(** [fmt.Sprintf("@%s", label)] when the label has no ["@"] in front. *)
Definition anchor_label (label : string) : string :=
  if HasPrefix label "@" then label else "@" +:+ label.

(** The loop over [pr.packages] for the standard-library root label. *)
Definition Match_stdlib (st : State) (roots : gmap string ()) : result (gmap string ()) :=
  for_each_r
    (λ roots (kl : string * loc),
       pkg ←r of_option (heap st !! kl.2);
       Ok (if Standard pkg then <[ID pkg := ()]> roots else roots))
    roots (range_map _ (packages st)).

(** The body of the loop over the labels. *)
Definition Match_label (st : State) (roots : gmap string ()) (label : string)
    : result (gmap string ()) :=
  let label := anchor_label label in
  if decide (label = RulesGoStdlibLabel) then Match_stdlib st roots
  else
    let roots := <[label := ()]> roots in
    match packages st !! (label +:+ "_xtest") with
    | Some _ => Ok (<[label +:+ "_xtest" := ()]> roots)
    | None => Ok roots
    end.

Definition Match_roots (st : State) (labels : list string) : result (gmap string ()) :=
  for_each_r (Match_label st) ∅ labels.

Definition Match (fuel : nat) (st : State) (labels : list string)
    : result (option (list string * list loc)) :=
  roots ←r Match_roots st labels;
  let retRoots := (range_map _ roots).*1 in
  Ok (r ← walk_roots fuel st retRoots; Some (retRoots, (range_map _ r.1).*2)).

End Registry.

(** ** Invariants and reachability *)

(** Every node of the registry is stored under its identity. *)
Definition keyed_by_ID (st : State) : Prop :=
  ∀ k l p, lookup_pkg st k = Some (l, p) → ID p = k.

(** Every node of the registry is stored under its logical path and has it
    as its identity. *)
Definition canonical (st : State) : Prop :=
  ∀ k l p, lookup_pkg st k = Some (l, p) → PkgPath p = k ∧ ID p = k.

(** Every entry of the standard-library index is the path of a registered
    node that is standard-library flagged. *)
Definition stdlib_flagged (st : State) : Prop :=
  ∀ k id, stdlib st !! k = Some id →
    ∃ l p, lookup_pkg st k = Some (l, p) ∧ Standard p = true.

(** [t] is a target of an import edge of [p]. *)
Definition imports_target (p : FlatPackage) (t : string) : Prop :=
  ∃ k, Imports p !! k = Some t.

(** [reach st root k]: the registered node [k] is reached from the
    registered node [root] along import edges between registered nodes. *)
Inductive reach (st : State) (root : string) : string → Prop :=
| reach_root : is_Some (lookup_pkg st root) → reach st root root
| reach_import k l p t :
    reach st root k → lookup_pkg st k = Some (l, p) →
    imports_target p t → is_Some (lookup_pkg st t) →
    reach st root t.

(** ** The specification of the walker *)

(** The number of keys of the registry that are not in the visited map. *)
Definition unvisited (st : State) (acc : gmap string loc) : nat :=
  size (dom (packages st) ∖ dom acc).

(** The nodes [ids] have all their registered import targets in [acc]. *)
Definition imports_closed (st : State) (ids : list string) (acc : gmap string loc) : Prop :=
  ∀ id l p t, id ∈ ids → lookup_pkg st id = Some (l, p) →
    imports_target p t → is_Some (lookup_pkg st t) → t ∈ dom acc.

(** What a call [walk(acc, root)] that returns [acc'] after the events
    [evs] has done. *)
Record walk_post (st : State) (acc : gmap string loc) (root : string)
    (acc' : gmap string loc) (evs : list event) : Prop := mk_walk_post {
  wp_grows : acc ⊆ acc';
  wp_registry : acc' ⊆ packages st;
  wp_dom : dom acc' = dom acc ∪ list_to_set (inserted_ids evs);
  wp_once : NoDup (inserted_ids evs);
  wp_new : ∀ id, id ∈ inserted_ids evs → id = root ∨ id ∉ dom acc;
  wp_reach : ∀ id, id ∈ inserted_ids evs → reach st root id;
  wp_root : is_Some (lookup_pkg st root) → root ∈ inserted_ids evs;
  wp_closed : imports_closed st (inserted_ids evs) acc'
}.

(** The same for the loop over the import targets [ts] of a node. *)
Record loop_post (st : State) (ts : list string) (acc : gmap string loc)
    (acc' : gmap string loc) (evs : list event) : Prop := mk_loop_post {
  lp_grows : acc ⊆ acc';
  lp_registry : acc' ⊆ packages st;
  lp_dom : dom acc' = dom acc ∪ list_to_set (inserted_ids evs);
  lp_once : NoDup (inserted_ids evs);
  lp_new : ∀ id, id ∈ inserted_ids evs → id ∉ dom acc;
  lp_reach : ∀ id, id ∈ inserted_ids evs → ∃ t, t ∈ ts ∧ reach st t id;
  lp_targets : ∀ t, t ∈ ts → is_Some (lookup_pkg st t) → t ∈ dom acc';
  lp_closed : imports_closed st (inserted_ids evs) acc'
}.

(** The visited map after the walks from the roots [done]: it holds
    registered nodes that are reached from one of the roots, the registered
    roots, and with a node its registered import targets. *)
Record visited_inv (st : State) (done : list string) (acc : gmap string loc) : Prop :=
  mk_visited_inv {
  vi_registry : acc ⊆ packages st;
  vi_reach : ∀ id, id ∈ dom acc → ∃ root, root ∈ done ∧ reach st root id;
  vi_roots : ∀ root, root ∈ done → is_Some (lookup_pkg st root) → root ∈ dom acc;
  vi_closed : imports_closed st (elements (dom acc)) acc
}.

(** No pointer of the registry is nil. *)
Definition no_nil (st : State) : Prop :=
  ∀ k l, packages st !! k = Some l → is_Some (heap st !! l).

(** The roots that the anchored label [label] stands for, [stdlibLabel]
    being the reserved standard-library root label. *)
Definition root_of_label (stdlibLabel : string) (st : State) (label r : string) : Prop :=
  if decide (label = stdlibLabel)
  then ∃ k l p, lookup_pkg st k = Some (l, p) ∧ Standard p = true ∧ r = ID p
  else r = label ∨ (r = label +:+ "_xtest" ∧ is_Some (packages st !! r)).

(** ** Nodes and registries used in the examples *)

Module Examples.

(** A node as its producer hands it over: the identity is a label. *)
Definition raw_pkg : FlatPackage :=
  mkFlatPackage "@//pkg:lib" "example.com/pkg" ["lib.go"] ∅ false.

Definition raw_heap : gmap loc FlatPackage := {[ 1%positive := raw_pkg ]}.

(** A registered node without files, and a second node for the same
    logical path with one file. *)
Definition no_files_pkg : FlatPackage :=
  mkFlatPackage "example.com/pkg" "example.com/pkg" [] ∅ false.
Definition one_file_pkg : FlatPackage :=
  mkFlatPackage "@//pkg:lib" "example.com/pkg" ["a.go"] ∅ false.

Definition no_files_st : State :=
  mkState {[ 1%positive := no_files_pkg; 2%positive := one_file_pkg ]}
          {[ "example.com/pkg" := 1%positive ]} ∅.

(** The merge example of the file lists [a.go, b.go]. *)
Definition ab_pkg : FlatPackage :=
  mkFlatPackage "example.com/pkg" "example.com/pkg" ["a.go"; "b.go"] ∅ false.
Definition acb_pkg : FlatPackage :=
  mkFlatPackage "@//pkg:proto" "example.com/pkg" ["a.go"; "c.go"; "b.go"]
                {[ "fmt" := "fmt" ]} true.
Definition a_pkg : FlatPackage :=
  mkFlatPackage "@//pkg:other" "example.com/pkg" ["a.go"] ∅ false.

Definition ab_st : State :=
  mkState {[ 1%positive := ab_pkg; 2%positive := acb_pkg; 3%positive := a_pkg ]}
          {[ "example.com/pkg" := 1%positive ]} ∅.

(** A standard-library node and another node with the same logical
    path that is not flagged. *)
Definition fmt_std : FlatPackage :=
  mkFlatPackage "@@io_bazel_rules_go//stdlib:fmt" "fmt" ["print.go"] ∅ true.
Definition fmt_other : FlatPackage :=
  mkFlatPackage "@//vendor/fmt:lib" "fmt" ["fmt.go"] ∅ false.

Definition fmt_heap : gmap loc FlatPackage :=
  {[ 1%positive := fmt_std; 2%positive := fmt_other ]}.

(** The registry after [Add] of the flagged node, and after a second
    [Add] of the other one. *)
Definition fmt_st1 : State :=
  mkState {[ 1%positive := rewritePackage fmt_std; 2%positive := fmt_other ]}
          {[ "fmt" := 1%positive ]} {[ "fmt" := "fmt" ]}.
Definition fmt_st2 : State :=
  mkState {[ 1%positive := rewritePackage fmt_std;
             2%positive := rewritePackage fmt_other ]}
          {[ "fmt" := 2%positive ]} {[ "fmt" := "fmt" ]}.

(** Two nodes that import each other. *)
Definition cyc_heap : gmap loc FlatPackage :=
  {[ 1%positive := mkFlatPackage "@//a:lib" "A" ["a.go"] {[ "B" := "@//b:lib" ]} false;
     2%positive := mkFlatPackage "@//b:lib" "B" ["b.go"] {[ "A" := "@//a:lib" ]} false ]}.

Definition cyc_st : State :=
  mkState {[ 1%positive := mkFlatPackage "A" "A" ["a.go"] {[ "B" := "B" ]} false;
             2%positive := mkFlatPackage "B" "B" ["b.go"] {[ "A" := "A" ]} false ]}
          {[ "A" := 1%positive; "B" := 2%positive ]} ∅.

(** A registry keyed by labels: a library, its external test, and a
    standard-library node. *)
Definition label_heap : gmap loc FlatPackage :=
  {[ 1%positive := mkFlatPackage "" "@//pkg:lib" ["lib.go"] ∅ false;
     2%positive := mkFlatPackage "" "@//pkg:lib_xtest" ["lib_test.go"]
                     {[ "@//pkg:lib" := "" ]} false;
     3%positive := mkFlatPackage "" "fmt" ["print.go"] ∅ true ]}.

Definition label_st : State :=
  mkState {[ 1%positive := mkFlatPackage "@//pkg:lib" "@//pkg:lib" ["lib.go"] ∅ false;
             2%positive := mkFlatPackage "@//pkg:lib_xtest" "@//pkg:lib_xtest"
                             ["lib_test.go"] {[ "@//pkg:lib" := "@//pkg:lib" ]} false;
             3%positive := mkFlatPackage "fmt" "fmt" ["print.go"] ∅ true ]}
          {[ "@//pkg:lib" := 1%positive; "@//pkg:lib_xtest" := 2%positive;
             "fmt" := 3%positive ]}
          {[ "fmt" := "fmt" ]}.

(** A registry in which [Update] has stored a node whose identity is not
    its key, with an import edge to its own key. *)
Definition loop_pkg : FlatPackage :=
  mkFlatPackage "@//a:lib" "A" ["a.go"] {[ "A" := "A" ]} false.
Definition loop_st : State :=
  mkState {[ 1%positive := loop_pkg ]} {[ "A" := 1%positive ]} ∅.

(** Collaborators for [ResolveImports]: a step that fails on a node
    without files and otherwise resolves the import of ["fmt"], and a
    split that returns a test node for a node that imports ["testing"]. *)
Definition step_fmt (resolve : string → string) (p : FlatPackage)
    : FlatPackage * option string :=
  match GoFiles p with
  | [] => (p, Some "no source files")
  | _ :: _ => (set_Imports (<["fmt" := resolve "fmt"]> (Imports p)) p, None)
  end.
Definition split_testing (p : FlatPackage) : FlatPackage * option FlatPackage :=
  match Imports p !! "testing" with
  | Some _ =>
    (p, Some (mkFlatPackage (ID p +:+ "_xtest") (PkgPath p +:+ "_test") [] ∅ false))
  | None => (p, None)
  end.

(** A registry with the standard-library node ["fmt"], a node that
    imports ["testing"], and a node without files. *)
Definition resolve_st : State :=
  mkState {[ 1%positive := mkFlatPackage "fmt" "fmt" ["print.go"] ∅ true;
             2%positive := mkFlatPackage "a" "a" ["a.go"] {[ "testing" := "testing" ]} false;
             3%positive := mkFlatPackage "b" "b" [] ∅ false ]}
          {[ "fmt" := 1%positive; "a" := 2%positive; "b" := 3%positive ]}
          {[ "fmt" := "fmt" ]}.

(** An order for the [range] statements over maps. *)
Definition range_fixed : ∀ A : Type, gmap string A → list (string * A) :=
  λ A m, map_to_list m.

End Examples.

(** ** The per-node import resolution step *)

Section Step.

Variable error : Type.

(** What the step reads in the sources of a node, which the registry does
    not see: the import paths that they declare, as far as the step gets,
    and the failure of the reading, if there is one. *)
Variable declared_imports : FlatPackage → list string * option error.

(** Modelled from the spec: the resolution of one import edge in the step
    [FlatPackage.ResolveImports], which is declared with the node type,
    outside this file. Section 4.5 of the spec has every unresolved import
    edge looked up: "if found, set the edge's target to the indexed
    identity, else leave unresolved (empty target - never an error)". An
    edge is unresolved when [Imports] has no target for its path; the
    lookup is the resolver of the registry, which answers with the empty
    string when it does not find the path. *)
Definition resolve_edge (resolve : string → string)
    (imports : gmap string string) (path : string) : gmap string string :=
  match imports !! path with
  | Some _ => imports
  | None =>
    if decide (resolve path = "") then imports else <[path := resolve path]> imports
  end.

(** Modelled from the spec: the per-node import resolution step
    [FlatPackage.ResolveImports], declared with the node type, outside this
    file. It resolves the import edges of the paths it has read, one after
    the other, and fails with the failure of the reading only ("fails only
    if the delegated per-node import-resolution step fails"). *)
Definition FlatPackage_ResolveImports (resolve : string → string) (pkg : FlatPackage)
    : FlatPackage * option error :=
  (set_Imports (foldl (resolve_edge resolve) (Imports pkg) (declared_imports pkg).1) pkg,
   (declared_imports pkg).2).

End Step.

(** ** Further notions for the properties *)

(** No node is in the registry under two keys. *)
Definition pointer_unique (st : State) : Prop :=
  ∀ k1 k2 l, packages st !! k1 = Some l → packages st !! k2 = Some l → k1 = k2.

(** A flagged node with the logical path [k] is among [pkgs]. *)
Definition flagged_path (h : gmap loc FlatPackage) (pkgs : list loc) (k : string) : Prop :=
  ∃ pkg p, pkg ∈ pkgs ∧ h !! pkg = Some p ∧ Standard p = true ∧ PkgPath p = k.

(** The logical path of the node at [l], if there is one. *)
Definition path_of (h : gmap loc FlatPackage) (l : loc) : option string :=
  PkgPath <$> h !! l.

(** The last of [pkgs] whose node has the logical path [k]. *)
Definition last_with_path (h : gmap loc FlatPackage) (pkgs : list loc) (k : string) : option loc :=
  last (filter (λ l, path_of h l = Some k) pkgs).

(** ** More nodes and registries for the examples *)

Module MoreExamples.

(** A node with the files [a.go, b.go] that is not registered, and the
    empty registry on a heap that holds it. *)
Definition lib_pkg : FlatPackage :=
  mkFlatPackage "@//pkg:lib" "example.com/pkg" ["a.go"; "b.go"] {[ "fmt" := "@//go:fmt" ]} false.
Definition lib_heap : gmap loc FlatPackage :=
  {[ 1%positive := lib_pkg;
     2%positive := mkFlatPackage "@@io_bazel_rules_go//stdlib:fmt" "fmt" ["print.go"] ∅ true ]}.
Definition lib_st0 : State := mkState lib_heap ∅ ∅.

(** The registry after [Add] of both nodes. *)
Definition lib_st : State :=
  mkState {[ 1%positive := mkFlatPackage "example.com/pkg" "example.com/pkg"
                             ["a.go"; "b.go"] {[ "fmt" := "fmt" ]} false;
             2%positive := mkFlatPackage "fmt" "fmt" ["print.go"] ∅ true ]}
          {[ "example.com/pkg" := 1%positive; "fmt" := 2%positive ]}
          {[ "fmt" := "fmt" ]}.

(** A registry with a node that imports a path that is not registered. *)
Definition miss_st : State :=
  mkState {[ 1%positive := mkFlatPackage "A" "A" ["a.go"] {[ "B" := "B"; "os" := "os" ]} false;
             2%positive := mkFlatPackage "B" "B" ["b.go"] ∅ false ]}
          {[ "A" := 1%positive; "B" := 2%positive ]} ∅.

(** Two nodes that import each other by their logical paths and have
    labels as identities, and the registry after an [Update] with each. *)
Definition upd_cyc_heap : gmap loc FlatPackage :=
  {[ 1%positive := mkFlatPackage "@//a:lib" "A" ["a.go"] {[ "B" := "B" ]} false;
     2%positive := mkFlatPackage "@//b:lib" "B" ["b.go"] {[ "A" := "A" ]} false ]}.
Definition upd_cyc_st : State :=
  mkState upd_cyc_heap {[ "A" := 1%positive; "B" := 2%positive ]} ∅.

(** Two nodes with one identity and two logical paths, and the registry
    after an [Update] with each. *)
Definition same_id_heap : gmap loc FlatPackage :=
  {[ 1%positive := mkFlatPackage "@//pkg:lib" "example.com/p1" ["a.go"] ∅ false;
     2%positive := mkFlatPackage "@//pkg:lib" "example.com/p2" ["b.go"] ∅ false ]}.
Definition same_id_st : State :=
  mkState same_id_heap
          {[ "example.com/p1" := 1%positive; "example.com/p2" := 2%positive ]} ∅.

(** What the step reads in the sources of the nodes of
    [Examples.resolve_st]: the node ["a"] declares the imports ["fmt"] and
    ["os"], the node ["b"] has no sources to read. *)
Definition declared_ex (p : FlatPackage) : list string * option string :=
  if decide (PkgPath p = "a") then (["fmt"; "os"], None)
  else if decide (PkgPath p = "b") then ([], Some "no source files")
  else ([], None).

(** A registry with the flagged node ["fmt"], the node ["a"], which
    imports ["testing"], and a node with the logical path ["fmt"] and more
    files that is not registered. *)
Definition idx_st : State :=
  mkState {[ 1%positive := mkFlatPackage "fmt" "fmt" ["print.go"] ∅ true;
             2%positive := mkFlatPackage "@//vendor/fmt:lib" "fmt" ["print.go"; "scan.go"]
                             ∅ false;
             3%positive := mkFlatPackage "a" "a" ["a.go"] {[ "testing" := "testing" ]} false ]}
          {[ "fmt" := 1%positive; "a" := 3%positive ]}
          {[ "fmt" := "fmt" ]}.

(** A flagged node whose logical path is the identity of the test node of
    the node ["a"], and the registry of the two. *)
Definition xtest_heap : gmap loc FlatPackage :=
  {[ 1%positive := mkFlatPackage "@@io_bazel_rules_go//stdlib:a_xtest" "a_xtest"
                     ["x.go"] ∅ true;
     2%positive := mkFlatPackage "@//a:lib" "a" ["a.go"]
                     {[ "testing" := "@@io_bazel_rules_go//stdlib:testing" ]} false ]}.
Definition xtest_st : State :=
  mkState {[ 1%positive := mkFlatPackage "a_xtest" "a_xtest" ["x.go"] ∅ true;
             2%positive := mkFlatPackage "a" "a" ["a.go"] {[ "testing" := "testing" ]} false ]}
          {[ "a_xtest" := 1%positive; "a" := 2%positive ]}
          {[ "a_xtest" := "a_xtest" ]}.

End MoreExamples.

(** * Properties *)

(** ** Strings *)

Lemma substring_0_length (s : string) : String.substring 0 (String.length s) s = s.
Proof. induction s as [|c s IH]; simpl; [done | by rewrite IH]. Qed.

Lemma substring_0_app (p r : string) :
  String.substring 0 (String.length p) (p +:+ r) = p.
Proof.
  induction p as [|c p IH]; simpl.
  - by destruct r.
  - by rewrite IH.
Qed.

Lemma length_app_string (p r : string) :
  String.length (p +:+ r) = String.length p + String.length r.
Proof. induction p as [|c p IH]; simpl; [done | by rewrite IH]. Qed.

Lemma slice_from_app (p r : string) : slice_from (String.length p) (p +:+ r) = r.
Proof.
  unfold slice_from. induction p as [|c p IH]; simpl.
  - rewrite Nat.sub_0_r. apply substring_0_length.
  - exact IH.
Qed.

Lemma substring_0_prefix (p s : string) :
  String.substring 0 (String.length p) s = p → ∃ r, s = p +:+ r.
Proof.
  revert s. induction p as [|c p IH]; intros s Hs.
  - by exists s.
  - destruct s as [|d s]; simpl in Hs; [done|].
    injection Hs as -> Hs. destruct (IH _ Hs) as [r ->]. by exists r.
Qed.

(** [HasPrefix s p] holds exactly when [s] is [p] followed by something. *)
Lemma HasPrefix_true (s p : string) : HasPrefix s p = true ↔ ∃ r, s = p +:+ r.
Proof.
  unfold HasPrefix. rewrite andb_true_iff, !bool_decide_eq_true. split.
  - intros [_ Hs]. by apply substring_0_prefix.
  - intros [r ->]. split.
    + rewrite length_app_string. lia.
    + apply substring_0_app.
Qed.

Lemma HasPrefix_false (s p : string) : HasPrefix s p = false ↔ ¬ ∃ r, s = p +:+ r.
Proof. rewrite <- HasPrefix_true. by destruct (HasPrefix s p). Qed.

(** ** Canonicalization *)

(** C4: [canonicalizeId] returns the identifier without the
    standard-library prefix when the identifier starts with it; otherwise
    the identifier itself when the importing node is standard-library
    flagged; otherwise the declared path. *)
Theorem canonicalizeId_cases (path id : string) (pkg : FlatPackage) :
  (∀ rest, id = stdlibPrefix +:+ rest → canonicalizeId path id pkg = rest)
  ∧ ((¬ ∃ rest, id = stdlibPrefix +:+ rest) → Standard pkg = true →
       canonicalizeId path id pkg = id)
  ∧ ((¬ ∃ rest, id = stdlibPrefix +:+ rest) → Standard pkg = false →
       canonicalizeId path id pkg = path).
Proof.
  unfold canonicalizeId, IsStdlib. split; [|split].
  - intros rest ->.
    assert (HasPrefix (stdlibPrefix +:+ rest) stdlibPrefix = true) as ->
      by (apply HasPrefix_true; eauto).
    apply slice_from_app.
  - intros Hno Hstd. apply HasPrefix_false in Hno. by rewrite Hno, Hstd.
  - intros Hno Hstd. apply HasPrefix_false in Hno. by rewrite Hno, Hstd.
Qed.

(** ** The superset test *)

Lemma sublist_cons_same {A} (x : A) (l k : list A) :
  (x :: l) `sublist_of` (x :: k) ↔ l `sublist_of` k.
Proof.
  split; [|by constructor].
  intros H. apply sublist_cons_r in H as [H'|(l' & [= <-] & H')]; [|done].
  etrans; [|exact H']. by apply sublist_cons.
Qed.

Lemma sublist_cons_other {A} (x y : A) (l k : list A) :
  x ≠ y → (y :: l) `sublist_of` (x :: k) ↔ (y :: l) `sublist_of` k.
Proof.
  intros Hne. split; [|by constructor].
  intros H. apply sublist_cons_r in H as [H'|(l' & [= ->] & H')]; done.
Qed.

(** With [bi] inside [b], the loop decides whether the rest of [b] from
    [bi] on is a subsequence of [a]. *)
Lemma isSuperset_loop_spec (a b : list string) (bi : nat) :
  bi < length b →
  ∃ r, isSuperset_loop a b bi = Ok r ∧ (r = true ↔ drop bi b `sublist_of` a).
Proof.
  revert bi. induction a as [|ai a IH]; intros bi Hbi; simpl.
  - exists false. split; [done|]. split; [done|].
    intros H%sublist_nil_r. apply (f_equal length) in H.
    rewrite length_drop in H. simpl in H. lia.
  - destruct (lookup_lt_is_Some_2 b bi Hbi) as [bbi Hb]. rewrite Hb.
    rewrite (drop_S _ _ _ Hb).
    destruct (decide (ai = bbi)) as [->|Hne].
    + destruct (decide (S bi = length b)) as [Hlast|Hmore].
      * exists true. split; [done|]. split; [|done]. intros _.
        rewrite drop_ge by lia. apply sublist_skip, sublist_nil_l.
      * destruct (IH (S bi)) as (r & -> & Hr); [lia|].
        exists r. split; [done|]. by rewrite sublist_cons_same.
    + destruct (IH bi Hbi) as (r & -> & Hr).
      exists r. split; [done|].
      by rewrite sublist_cons_other, <- (drop_S _ _ _ Hb).
Qed.

(** For a non-empty [b], [isSuperset a b] is the subsequence test. *)
Lemma isSuperset_nonempty (a b : list string) :
  b ≠ [] →
  ∃ r, isSuperset a b = Ok r ∧ (r = true ↔ b `sublist_of` a).
Proof.
  intros Hb. unfold isSuperset. destruct (decide (length a < length b)) as [Hlt|Hge].
  - exists false. split; [done|]. split; [done|].
    intros H%sublist_length. lia.
  - destruct (isSuperset_loop_spec a b 0) as (r & -> & Hr).
    + destruct b; [done | simpl; lia].
    + by exists r.
Qed.

Lemma isSuperset_shorter (a b : list string) :
  length a < length b → isSuperset a b = Ok false.
Proof. intros H. unfold isSuperset. by rewrite decide_True. Qed.

(** C1: for a non-empty [b], [isSuperset a b] returns true exactly when [b]
    is an order-preserving subsequence of [a], and false when [b] is longer
    than [a]. The empty sequence is a subsequence of every [a], but
    [isSuperset a []] never returns true: it returns false for the empty
    [a], and reads [b[0]] out of range for any other [a]. *)
Theorem isSuperset_behaviour :
  (∀ a b, b ≠ [] → ∃ r, isSuperset a b = Ok r ∧ (r = true ↔ b `sublist_of` a))
  ∧ (∀ a b, length a < length b → isSuperset a b = Ok false)
  ∧ (∀ a, [] `sublist_of` a
          ∧ isSuperset a [] = match a with [] => Ok false | _ :: _ => Panic end)
  ∧ isSuperset ["a.go"] [] = Panic
  ∧ isSuperset [] [] = Ok false.
Proof.
  split; [exact isSuperset_nonempty|]. split; [exact isSuperset_shorter|].
  split; [|done]. intros a. split; [apply sublist_nil_l|]. by destruct a.
Qed.

(** ** Registration *)

Lemma lookup_pkg_Some (st : State) (k : string) (l : loc) (p : FlatPackage) :
  lookup_pkg st k = Some (l, p) ↔ packages st !! k = Some l ∧ heap st !! l = Some p.
Proof.
  unfold lookup_pkg. split.
  - intros H. destruct (packages st !! k) as [l'|]; simpl in H; [|done].
    destruct (heap st !! l') as [p'|] eqn:Hh; simpl in H; [|done].
    by injection H as -> ->.
  - intros [-> H]. simpl. by rewrite H.
Qed.

Lemma rewritePackage_ID (p : FlatPackage) : ID (rewritePackage p) = PkgPath p.
Proof. done. Qed.
Lemma rewritePackage_PkgPath (p : FlatPackage) : PkgPath (rewritePackage p) = PkgPath p.
Proof. done. Qed.
Lemma rewritePackage_Standard (p : FlatPackage) : Standard (rewritePackage p) = Standard p.
Proof. done. Qed.
Lemma rewritePackage_GoFiles (p : FlatPackage) : GoFiles (rewritePackage p) = GoFiles p.
Proof. done. Qed.

(** Every import target of a rewritten node is the canonical identifier of
    the edge it replaces. *)
Lemma rewritePackage_Imports (p : FlatPackage) (k : string) :
  Imports (rewritePackage p) !! k
  = (λ v, canonicalizeId k v (set_ID (PkgPath p) p)) <$> Imports p !! k.
Proof.
  unfold rewritePackage. simpl. rewrite map_lookup_imap.
  by destruct (Imports p !! k).
Qed.

(** What one iteration of [Add] does to the state. *)
Lemma Add_one_Ok (st : State) (pkg : loc) (p0 : FlatPackage) :
  heap st !! pkg = Some p0 →
  Add_one st pkg =
    Ok (mkState (<[pkg := rewritePackage p0]> (heap st))
                (<[PkgPath p0 := pkg]> (packages st))
                (if Standard p0 then <[PkgPath p0 := PkgPath p0]> (stdlib st)
                 else stdlib st)).
Proof.
  intros H. unfold Add_one. rewrite H. simpl. unfold IsStdlib. simpl.
  by destruct (Standard p0).
Qed.

Lemma Add_one_inv (st st' : State) (pkg : loc) :
  Add_one st pkg = Ok st' →
  ∃ p0, heap st !! pkg = Some p0
    ∧ st' = mkState (<[pkg := rewritePackage p0]> (heap st))
                    (<[PkgPath p0 := pkg]> (packages st))
                    (if Standard p0 then <[PkgPath p0 := PkgPath p0]> (stdlib st)
                     else stdlib st).
Proof.
  intros H. destruct (heap st !! pkg) as [p0|] eqn:Hp.
  - exists p0. split; [done|]. rewrite (Add_one_Ok _ _ _ Hp) in H. by injection H.
  - unfold Add_one in H. by rewrite Hp in H.
Qed.

(** [Add] keeps every node in the heap, with its path, flag and files. *)
Lemma Add_one_heap (st st' : State) (pkg l : loc) (p : FlatPackage) :
  Add_one st pkg = Ok st' → heap st !! l = Some p →
  ∃ p', heap st' !! l = Some p' ∧ PkgPath p' = PkgPath p
        ∧ Standard p' = Standard p ∧ GoFiles p' = GoFiles p.
Proof.
  intros (p0 & Hp0 & ->)%Add_one_inv Hl. simpl.
  destruct (decide (pkg = l)) as [->|Hne].
  - rewrite lookup_insert_eq. exists (rewritePackage p0).
    rewrite Hp0 in Hl. by injection Hl as ->.
  - rewrite lookup_insert_ne by done. by exists p.
Qed.

Lemma Add_heap (st st' : State) (pkgs : list loc) (l : loc) (p : FlatPackage) :
  Add st pkgs = Ok st' → heap st !! l = Some p →
  ∃ p', heap st' !! l = Some p' ∧ PkgPath p' = PkgPath p
        ∧ Standard p' = Standard p ∧ GoFiles p' = GoFiles p.
Proof.
  revert st p. induction pkgs as [|pkg pkgs IH]; intros st p H Hl; simpl in H.
  - injection H as <-. by exists p.
  - destruct (Add_one st pkg) as [st1|] eqn:H1; simpl in H; [|done].
    destruct (Add_one_heap _ _ _ _ _ H1 Hl) as (p1 & Hl1 & Hpath & Hstd & Hfiles).
    destruct (IH _ _ H Hl1) as (p' & ? & ? & ? & ?).
    exists p'. repeat split; congruence.
Qed.

(** One iteration of [Add] keeps the registry canonical. *)
Lemma Add_one_canonical (st st' : State) (pkg : loc) :
  Add_one st pkg = Ok st' → canonical st → canonical st'.
Proof.
  intros (p0 & Hp0 & ->)%Add_one_inv Hcan k l p [Hk Hl]%lookup_pkg_Some.
  simpl in Hk, Hl.
  destruct (decide (PkgPath p0 = k)) as [<-|Hk'].
  - rewrite lookup_insert_eq in Hk. injection Hk as <-.
    rewrite lookup_insert_eq in Hl. by injection Hl as <-.
  - rewrite lookup_insert_ne in Hk by done.
    destruct (decide (pkg = l)) as [->|Hl'].
    + destruct (Hcan k l p0) as [? _]; [by apply lookup_pkg_Some | done].
    + rewrite lookup_insert_ne in Hl by done.
      apply (Hcan k l p). by apply lookup_pkg_Some.
Qed.

Lemma Add_canonical (st st' : State) (pkgs : list loc) :
  Add st pkgs = Ok st' → canonical st → canonical st'.
Proof.
  revert st. induction pkgs as [|pkg pkgs IH]; intros st H Hcan; simpl in H.
  - by injection H as <-.
  - destruct (Add_one st pkg) as [st1|] eqn:H1; simpl in H; [|done].
    eapply IH; [done|]. by eapply Add_one_canonical.
Qed.

Lemma canonical_keyed (st : State) : canonical st → keyed_by_ID st.
Proof. intros H k l p Hk. by destruct (H k l p Hk). Qed.

(** Every node given to [Add] ends up rewritten, and the node stored under
    its logical path has that path as its identity. *)
Lemma Add_stores_canonical (st st' : State) (pkgs : list loc) (pkg : loc) (p0 : FlatPackage) :
  Add st pkgs = Ok st' → pkg ∈ pkgs → heap st !! pkg = Some p0 →
  ∃ l p, lookup_pkg st' (PkgPath p0) = Some (l, p)
         ∧ PkgPath p = PkgPath p0 ∧ ID p = PkgPath p0.
Proof.
  revert st p0. induction pkgs as [|q pkgs IH]; intros st p0 H Hin Hp0; [by inversion Hin|].
  simpl in H. destruct (Add_one st q) as [st1|] eqn:H1; simpl in H; [|done].
  destruct (decide (pkg ∈ pkgs)) as [Hin'|Hnin].
  - destruct (Add_one_heap _ _ _ _ _ H1 Hp0) as (p1 & Hp1 & Hpath & _).
    destruct (IH _ _ H Hin' Hp1) as (l & p & ? & ? & ?).
    exists l, p. rewrite <- Hpath. done.
  - apply elem_of_cons in Hin as [<-|]; [|done].
    clear IH. apply Add_one_inv in H1 as (p0' & Hp0' & ->).
    rewrite Hp0 in Hp0'. injection Hp0' as <-.
    assert (∀ st1 l p, Add st1 pkgs = Ok st' →
      lookup_pkg st1 (PkgPath p0) = Some (l, p) →
      PkgPath p = PkgPath p0 → ID p = PkgPath p0 →
      ∃ l' p', lookup_pkg st' (PkgPath p0) = Some (l', p')
               ∧ PkgPath p' = PkgPath p0 ∧ ID p' = PkgPath p0) as Hkeep.
    { clear. induction pkgs as [|r pkgs IH]; intros st1 l p H Hl Hpath Hid; simpl in H.
      - injection H as <-. by exists l, p.
      - destruct (Add_one st1 r) as [st2|] eqn:H2; simpl in H; [|done].
        apply Add_one_inv in H2 as (r0 & Hr0 & ->).
        apply lookup_pkg_Some in Hl as [Hk Hh].
        destruct (decide (PkgPath r0 = PkgPath p0)) as [Heq|Hne].
        + eapply (IH _ r (rewritePackage r0)); [done| | |].
          * apply lookup_pkg_Some. simpl. rewrite Heq, !lookup_insert_eq. done.
          * done.
          * done.
        + destruct (decide (r = l)) as [->|Hrl].
          { rewrite Hh in Hr0. injection Hr0 as <-. done. }
          eapply (IH _ l p); [done| |done|done].
          apply lookup_pkg_Some. simpl.
          by rewrite lookup_insert_ne, lookup_insert_ne. }
    eapply (Hkeep _ pkg (rewritePackage p0)); [done| |done|done].
    apply lookup_pkg_Some. simpl. by rewrite !lookup_insert_eq.
Qed.

(** ** Update *)

Lemma Update_new (st : State) (pkg : loc) (p : FlatPackage) :
  heap st !! pkg = Some p → packages st !! PkgPath p = None →
  Update st pkg = Ok (set_packages (<[PkgPath p := pkg]> (packages st)) st).
Proof. intros Hp Hk. unfold Update. by rewrite Hp; simpl; rewrite Hk. Qed.

(** The node that [Update] inserts as new is stored as it is given: its
    identity is not rewritten. *)
Lemma Update_new_lookup (st : State) (pkg : loc) (p : FlatPackage) :
  heap st !! pkg = Some p → packages st !! PkgPath p = None →
  ∃ st', Update st pkg = Ok st' ∧ lookup_pkg st' (PkgPath p) = Some (pkg, p).
Proof.
  intros Hp Hk. eexists. split; [by apply Update_new|].
  apply lookup_pkg_Some. simpl. by rewrite lookup_insert_eq.
Qed.

Lemma Update_existing (st : State) (pkg existing : loc) (p e : FlatPackage) :
  heap st !! pkg = Some p → packages st !! PkgPath p = Some existing →
  heap st !! existing = Some e →
  Update st pkg =
    (sup ←r isSuperset (GoFiles p) (GoFiles e);
     Ok (if sup : bool
         then set_heap (<[existing := set_GoFiles (GoFiles p) e]> (heap st)) st
         else st)).
Proof.
  intros Hp Hk He. unfold Update. rewrite Hp; simpl; rewrite Hk, He; simpl.
  by destruct (isSuperset (GoFiles p) (GoFiles e)) as [[]|].
Qed.

(** When the existing node has files, [Update] replaces them by the
    incoming files exactly when the existing files are a subsequence of
    the incoming ones, and changes nothing else. *)
Lemma Update_merge (st : State) (pkg existing : loc) (p e : FlatPackage) :
  heap st !! pkg = Some p → packages st !! PkgPath p = Some existing →
  heap st !! existing = Some e → GoFiles e ≠ [] →
  ∃ sup : bool,
    (sup = true ↔ GoFiles e `sublist_of` GoFiles p)
    ∧ Update st pkg =
        Ok (if sup
            then set_heap (<[existing := set_GoFiles (GoFiles p) e]> (heap st)) st
            else st).
Proof.
  intros Hp Hk He Hne. rewrite (Update_existing _ _ _ _ _ Hp Hk He).
  destruct (isSuperset_nonempty (GoFiles p) (GoFiles e) Hne) as (r & -> & Hr).
  by exists r.
Qed.

(** Whenever [Update] returns for a path that is registered, the two maps
    of the registry are what they were, every other node is what it was,
    and the existing node differs in its files at most. *)
Lemma Update_frame (st st' : State) (pkg existing : loc) (p e : FlatPackage) :
  heap st !! pkg = Some p → packages st !! PkgPath p = Some existing →
  heap st !! existing = Some e → Update st pkg = Ok st' →
  packages st' = packages st ∧ stdlib st' = stdlib st
  ∧ (∀ l, l ≠ existing → heap st' !! l = heap st !! l)
  ∧ ∃ e', heap st' !! existing = Some e' ∧ ID e' = ID e ∧ PkgPath e' = PkgPath e
          ∧ Imports e' = Imports e ∧ Standard e' = Standard e
          ∧ (GoFiles e' = GoFiles e ∨ GoFiles e' = GoFiles p).
Proof.
  intros Hp Hk He. rewrite (Update_existing _ _ _ _ _ Hp Hk He).
  destruct (isSuperset (GoFiles p) (GoFiles e)) as [[]|]; simpl; [| |done].
  - intros [= <-]. simpl. split; [done|]. split; [done|]. split.
    + intros l Hl. by rewrite lookup_insert_ne.
    + rewrite lookup_insert_eq. eexists. split; [done|]. simpl. auto 10.
  - intros [= <-]. split; [done|]. split; [done|]. split; [done|].
    exists e. auto 10.
Qed.

(** [Update] keeps every node under its identity when the node it inserts
    as new, if it inserts one, already has its logical path as identity. *)
Lemma Update_keyed (st st' : State) (pkg : loc) :
  Update st pkg = Ok st' → keyed_by_ID st →
  (∀ p, heap st !! pkg = Some p → packages st !! PkgPath p = None → ID p = PkgPath p) →
  keyed_by_ID st'.
Proof.
  intros HU Hkeyed Hnew k l q [Hk Hq]%lookup_pkg_Some.
  revert HU. unfold Update. destruct (heap st !! pkg) as [p|] eqn:Hp; simpl; [|done].
  destruct (packages st !! PkgPath p) as [ex|] eqn:Hex.
  - destruct (heap st !! ex) as [e|] eqn:He; simpl; [|done].
    destruct (isSuperset (GoFiles p) (GoFiles e)) as [[]|]; simpl; [| |done].
    + intros [= <-]. simpl in Hk, Hq. destruct (decide (ex = l)) as [->|Hne].
      * rewrite lookup_insert_eq in Hq. injection Hq as <-. simpl.
        apply (Hkeyed k l e). by apply lookup_pkg_Some.
      * rewrite lookup_insert_ne in Hq by done.
        apply (Hkeyed k l q). by apply lookup_pkg_Some.
    + intros [= <-]. apply (Hkeyed k l q). by apply lookup_pkg_Some.
  - intros [= <-]. simpl in Hk, Hq. destruct (decide (PkgPath p = k)) as [<-|Hne].
    + rewrite lookup_insert_eq in Hk. injection Hk as <-.
      rewrite Hp in Hq. injection Hq as <-. by apply Hnew.
    + rewrite lookup_insert_ne in Hk by done.
      apply (Hkeyed k l q). by apply lookup_pkg_Some.
Qed.

(** The merge example: the existing files [a.go, b.go] are replaced by the
    incoming [a.go, c.go, b.go], and kept when the incoming files are
    [a.go]; the other fields of the existing node stay. *)
Example Update_merge_example :
  Update Examples.ab_st 2%positive
    = Ok (set_heap (<[1%positive := set_GoFiles ["a.go"; "c.go"; "b.go"] Examples.ab_pkg]>
                      (heap Examples.ab_st)) Examples.ab_st)
  ∧ Update Examples.ab_st 3%positive = Ok Examples.ab_st.
Proof. split; reflexivity. Qed.

(** C2: [Update] stores a node that it inserts as new under the node's
    logical path as the node is given, with the identity it came with; for
    the node of the example, whose identity is a label, the identity of the
    stored node differs from its logical path. *)
Theorem Update_insert_keeps_raw_identity :
  (∀ st pkg p, heap st !! pkg = Some p → packages st !! PkgPath p = None →
     ∃ st', Update st pkg = Ok st' ∧ lookup_pkg st' (PkgPath p) = Some (pkg, p))
  ∧ ∃ st' l p,
      Update (mkState Examples.raw_heap ∅ ∅) 1%positive = Ok st'
      ∧ lookup_pkg st' "example.com/pkg" = Some (l, p)
      ∧ PkgPath p = "example.com/pkg"
      ∧ ID p = "@//pkg:lib"
      ∧ ID p ≠ PkgPath p.
Proof.
  split; [exact Update_new_lookup|].
  destruct (Update_new_lookup (mkState Examples.raw_heap ∅ ∅) 1%positive Examples.raw_pkg)
    as (st' & HU & Hl); [done..|].
  exists st', 1%positive, Examples.raw_pkg. by repeat split.
Qed.

(** C3: for a logical path that is registered, [Update] replaces the files
    of the existing node by the incoming files exactly when the existing
    files are a subsequence of the incoming ones, provided the existing
    node has files, and whenever it returns it leaves everything else as it
    was. When the existing node has no files and the incoming node has
    some, the incoming files are a superset of the existing ones, and
    [Update] does not replace the files: it panics in the superset test. *)
Theorem Update_existing_behaviour :
  (∀ st pkg existing p e,
     heap st !! pkg = Some p → packages st !! PkgPath p = Some existing →
     heap st !! existing = Some e →
     (GoFiles e ≠ [] →
        ∃ sup : bool,
          (sup = true ↔ GoFiles e `sublist_of` GoFiles p)
          ∧ Update st pkg =
              Ok (if sup
                  then set_heap (<[existing := set_GoFiles (GoFiles p) e]> (heap st)) st
                  else st))
     ∧ (GoFiles e = [] → GoFiles p ≠ [] →
          GoFiles e `sublist_of` GoFiles p ∧ Update st pkg = Panic)
     ∧ (GoFiles e = [] → GoFiles p = [] → Update st pkg = Ok st)
     ∧ (∀ st', Update st pkg = Ok st' →
          packages st' = packages st ∧ stdlib st' = stdlib st
          ∧ (∀ l, l ≠ existing → heap st' !! l = heap st !! l)
          ∧ ∃ e', heap st' !! existing = Some e' ∧ ID e' = ID e
                  ∧ PkgPath e' = PkgPath e ∧ Imports e' = Imports e
                  ∧ Standard e' = Standard e
                  ∧ (GoFiles e' = GoFiles e ∨ GoFiles e' = GoFiles p)))
  ∧ lookup_pkg Examples.no_files_st "example.com/pkg"
    = Some (1%positive, Examples.no_files_pkg)
  ∧ heap Examples.no_files_st !! 2%positive = Some Examples.one_file_pkg
  ∧ GoFiles Examples.no_files_pkg `sublist_of` GoFiles Examples.one_file_pkg
  ∧ Update Examples.no_files_st 2%positive = Panic.
Proof.
  split.
  - intros st pkg existing p e Hp Hk He. split; [|split; [|split]].
    + by apply Update_merge.
    + intros He0 Hp0. split; [rewrite He0; apply sublist_nil_l|].
      rewrite (Update_existing _ _ _ _ _ Hp Hk He), He0.
      by destruct (GoFiles p).
    + intros He0 Hp0. by rewrite (Update_existing _ _ _ _ _ Hp Hk He), He0, Hp0.
    + intros st'. by apply Update_frame.
  - split; [reflexivity|]. split; [reflexivity|]. split; [apply sublist_nil_l|].
    reflexivity.
Qed.

(** ** The standard-library index *)

(** [Add] writes an index entry only for a flagged node that it is given,
    and the entry maps the logical path of the node to itself. *)
Lemma Add_one_stdlib_entry (st st' : State) (pkg : loc) (k id : string) :
  Add_one st pkg = Ok st' → stdlib st' !! k = Some id →
  stdlib st !! k = Some id
  ∨ ∃ p, heap st !! pkg = Some p ∧ Standard p = true ∧ PkgPath p = k ∧ id = k.
Proof.
  intros (p0 & Hp0 & ->)%Add_one_inv. simpl.
  destruct (Standard p0) eqn:Hstd; [|by left].
  destruct (decide (PkgPath p0 = k)) as [<-|Hne].
  - rewrite lookup_insert_eq. intros [= <-]. right. by exists p0.
  - rewrite lookup_insert_ne by done. by left.
Qed.

Lemma Add_stdlib_entry (st st' : State) (pkgs : list loc) (k id : string) :
  Add st pkgs = Ok st' → stdlib st' !! k = Some id →
  stdlib st !! k = Some id
  ∨ ∃ pkg p, pkg ∈ pkgs ∧ heap st !! pkg = Some p
             ∧ Standard p = true ∧ PkgPath p = k ∧ id = k.
Proof.
  revert st. induction pkgs as [|q pkgs IH]; intros st H Hk; simpl in H.
  - injection H as <-. by left.
  - destruct (Add_one st q) as [st1|] eqn:H1; simpl in H; [|done].
    destruct (IH _ H Hk) as [Hk1|(pkg & p1 & Hin & Hp1 & Hstd & Hpath & ->)].
    + destruct (Add_one_stdlib_entry _ _ _ _ _ H1 Hk1) as [?|(p & ? & ? & ? & ?)];
        [by left|].
      right. exists q, p. split; [apply list_elem_of_here|done].
    + right. apply Add_one_inv in H1 as (q0 & Hq0 & ->). simpl in Hp1.
      destruct (decide (q = pkg)) as [->|Hne].
      * rewrite lookup_insert_eq in Hp1. injection Hp1 as <-.
        exists pkg, q0. split; [apply list_elem_of_here|done].
      * rewrite lookup_insert_ne in Hp1 by done.
        exists pkg, p1. split; [by apply list_elem_of_further|done].
Qed.

Lemma Add_one_stdlib_dom (st st' : State) (pkg : loc) (k : string) :
  Add_one st pkg = Ok st' → stdlib st' !! k = None → stdlib st !! k = None.
Proof.
  intros (p0 & Hp0 & ->)%Add_one_inv. simpl.
  destruct (Standard p0); [|done].
  destruct (decide (PkgPath p0 = k)) as [<-|Hne].
  - by rewrite lookup_insert_eq.
  - by rewrite lookup_insert_ne.
Qed.

Lemma Add_stdlib_dom (st st' : State) (pkgs : list loc) (k : string) :
  Add st pkgs = Ok st' → stdlib st' !! k = None → stdlib st !! k = None.
Proof.
  revert st. induction pkgs as [|q pkgs IH]; intros st H Hk; simpl in H.
  - by injection H as <-.
  - destruct (Add_one st q) as [st1|] eqn:H1; simpl in H; [|done].
    eapply Add_one_stdlib_dom; [done|]. by eapply IH.
Qed.

(** One iteration of [Add] keeps the index sound when the node is flagged
    or its logical path is not in the index. *)
Lemma Add_one_stdlib_flagged (st st' : State) (pkg : loc) :
  Add_one st pkg = Ok st' → stdlib_flagged st →
  (∀ p, heap st !! pkg = Some p → Standard p = false → stdlib st !! PkgPath p = None) →
  stdlib_flagged st'.
Proof.
  intros (p0 & Hp0 & ->)%Add_one_inv Hinv Hfree k id Hk. simpl in Hk.
  destruct (decide (PkgPath p0 = k)) as [<-|Hne].
  - destruct (Standard p0) eqn:Hstd.
    + exists pkg, (rewritePackage p0). split; [|done].
      apply lookup_pkg_Some. simpl. by rewrite !lookup_insert_eq.
    + by rewrite (Hfree p0 Hp0 Hstd) in Hk.
  - assert (stdlib st !! k = Some id) as Hk0.
    { destruct (Standard p0); [|done]. by rewrite lookup_insert_ne in Hk. }
    destruct (Hinv k id Hk0) as (l & p & [Hl Hp]%lookup_pkg_Some & Hstd).
    destruct (decide (pkg = l)) as [->|Hl'].
    + exists l, (rewritePackage p0). split.
      * apply lookup_pkg_Some. simpl. by rewrite lookup_insert_ne, lookup_insert_eq.
      * rewrite rewritePackage_Standard. congruence.
    + exists l, p. split; [|done].
      apply lookup_pkg_Some. simpl. by rewrite !lookup_insert_ne.
Qed.

Lemma Add_stdlib_flagged (st st' : State) (pkgs : list loc) :
  Add st pkgs = Ok st' → stdlib_flagged st →
  (∀ pkg p, pkg ∈ pkgs → heap st !! pkg = Some p → Standard p = false →
     stdlib st' !! PkgPath p = None) →
  stdlib_flagged st'.
Proof.
  revert st. induction pkgs as [|q pkgs IH]; intros st H Hinv Hfree; simpl in H.
  - by injection H as <-.
  - destruct (Add_one st q) as [st1|] eqn:H1; simpl in H; [|done].
    eapply IH; [done| |].
    + eapply Add_one_stdlib_flagged; [done..|].
      intros p Hp Hstd. eapply Add_one_stdlib_dom; [done|].
      eapply Add_stdlib_dom; [done|].
      eapply Hfree; [apply list_elem_of_here|done..].
    + intros pkg p1 Hin Hp1 Hstd.
      apply Add_one_inv in H1 as (q0 & Hq0 & ->). simpl in Hp1.
      destruct (decide (q = pkg)) as [->|Hne].
      * rewrite lookup_insert_eq in Hp1. injection Hp1 as <-.
        apply (Hfree pkg q0); [apply list_elem_of_here|done..].
      * rewrite lookup_insert_ne in Hp1 by done.
        apply (Hfree pkg p1); [by apply list_elem_of_further|done..].
Qed.

(** [Update] does not write the index, and keeps it sound. *)
Lemma Update_stdlib (st st' : State) (pkg : loc) :
  Update st pkg = Ok st' → stdlib st' = stdlib st.
Proof.
  unfold Update. destruct (heap st !! pkg) as [p|]; simpl; [|done].
  destruct (packages st !! PkgPath p) as [ex|]; [|by intros [= <-]].
  destruct (heap st !! ex) as [e|]; simpl; [|done].
  destruct (isSuperset (GoFiles p) (GoFiles e)) as [[]|]; simpl;
    [by intros [= <-]..|done].
Qed.

Lemma Update_stdlib_flagged (st st' : State) (pkg : loc) :
  Update st pkg = Ok st' → stdlib_flagged st → stdlib_flagged st'.
Proof.
  intros HU Hinv k id Hk. rewrite (Update_stdlib _ _ _ HU) in Hk.
  destruct (Hinv k id Hk) as (l & q & [Hl Hq]%lookup_pkg_Some & Hstd).
  revert HU. unfold Update. destruct (heap st !! pkg) as [p|]; simpl; [|done].
  destruct (packages st !! PkgPath p) as [ex|] eqn:Hex.
  - destruct (heap st !! ex) as [e|] eqn:He; simpl; [|done].
    destruct (isSuperset (GoFiles p) (GoFiles e)) as [[]|]; simpl; [| |done].
    + intros [= <-]. destruct (decide (ex = l)) as [->|Hne].
      * exists l, (set_GoFiles (GoFiles p) e). split.
        -- apply lookup_pkg_Some. simpl. by rewrite lookup_insert_eq.
        -- simpl. congruence.
      * exists l, q. split; [|done].
        apply lookup_pkg_Some. simpl. by rewrite lookup_insert_ne.
    + intros [= <-]. exists l, q. split; [|done]. by apply lookup_pkg_Some.
  - intros [= <-]. exists l, q. split; [|done].
    apply lookup_pkg_Some. simpl. rewrite lookup_insert_ne; [done|congruence].
Qed.

(** ** Import resolution *)

Section ResolveImportsProperties.

Context {error : Type}.
Variable pkgResolveImports : (string → string) → FlatPackage → FlatPackage * option error.
Variable MoveTestFiles : FlatPackage → FlatPackage * option FlatPackage.

Local Abbreviation node := (ResolveImports_node error pkgResolveImports MoveTestFiles).
Local Abbreviation run := (ResolveImports error pkgResolveImports MoveTestFiles).
Local Abbreviation after_split := (after_split MoveTestFiles).

Lemma ResolveImports_node_eq (st : State) (l : loc) (pkg : FlatPackage) :
  heap st !! l = Some pkg →
  node st l =
    match (pkgResolveImports (resolve st) pkg).2 with
    | Some e =>
      Ok (set_heap (<[l := (pkgResolveImports (resolve st) pkg).1]> (heap st)) st, Some e)
    | None => Ok (after_split st l (pkgResolveImports (resolve st) pkg).1, None)
    end.
Proof.
  intros Hl. unfold ResolveImports_node. rewrite Hl. simpl.
  by destruct (pkgResolveImports (resolve st) pkg) as [pkg1 [e|]].
Qed.

Lemma ResolveImports_node_nil (st : State) (l : loc) :
  heap st !! l = None → node st l = Panic.
Proof. intros Hl. unfold ResolveImports_node. by rewrite Hl. Qed.

(** A split result is stored under its identity, at a new location. *)
Lemma after_split_lookup (st : State) (l : loc) (pkg1 t : FlatPackage) :
  (MoveTestFiles pkg1).2 = Some t →
  ∃ lt, heap st !! lt = None ∧ lt ≠ l
        ∧ lookup_pkg (after_split st l pkg1) (ID t) = Some (lt, t).
Proof.
  intros Ht. unfold after_split. rewrite Ht. simpl.
  set (h2 := <[l := (MoveTestFiles pkg1).1]> (<[l := pkg1]> (heap st))).
  pose proof (is_fresh (dom h2)) as Hfresh.
  exists (fresh (dom h2)). split; [|split].
  - apply not_elem_of_dom. intros Hin. apply Hfresh. subst h2.
    rewrite !dom_insert_L. set_solver.
  - intros Heq. apply Hfresh. rewrite Heq. subst h2.
    rewrite !dom_insert_L. set_solver.
  - apply lookup_pkg_Some. simpl. by rewrite !lookup_insert_eq.
Qed.

Lemma ResolveImports_app (ks1 ks2 : list string) (st : State) :
  run (ks1 ++ ks2) st =
    (r ←r run ks1 st;
     match r with
     | (st1, Some e) => Ok (st1, Some e)
     | (st1, None) => run ks2 st1
     end).
Proof.
  revert st. induction ks1 as [|k ks1 IH]; intros st; simpl; [done|].
  destruct (packages st !! k) as [l|]; [|apply IH].
  destruct (node st l) as [[st1 [e|]]|]; simpl; [done| |done].
  apply IH.
Qed.

(** [ResolveImports] returns an error exactly when the step fails at some
    node of the range, all the steps before having succeeded; the error is
    the one of that step and the state is the one right after it. *)
Lemma ResolveImports_error_iff (ks : list string) (st st' : State) (e : error) :
  run ks st = Ok (st', Some e) ↔
  ∃ ks1 k ks2 st1 l pkg,
    ks = ks1 ++ k :: ks2
    ∧ run ks1 st = Ok (st1, None)
    ∧ lookup_pkg st1 k = Some (l, pkg)
    ∧ (pkgResolveImports (resolve st1) pkg).2 = Some e
    ∧ st' = set_heap (<[l := (pkgResolveImports (resolve st1) pkg).1]> (heap st1)) st1.
Proof.
  split.
  - revert st. induction ks as [|k ks IH]; intros st H; simpl in H; [done|].
    destruct (packages st !! k) as [l|] eqn:Hk.
    + destruct (heap st !! l) as [pkg|] eqn:Hl;
        [|by rewrite (ResolveImports_node_nil _ _ Hl) in H].
      rewrite (ResolveImports_node_eq _ _ _ Hl) in H.
      destruct ((pkgResolveImports (resolve st) pkg).2) as [e'|] eqn:He; simpl in H.
      * injection H as <- <-. exists [], k, ks, st, l, pkg.
        split; [done|]. split; [done|]. split; [by apply lookup_pkg_Some|]. done.
      * destruct (IH _ H) as (ks1 & k' & ks2 & st1 & l' & pkg' & -> & Hrun & Hrest).
        exists (k :: ks1), k', ks2, st1, l', pkg'. split; [done|]. split; [|done].
        simpl. rewrite Hk, (ResolveImports_node_eq _ _ _ Hl), He. done.
    + destruct (IH _ H) as (ks1 & k' & ks2 & st1 & l' & pkg' & -> & Hrun & Hrest).
      exists (k :: ks1), k', ks2, st1, l', pkg'. split; [done|]. split; [|done].
      simpl. by rewrite Hk.
  - intros (ks1 & k & ks2 & st1 & l & pkg & -> & Hrun & [Hk Hl]%lookup_pkg_Some & He & ->).
    rewrite ResolveImports_app, Hrun. simpl.
    rewrite Hk, (ResolveImports_node_eq _ _ _ Hl), He. done.
Qed.

(** [ResolveImports] does not write the standard-library index. *)
Lemma ResolveImports_node_stdlib (st st' : State) (l : loc) (oe : option error) :
  node st l = Ok (st', oe) → stdlib st' = stdlib st.
Proof.
  destruct (heap st !! l) as [pkg|] eqn:Hl;
    [|by rewrite (ResolveImports_node_nil _ _ Hl)].
  rewrite (ResolveImports_node_eq _ _ _ Hl).
  destruct ((pkgResolveImports (resolve st) pkg).2); intros [= <- <-]; [done|].
  unfold after_split. by destruct ((MoveTestFiles _).2).
Qed.

Lemma ResolveImports_stdlib (ks : list string) (st st' : State) (oe : option error) :
  run ks st = Ok (st', oe) → stdlib st' = stdlib st.
Proof.
  revert st. induction ks as [|k ks IH]; intros st H; simpl in H.
  - by injection H as <- <-.
  - destruct (packages st !! k) as [l|]; [|by apply IH].
    destruct (node st l) as [[st1 [e|]]|] eqn:Hn; simpl in H; [| |done].
    + injection H as <- <-. by eapply ResolveImports_node_stdlib.
    + rewrite (IH _ H). by eapply ResolveImports_node_stdlib.
Qed.

(** When the collaborators leave the flag of the node they work on as it
    is, and no test node that is not flagged has an indexed path as its
    identity, [ResolveImports] keeps a flagged node under every path of
    the index. *)
Lemma ResolveImports_node_stdlib_flagged (st st' : State) (l : loc) (oe : option error) :
  (∀ r p, Standard (pkgResolveImports r p).1 = Standard p) →
  (∀ p, Standard (MoveTestFiles p).1 = Standard p) →
  (∀ p t, (MoveTestFiles p).2 = Some t → Standard t = false → stdlib st !! ID t = None) →
  node st l = Ok (st', oe) → stdlib_flagged st → stdlib_flagged st'.
Proof.
  intros Hstep Hsplit Hnew Hn Hinv.
  destruct (heap st !! l) as [pkg|] eqn:Hl;
    [|by rewrite (ResolveImports_node_nil _ _ Hl) in Hn].
  rewrite (ResolveImports_node_eq _ _ _ Hl) in Hn.
  set (pkg1 := (pkgResolveImports (resolve st) pkg).1) in *.
  assert (Standard pkg1 = Standard pkg) as Hstd1 by apply Hstep.
  assert (∀ (q : FlatPackage) (h : gmap loc FlatPackage),
            Standard q = Standard pkg → h !! l = Some q →
            (∀ l'', l'' ≠ l → h !! l'' = heap st !! l'') →
            ∀ k id, stdlib st !! k = Some id →
              ∃ l0 p0, packages st !! k = Some l0 ∧ h !! l0 = Some p0
                       ∧ Standard p0 = true) as Hupd.
  { intros q h Hq Hhl Hother k id Hk.
    destruct (Hinv k id Hk) as (l0 & p0 & [Hk0 Hp0]%lookup_pkg_Some & Hflag).
    destruct (decide (l0 = l)) as [->|Hne].
    - exists l, q. split; [done|]. split; [done|]. congruence.
    - exists l0, p0. by rewrite (Hother _ Hne). }
  destruct ((pkgResolveImports (resolve st) pkg).2) as [e|]; injection Hn as <- <-.
  - intros k id Hk. simpl in Hk.
    destruct (Hupd pkg1 (<[l := pkg1]> (heap st))) with (k := k) (id := id)
      as (l0 & p0 & Hk0 & Hp0 & Hflag);
      [done|apply lookup_insert_eq|by intros; rewrite lookup_insert_ne|done|].
    exists l0, p0. split; [by apply lookup_pkg_Some|done].
  - unfold after_split.
    set (h2 := <[l := (MoveTestFiles pkg1).1]> (<[l := pkg1]> (heap st))).
    assert (∀ k id, stdlib st !! k = Some id →
              ∃ l0 p0, packages st !! k = Some l0 ∧ h2 !! l0 = Some p0
                       ∧ Standard p0 = true) as Hh2.
    { apply (Hupd (MoveTestFiles pkg1).1).
      - by rewrite Hsplit.
      - apply lookup_insert_eq.
      - intros l'' Hne. unfold h2. by rewrite !lookup_insert_ne. }
    destruct ((MoveTestFiles pkg1).2) as [t|] eqn:Ht.
    + pose proof (is_fresh (dom h2)) as Hfresh. set (lt := fresh (dom h2)) in *.
      intros k id Hk. simpl in Hk. destruct (decide (ID t = k)) as [<-|Hne].
      * exists lt, t. split.
        -- apply lookup_pkg_Some. simpl. by rewrite !lookup_insert_eq.
        -- destruct (Standard t) eqn:Hflag; [done|].
           rewrite (Hnew _ _ Ht Hflag) in Hk. done.
      * destruct (Hh2 k id Hk) as (l0 & p0 & Hk0 & Hp0 & Hflag).
        exists l0, p0. split; [|done]. apply lookup_pkg_Some. simpl.
        rewrite lookup_insert_ne by done. split; [done|].
        rewrite lookup_insert_ne; [done|]. intros <-. apply Hfresh.
        apply elem_of_dom. by eexists.
    + intros k id Hk. simpl in Hk.
      destruct (Hh2 k id Hk) as (l0 & p0 & Hk0 & Hp0 & Hflag).
      exists l0, p0. split; [by apply lookup_pkg_Some|done].
Qed.

Lemma ResolveImports_stdlib_flagged (ks : list string) (st st' : State) (oe : option error) :
  (∀ r p, Standard (pkgResolveImports r p).1 = Standard p) →
  (∀ p, Standard (MoveTestFiles p).1 = Standard p) →
  (∀ p t, (MoveTestFiles p).2 = Some t → Standard t = false → stdlib st !! ID t = None) →
  run ks st = Ok (st', oe) → stdlib_flagged st → stdlib_flagged st'.
Proof.
  intros Hstep Hsplit. revert st.
  induction ks as [|k ks IH]; intros st Hnew H Hinv; simpl in H.
  - by injection H as <- <-.
  - destruct (packages st !! k) as [l|]; [|by eapply IH].
    destruct (node st l) as [[st1 [e|]]|] eqn:Hn; simpl in H; [| |done].
    + injection H as <- <-.
      exact (ResolveImports_node_stdlib_flagged _ _ _ _ Hstep Hsplit Hnew Hn Hinv).
    + eapply (IH st1); [|done|].
      * rewrite (ResolveImports_node_stdlib _ _ _ _ Hn). exact Hnew.
      * exact (ResolveImports_node_stdlib_flagged _ _ _ _ Hstep Hsplit Hnew Hn Hinv).
Qed.

(** When the collaborators leave the identity of the node they work on as
    it is, [ResolveImports] keeps every node under its identity: the test
    nodes are stored under theirs. *)
Lemma ResolveImports_node_keyed (st st' : State) (l : loc) (oe : option error) :
  (∀ r p, ID (pkgResolveImports r p).1 = ID p) →
  (∀ p, ID (MoveTestFiles p).1 = ID p) →
  node st l = Ok (st', oe) →
  keyed_by_ID st ∧ no_nil st → keyed_by_ID st' ∧ no_nil st'.
Proof.
  intros Hstep Hsplit Hn [Hkeyed Hnn].
  destruct (heap st !! l) as [pkg|] eqn:Hl;
    [|by rewrite (ResolveImports_node_nil _ _ Hl) in Hn].
  rewrite (ResolveImports_node_eq _ _ _ Hl) in Hn.
  set (pkg1 := (pkgResolveImports (resolve st) pkg).1) in *.
  assert (ID pkg1 = ID pkg) as Hid1 by apply Hstep.
  assert (∀ (q : FlatPackage) (h : gmap loc FlatPackage) k l' p',
            ID q = ID pkg → (∀ l'', l'' ≠ l → h !! l'' = heap st !! l'') →
            h !! l = Some q →
            packages st !! k = Some l' → h !! l' = Some p' → ID p' = k) as Hupd.
  { intros q h k l' p' Hq Hother Hhl Hk Hp'.
    destruct (decide (l' = l)) as [->|Hne].
    - rewrite Hhl in Hp'. injection Hp' as <-. rewrite Hq.
      apply (Hkeyed k l pkg). by apply lookup_pkg_Some.
    - rewrite (Hother _ Hne) in Hp'. apply (Hkeyed k l' p'). by apply lookup_pkg_Some. }
  destruct ((pkgResolveImports (resolve st) pkg).2) as [e|]; injection Hn as <- <-.
  - split.
    + intros k l' p' [Hk Hp']%lookup_pkg_Some. simpl in Hk, Hp'.
      eapply (Hupd pkg1); [done| |apply lookup_insert_eq|done..].
      intros l'' Hne. by rewrite lookup_insert_ne.
    + intros k l' Hk. simpl in *. destruct (decide (l = l')) as [->|Hne].
      * by rewrite lookup_insert_eq.
      * rewrite lookup_insert_ne by done. by eapply Hnn.
  - unfold after_split.
    set (h2 := <[l := (MoveTestFiles pkg1).1]> (<[l := pkg1]> (heap st))).
    assert (∀ l'', l'' ≠ l → h2 !! l'' = heap st !! l'') as Hother.
    { intros l'' Hne. unfold h2. by rewrite !lookup_insert_ne. }
    assert (h2 !! l = Some (MoveTestFiles pkg1).1) as Hh2 by apply lookup_insert_eq.
    assert (ID (MoveTestFiles pkg1).1 = ID pkg) as Hid2 by (by rewrite Hsplit).
    assert (∀ k l', packages st !! k = Some l' → is_Some (h2 !! l')) as Hnn2.
    { intros k l' Hk. destruct (decide (l' = l)) as [->|Hne]; [by rewrite Hh2|].
      rewrite (Hother _ Hne). by eapply Hnn. }
    destruct ((MoveTestFiles pkg1).2) as [t|]; simpl.
    + pose proof (is_fresh (dom h2)) as Hfresh. set (lt := fresh (dom h2)) in *.
      assert (h2 !! lt = None) as Hlt by by apply not_elem_of_dom.
      split.
      * intros k l' p' [Hk Hp']%lookup_pkg_Some. simpl in Hk, Hp'.
        destruct (decide (ID t = k)) as [<-|Hne].
        -- rewrite lookup_insert_eq in Hk. injection Hk as <-.
           rewrite lookup_insert_eq in Hp'. by injection Hp' as <-.
        -- rewrite lookup_insert_ne in Hk by done.
           destruct (Hnn2 _ _ Hk) as [q Hq].
           assert (lt ≠ l') as Hne' by congruence.
           rewrite lookup_insert_ne in Hp' by done.
           by eapply (Hupd _ h2).
      * intros k l' Hk. simpl in *. destruct (decide (ID t = k)) as [<-|Hne].
        -- rewrite lookup_insert_eq in Hk. injection Hk as <-.
           by rewrite lookup_insert_eq.
        -- rewrite lookup_insert_ne in Hk by done.
           destruct (Hnn2 _ _ Hk) as [q Hq].
           assert (lt ≠ l') as Hne' by congruence.
           rewrite lookup_insert_ne by done. eauto.
    + split.
      * intros k l' p' [Hk Hp']%lookup_pkg_Some. simpl in Hk, Hp'.
        by eapply (Hupd _ h2).
      * done.
Qed.

Lemma ResolveImports_keyed (ks : list string) (st st' : State) (oe : option error) :
  (∀ r p, ID (pkgResolveImports r p).1 = ID p) →
  (∀ p, ID (MoveTestFiles p).1 = ID p) →
  run ks st = Ok (st', oe) →
  keyed_by_ID st ∧ no_nil st → keyed_by_ID st' ∧ no_nil st'.
Proof.
  intros Hstep Hsplit. revert st. induction ks as [|k ks IH]; intros st H Hinv; simpl in H.
  - by injection H as <- <-.
  - destruct (packages st !! k) as [l|]; [|by eapply IH].
    destruct (node st l) as [[st1 [e|]]|] eqn:Hn; simpl in H; [| |done].
    + injection H as <- <-. exact (ResolveImports_node_keyed _ _ _ _ Hstep Hsplit Hn Hinv).
    + eapply IH; [done|]. exact (ResolveImports_node_keyed _ _ _ _ Hstep Hsplit Hn Hinv).
Qed.

End ResolveImportsProperties.

(** ** The walker *)

Lemma reach_registered (st : State) (root k : string) :
  reach st root k → is_Some (lookup_pkg st k).
Proof. by destruct 1. Qed.

Lemma reach_source_registered (st : State) (root k : string) :
  reach st root k → is_Some (lookup_pkg st root).
Proof. induction 1; done. Qed.

Lemma reach_trans (st : State) (a b c : string) :
  reach st a b → reach st b c → reach st a c.
Proof.
  intros Hab Hbc. induction Hbc as [|k l p t _ IH Hk Ht Hreg]; [done|].
  by eapply reach_import.
Qed.

Lemma inserted_ids_app (evs1 evs2 : list event) :
  inserted_ids (evs1 ++ evs2) = inserted_ids evs1 ++ inserted_ids evs2.
Proof. apply omap_app. Qed.

Lemma unvisited_mono (st : State) (acc acc' : gmap string loc) :
  acc ⊆ acc' → unvisited st acc' ≤ unvisited st acc.
Proof.
  intros H%subseteq_dom. unfold unvisited. apply subseteq_size. set_solver.
Qed.

Lemma unvisited_insert (st : State) (acc : gmap string loc) (k : string) (l : loc) :
  k ∈ dom (packages st) → k ∉ dom acc →
  unvisited st (<[k := l]> acc) < unvisited st acc.
Proof.
  intros Hk Hacc. unfold unvisited. apply subset_size.
  rewrite dom_insert_L. set_solver.
Qed.

Lemma for_each_mono {S X : Type} (body1 body2 : S → X → option S) (xs : list X) :
  (∀ s x s', body1 s x = Some s' → body2 s x = Some s') →
  ∀ s s', for_each body1 s xs = Some s' → for_each body2 s xs = Some s'.
Proof.
  intros Hb. induction xs as [|x xs IH]; intros s s' H; simpl in *; [done|].
  destruct (body1 s x) as [s1|] eqn:H1; simpl in H; [|done].
  rewrite (Hb _ _ _ H1). simpl. by apply IH.
Qed.

Lemma for_each_cons {S X : Type} (body : S → X → option S) (s s1 : S) (x : X) (xs : list X) :
  body s x = Some s1 → for_each body s (x :: xs) = for_each body s1 xs.
Proof. intros H. simpl. by rewrite H. Qed.

Lemma walk_import_visited rec (acc : gmap string loc) (evs : list event) (t : string) (l : loc) :
  acc !! t = Some l → walk_import rec (acc, evs) t = Some (acc, evs).
Proof. intros H. unfold walk_import. simpl. by rewrite H. Qed.

Lemma walk_import_new rec (acc acc' : gmap string loc) (evs evs' : list event) (t : string) :
  acc !! t = None → rec acc t = Some (acc', evs') →
  walk_import rec (acc, evs) t = Some (acc', evs ++ evs').
Proof. intros H Hrec. unfold walk_import. simpl. by rewrite H, Hrec. Qed.

Lemma for_each_cons_bind {S X : Type} (body : S → X → option S) (s : S) (x : X) (xs : list X) :
  for_each body s (x :: xs) = body s x ≫= λ s', for_each body s' xs.
Proof. done. Qed.

Lemma for_each_app {S X : Type} (body : S → X → option S) (s : S) (xs ys : list X) :
  for_each body s (xs ++ ys) = for_each body s xs ≫= λ s', for_each body s' ys.
Proof.
  revert s. induction xs as [|x xs IH]; intros s; simpl; [done|].
  destruct (body s x) as [s1|]; simpl; [apply IH|done].
Qed.

Section WalkProperties.

Variable range_map : ∀ A : Type, gmap string A → list (string * A).
Hypothesis range_map_perm : ∀ (A : Type) (m : gmap string A), range_map A m ≡ₚ map_to_list m.

Lemma elem_of_range_map {A} (m : gmap string A) (k : string) (x : A) :
  (k, x) ∈ range_map A m ↔ m !! k = Some x.
Proof. rewrite range_map_perm. apply elem_of_map_to_list. Qed.

Lemma elem_of_range_targets (p : FlatPackage) (t : string) :
  t ∈ (range_map _ (Imports p)).*2 ↔ imports_target p t.
Proof.
  rewrite list_elem_of_fmap. unfold imports_target. split.
  - intros ([k t'] & -> & H%elem_of_range_map). by exists k.
  - intros [k Hk]. exists (k, t). split; [done|]. by apply elem_of_range_map.
Qed.

(** More fuel does not change the result of a call that returns. *)
Lemma walk_S (fuel : nat) (st : State) (acc : gmap string loc) (root : string)
    (r : gmap string loc * list event) :
  walk range_map fuel st acc root = Some r → walk range_map (S fuel) st acc root = Some r.
Proof.
  revert acc root r. induction fuel as [|fuel IH]; intros acc root r H; [done|].
  simpl in H. change (walk range_map (S (S fuel)) st acc root)
    with (match lookup_pkg st root with
          | None => Some (acc, [NotFound root])
          | Some (l, pkg) =>
            for_each (walk_import (walk range_map (S fuel) st))
              (<[ID pkg := l]> acc, [Inserted (ID pkg)])
              (range_map _ (Imports pkg)).*2
          end).
  destruct (lookup_pkg st root) as [[l pkg]|]; [|done].
  eapply for_each_mono; [|exact H].
  intros s x s'. unfold walk_import. destruct (s.1 !! x); [done|].
  destruct (walk range_map fuel st s.1 x) as [r1|] eqn:H1; [|done].
  by rewrite (IH _ _ _ H1).
Qed.

Lemma walk_mono (fuel fuel' : nat) (st : State) (acc : gmap string loc) (root : string)
    (r : gmap string loc * list event) :
  fuel ≤ fuel' → walk range_map fuel st acc root = Some r → walk range_map fuel' st acc root = Some r.
Proof. intros Hle Hw. induction Hle; [done|]. by apply walk_S. Qed.

(** The loop over the import targets, for a walker that does what
    [walk_post] says on roots that are not visited yet. *)
Lemma walk_loop (st : State) (n : nat) :
  (∀ acc root, acc ⊆ packages st → root ∉ dom acc → unvisited st acc ≤ n →
     ∃ acc' evs, walk range_map (S n) st acc root = Some (acc', evs)
                 ∧ walk_post st acc root acc' evs) →
  ∀ ts acc evs0, acc ⊆ packages st → unvisited st acc ≤ n →
    ∃ acc' evs,
      for_each (walk_import (walk range_map (S n) st)) (acc, evs0) ts = Some (acc', evs0 ++ evs)
      ∧ loop_post st ts acc acc' evs.
Proof.
  intros Hwalk. induction ts as [|t ts IH]; intros acc evs0 Hacc Hn.
  - exists acc, []. split; [by rewrite app_nil_r|].
    split; simpl; try done.
    + set_solver.
    + constructor.
    + intros id Hid. by apply elem_of_nil in Hid.
    + intros id Hid. by apply elem_of_nil in Hid.
    + intros t Ht. by apply elem_of_nil in Ht.
    + intros id l p t Hid. by apply elem_of_nil in Hid.
  - destruct (acc !! t) as [lt|] eqn:Ht.
    + rewrite (for_each_cons _ _ _ _ _ (walk_import_visited _ _ _ _ _ Ht)).
      destruct (IH acc evs0 Hacc Hn) as (acc' & evs & -> & Hpost).
      exists acc', evs. split; [done|]. destruct Hpost. split; try done.
      * intros id Hid. destruct (lp_reach0 id Hid) as (t' & ? & ?).
        exists t'. split; [by apply list_elem_of_further|done].
      * intros t' [->|Hin]%elem_of_cons Hreg; [|by auto].
        apply (subseteq_dom _ _ lp_grows0), elem_of_dom. eauto.
    + destruct (Hwalk acc t Hacc) as (acc1 & evs1 & Hw & Hpost1);
        [by apply not_elem_of_dom|done|].
      rewrite (for_each_cons _ _ _ _ _ (walk_import_new _ _ _ evs0 _ _ Ht Hw)).
      destruct Hpost1.
      destruct (IH acc1 (evs0 ++ evs1) wp_registry0) as (acc' & evs2 & -> & Hpost2).
      { etrans; [by apply unvisited_mono|done]. }
      destruct Hpost2.
      assert (∀ id, id ∈ inserted_ids evs1 → id ∉ dom acc) as Hnew1.
      { intros id Hid. destruct (wp_new0 id Hid) as [->|]; [|done].
        by apply not_elem_of_dom. }
      exists acc', (evs1 ++ evs2). split; [by rewrite app_assoc|].
      split.
      * by etrans.
      * done.
      * rewrite lp_dom0, wp_dom0, inserted_ids_app, list_to_set_app_L. set_solver.
      * rewrite inserted_ids_app. apply NoDup_app. split; [done|]. split; [|done].
        intros id Hid1 Hid2. apply (lp_new0 id Hid2).
        rewrite wp_dom0. set_solver.
      * rewrite inserted_ids_app. intros id [Hid|Hid]%elem_of_app; [by auto|].
        intros Hin. apply (lp_new0 id Hid). by apply (subseteq_dom _ _ wp_grows0).
      * rewrite inserted_ids_app. intros id [Hid|Hid]%elem_of_app.
        -- exists t. split; [apply list_elem_of_here|by auto].
        -- destruct (lp_reach0 id Hid) as (t' & ? & ?).
           exists t'. split; [by apply list_elem_of_further|done].
      * intros t' [->|Hin]%elem_of_cons Hreg; [|by auto].
        apply (subseteq_dom _ _ lp_grows0). rewrite wp_dom0.
        apply elem_of_union_r, elem_of_list_to_set. auto.
      * rewrite inserted_ids_app. intros id l p t' [Hid|Hid]%elem_of_app Hl Ht' Hreg.
        -- apply (subseteq_dom _ _ lp_grows0). by eapply wp_closed0.
        -- by eapply lp_closed0.
Qed.

Lemma walk_unfold (fuel : nat) (st : State) (acc : gmap string loc) (root : string) :
  walk range_map (S fuel) st acc root =
    match lookup_pkg st root with
    | None => Some (acc, [NotFound root])
    | Some (l, pkg) =>
      for_each (walk_import (walk range_map fuel st))
        (<[ID pkg := l]> acc, [Inserted (ID pkg)])
        (range_map _ (Imports pkg)).*2
    end.
Proof. done. Qed.

Lemma walk_post_not_found (st : State) (acc : gmap string loc) (root : string) :
  acc ⊆ packages st → lookup_pkg st root = None →
  walk_post st acc root acc [NotFound root].
Proof.
  intros Hacc Hroot. split; simpl; try done.
  - set_solver.
  - constructor.
  - intros id Hid. by apply elem_of_nil in Hid.
  - intros id Hid. by apply elem_of_nil in Hid.
  - rewrite Hroot. by intros [? ?].
  - intros id l p t Hid. by apply elem_of_nil in Hid.
Qed.

(** A call on a registered root, given that the calls of the loop do
    what [walk_post] says. *)
Lemma walk_step (st : State) (n : nat) (acc : gmap string loc) (root : string)
    (l : loc) (pkg : FlatPackage) :
  keyed_by_ID st →
  (∀ acc root, acc ⊆ packages st → root ∉ dom acc → unvisited st acc ≤ n →
     ∃ acc' evs, walk range_map (S n) st acc root = Some (acc', evs)
                 ∧ walk_post st acc root acc' evs) →
  lookup_pkg st root = Some (l, pkg) → acc ⊆ packages st →
  unvisited st (<[root := l]> acc) ≤ n →
  ∃ acc' evs, walk range_map (S (S n)) st acc root = Some (acc', evs)
              ∧ walk_post st acc root acc' evs.
Proof.
  intros Hkeyed Hwalk Hroot Hacc Hn.
  pose proof (Hkeyed _ _ _ Hroot) as Hid.
  pose proof Hroot as [Hk Hl]%lookup_pkg_Some.
  assert (acc ⊆ <[root := l]> acc) as Hgrow.
  { apply map_subseteq_spec. intros i x Hi.
    destruct (decide (root = i)) as [<-|Hne]; [|by rewrite lookup_insert_ne].
    rewrite lookup_insert_eq.
    pose proof (lookup_weaken _ _ _ _ Hi Hacc). congruence. }
  assert (<[root := l]> acc ⊆ packages st) as Hacc1 by by apply insert_subseteq_l.
  destruct (walk_loop st n Hwalk (range_map _ (Imports pkg)).*2
              (<[root := l]> acc) [Inserted root] Hacc1 Hn)
    as (acc' & evs & Hloop & Hpost).
  exists acc', ([Inserted root] ++ evs).
  split; [by rewrite walk_unfold, Hroot, Hid|].
  destruct Hpost. rewrite dom_insert_L in *.
  split; cbn [inserted_ids omap app].
  - by etrans.
  - done.
  - rewrite lp_dom0. set_solver.
  - apply NoDup_cons. split; [|done]. intros Hin.
    apply (lp_new0 _ Hin). set_solver.
  - intros id [->|Hin]%elem_of_cons; [by left|]. right.
    intros Hd. apply (lp_new0 _ Hin). set_solver.
  - intros id [->|Hin]%elem_of_cons; [by apply reach_root|].
    destruct (lp_reach0 _ Hin) as (t & Ht%elem_of_range_targets & Hreach).
    eapply reach_trans; [|done].
    eapply reach_import; [by apply reach_root|done..|].
    by eapply reach_source_registered.
  - intros _. apply list_elem_of_here.
  - intros id l' p t [->|Hin]%elem_of_cons Hl' Ht Hreg.
    + rewrite Hroot in Hl'. injection Hl' as <- <-.
      apply lp_targets0; [by apply elem_of_range_targets|done].
    + by eapply lp_closed0.
Qed.

(** A call on a root that is not visited yet returns, with fuel for the
    keys of the registry that are not visited. *)
Lemma walk_fresh_root (st : State) (n : nat) :
  keyed_by_ID st →
  ∀ acc root, acc ⊆ packages st → root ∉ dom acc → unvisited st acc ≤ n →
    ∃ acc' evs, walk range_map (S n) st acc root = Some (acc', evs)
                ∧ walk_post st acc root acc' evs.
Proof.
  intros Hkeyed. induction n as [|n IH]; intros acc root Hacc Hroot Hn.
  - destruct (lookup_pkg st root) as [[l pkg]|] eqn:Hl.
    + exfalso. apply lookup_pkg_Some in Hl as [Hk _].
      assert (root ∈ dom (packages st) ∖ dom acc) as Hin.
      { apply elem_of_difference. split; [|done]. apply elem_of_dom. eauto. }
      unfold unvisited in Hn. apply Nat.le_0_r, size_empty_inv in Hn.
      set_solver.
    + exists acc, [NotFound root]. split; [by rewrite walk_unfold, Hl|].
      by apply walk_post_not_found.
  - destruct (lookup_pkg st root) as [[l pkg]|] eqn:Hl.
    + eapply walk_step; [done..|].
      pose proof Hl as [Hk _]%lookup_pkg_Some.
      assert (root ∈ dom (packages st)) as Hd by (apply elem_of_dom; eauto).
      pose proof (unvisited_insert st acc root l Hd Hroot). lia.
    + exists acc, [NotFound root]. split; [by rewrite walk_unfold, Hl|].
      by apply walk_post_not_found.
Qed.

Lemma unvisited_le (st : State) (acc : gmap string loc) :
  unvisited st acc ≤ size (packages st).
Proof.
  unfold unvisited. rewrite <- size_dom. apply subseteq_size. set_solver.
Qed.

(** Every call of [walk] on a registry whose nodes are stored under their
    identities returns. *)
Lemma walk_returns (st : State) (acc : gmap string loc) (root : string) :
  keyed_by_ID st → acc ⊆ packages st →
  ∃ acc' evs, walk range_map (S (S (size (packages st)))) st acc root = Some (acc', evs)
              ∧ walk_post st acc root acc' evs.
Proof.
  intros Hkeyed Hacc. destruct (lookup_pkg st root) as [[l pkg]|] eqn:Hl.
  - eapply walk_step; [done| |done..|apply unvisited_le].
    by apply walk_fresh_root.
  - exists acc, [NotFound root]. split; [by rewrite walk_unfold, Hl|].
    by apply walk_post_not_found.
Qed.

(** On a registry whose nodes are stored under their identities, with or
    without cycles among the import edges, a call of [walk] on a root
    returns for every fuel above the size of the registry, whatever nodes
    of the registry the visited map holds already, and inserts no node
    twice; with an empty visited map the nodes it inserts are the nodes
    reached from the root, each of them inserted once, and they are the
    keys of the visited map it returns. *)
Lemma walk_terminates_visits_once (st : State) (root : string) :
  keyed_by_ID st →
  (∀ acc, acc ⊆ packages st →
     ∃ acc' evs,
       (∀ fuel, S (S (size (packages st))) ≤ fuel →
          walk range_map fuel st acc root = Some (acc', evs))
       ∧ walk_post st acc root acc' evs)
  ∧ ∃ acc' evs,
      (∀ fuel, S (S (size (packages st))) ≤ fuel →
         walk range_map fuel st ∅ root = Some (acc', evs))
      ∧ NoDup (inserted_ids evs)
      ∧ (∀ id, id ∈ inserted_ids evs ↔ reach st root id)
      ∧ (∀ id, id ∈ dom acc' ↔ reach st root id).
Proof.
  intros Hkeyed.
  assert (∀ acc, acc ⊆ packages st →
     ∃ acc' evs,
       (∀ fuel, S (S (size (packages st))) ≤ fuel →
          walk range_map fuel st acc root = Some (acc', evs))
       ∧ walk_post st acc root acc' evs) as Hany.
  { intros acc Hacc.
    destruct (walk_returns st acc root Hkeyed Hacc) as (acc' & evs & Hw & Hpost).
    exists acc', evs. split; [|done]. intros fuel Hfuel. by eapply walk_mono. }
  split; [exact Hany|].
  destruct (Hany ∅) as (acc' & evs & Hw & Hpost); [apply map_empty_subseteq|].
  destruct Hpost. rewrite dom_empty_L, (left_id_L ∅ (∪)) in wp_dom0.
  assert (∀ id, id ∈ inserted_ids evs ↔ reach st root id) as Hids.
  { intros id. split; [by auto|].
    induction 1 as [|k l p t _ IH Hk Ht Hreg]; [by auto|].
    pose proof (wp_closed0 k l p t IH Hk Ht Hreg) as Hin.
    rewrite wp_dom0 in Hin. by apply elem_of_list_to_set in Hin. }
  exists acc', evs. split; [done|]. split; [done|]. split; [done|].
  intros id. rewrite wp_dom0, elem_of_list_to_set. apply Hids.
Qed.

Lemma walk_root_eq (fuel : nat) (st : State) (acc : gmap string loc)
    (evs : list event) (q : string) :
  walk_root range_map fuel st (acc, evs) q
  = (λ r, (r.1, evs ++ r.2)) <$> walk range_map fuel st acc q.
Proof. unfold walk_root. cbn [fst snd]. by destruct (walk range_map fuel st acc q). Qed.

(** The visited map of the loop over the roots does not depend on the
    events before the loop. *)
Lemma walk_roots_visited (fuel : nat) (st : State) (qs : list string)
    (acc : gmap string loc) (evs evs' : list event) :
  fst <$> for_each (walk_root range_map fuel st) (acc, evs) qs
  = fst <$> for_each (walk_root range_map fuel st) (acc, evs') qs.
Proof.
  revert acc evs evs'. induction qs as [|q qs IH]; intros acc evs evs'; [done|].
  rewrite !for_each_cons_bind, !walk_root_eq.
  destruct (walk range_map fuel st acc q) as [[acc1 evs1]|]; [|done].
  cbn [fmap option_fmap option_map mbind option_bind fst snd]. apply IH.
Qed.

Lemma Query_visited (fuel : nat) (st : State) (qs : list string) :
  Query range_map fuel st qs
  = (λ acc, (qs, (range_map _ acc).*2)) <$> (fst <$> walk_roots range_map fuel st qs).
Proof. unfold Query. by destruct (walk_roots range_map fuel st qs) as [[??]|]. Qed.

(** ** Queries *)

Lemma visited_inv_empty (st : State) : visited_inv st [] ∅.
Proof.
  split.
  - apply map_empty_subseteq.
  - intros id Hid. by rewrite dom_empty_L in Hid.
  - intros root Hroot. by apply elem_of_nil in Hroot.
  - intros id l p t Hid. rewrite dom_empty_L, elements_empty in Hid.
    by apply elem_of_nil in Hid.
Qed.

(** The keys of the visited map are the nodes reached from the roots. *)
Lemma visited_inv_dom (st : State) (qs : list string) (acc : gmap string loc) :
  visited_inv st qs acc →
  ∀ id, id ∈ dom acc ↔ ∃ root, root ∈ qs ∧ reach st root id.
Proof.
  intros [Hreg Hreach Hroots Hclosed] id. split; [by auto|].
  intros (root & Hroot & Hr).
  induction Hr as [|k l p t _ IH Hk Ht Hregt]; [by auto|].
  eapply Hclosed; [|done..]. by apply elem_of_elements.
Qed.

Lemma visited_inv_walk (st : State) (qs : list string) (q : string)
    (acc acc' : gmap string loc) (evs : list event) :
  visited_inv st qs acc → walk_post st acc q acc' evs →
  visited_inv st (qs ++ [q]) acc'.
Proof.
  intros [Hreg Hreach Hroots Hclosed] [].
  assert (∀ id, id ∈ dom acc' ↔ id ∈ dom acc ∨ id ∈ inserted_ids evs) as Hdom.
  { intros id. rewrite wp_dom0, elem_of_union, elem_of_list_to_set. done. }
  split.
  - done.
  - intros id [Hid|Hid]%Hdom.
    + destruct (Hreach id Hid) as (root & ? & ?). exists root.
      split; [|done]. apply elem_of_app. by left.
    + exists q. split; [|by auto]. apply elem_of_app. right. apply list_elem_of_here.
  - intros root [Hin|Hin]%elem_of_app Hr; apply Hdom.
    + left. by auto.
    + apply list_elem_of_singleton in Hin as ->. right. by auto.
  - intros id l p t [Hid|Hid]%elem_of_elements%Hdom Hl Ht Hr.
    + apply (subseteq_dom _ _ wp_grows0).
      eapply Hclosed; [|done..]. by apply elem_of_elements.
    + by eapply wp_closed0.
Qed.

(** The loop over the roots returns, and keeps [visited_inv]. *)
Lemma walk_roots_returns (st : State) (qs : list string) :
  keyed_by_ID st →
  ∀ done acc evs0, visited_inv st done acc →
    ∃ acc' evs,
      (∀ fuel, S (S (size (packages st))) ≤ fuel →
         for_each (walk_root range_map fuel st) (acc, evs0) qs = Some (acc', evs))
      ∧ visited_inv st (done ++ qs) acc'.
Proof.
  intros Hkeyed. induction qs as [|q qs IH]; intros done acc evs0 Hinv.
  - exists acc, evs0. split; [done|]. by rewrite app_nil_r.
  - destruct (walk_returns st acc q Hkeyed (vi_registry _ _ _ Hinv))
      as (acc1 & evs1 & Hw & Hpost).
    destruct (IH (done ++ [q]) acc1 (evs0 ++ evs1)) as (acc' & evs & Hloop & Hinv').
    { by eapply visited_inv_walk. }
    exists acc', evs. split.
    + intros fuel Hfuel.
      rewrite for_each_cons_bind, walk_root_eq, (walk_mono _ _ _ _ _ _ Hfuel Hw).
      by apply Hloop.
    + by rewrite <- app_assoc in Hinv'.
Qed.

(** The nodes of the visited map, as the queries return them. *)
Lemma visited_inv_pkgs (st : State) (qs : list string) (acc : gmap string loc) :
  keyed_by_ID st → visited_inv st qs acc →
  NoDup (range_map _ acc).*2
  ∧ ∀ l, l ∈ (range_map _ acc).*2 ↔
         ∃ root id p, root ∈ qs ∧ reach st root id ∧ lookup_pkg st id = Some (l, p).
Proof.
  intros Hkeyed Hinv.
  assert (∀ id l, acc !! id = Some l →
            ∃ p, lookup_pkg st id = Some (l, p)) as Hnode.
  { intros id l Hid.
    destruct (vi_reach _ _ _ Hinv id) as (root & _ & Hr); [by apply elem_of_dom; eauto|].
    destruct (reach_registered _ _ _ Hr) as [[l' p] Hl].
    pose proof (lookup_weaken _ _ _ _ Hid (vi_registry _ _ _ Hinv)) as Hk.
    pose proof Hl as [Hk' _]%lookup_pkg_Some.
    exists p. congruence. }
  split.
  - rewrite (range_map_perm _ acc). apply NoDup_fmap_2_strong; [|apply NoDup_map_to_list].
    intros [id1 l1] [id2 l2] H1%elem_of_map_to_list H2%elem_of_map_to_list Heq.
    simpl in Heq. subst l2.
    destruct (Hnode _ _ H1) as [p1 Hp1]. destruct (Hnode _ _ H2) as [p2 Hp2].
    pose proof (Hkeyed _ _ _ Hp1) as <-. pose proof (Hkeyed _ _ _ Hp2) as <-.
    apply lookup_pkg_Some in Hp1 as [_ Hp1]. apply lookup_pkg_Some in Hp2 as [_ Hp2].
    do 2 f_equal. congruence.
  - intros l. rewrite list_elem_of_fmap. split.
    + intros ([id l'] & -> & Hid%elem_of_range_map). simpl.
      destruct (Hnode _ _ Hid) as [p Hp].
      destruct (vi_reach _ _ _ Hinv id) as (root & Hroot & Hr);
        [by apply elem_of_dom; eauto|].
      by exists root, id, p.
    + intros (root & id & p & Hroot & Hr & Hl).
      assert (id ∈ dom acc) as [l' Hid]%elem_of_dom
        by (apply (visited_inv_dom _ _ _ Hinv); eauto).
      destruct (Hnode _ _ Hid) as [p' Hp'].
      exists (id, l'). split; [|by apply elem_of_range_map].
      simpl. congruence.
Qed.

(** On a registry whose nodes are stored under their identities, [Query]
    gives back the paths it is given, as they are, and the nodes of the
    visited map after a walk from each of them into one map: the nodes
    reached from one of the paths, each of them once. *)
Lemma Query_reachable (st : State) (queries : list string) :
  keyed_by_ID st →
  ∃ pkgs,
    (∀ fuel, S (S (size (packages st))) ≤ fuel →
       Query range_map fuel st queries = Some (queries, pkgs))
    ∧ NoDup pkgs
    ∧ ∀ l, l ∈ pkgs ↔
           ∃ root id p, root ∈ queries ∧ reach st root id ∧ lookup_pkg st id = Some (l, p).
Proof.
  intros Hkeyed.
  destruct (walk_roots_returns st queries Hkeyed [] ∅ [] (visited_inv_empty st))
    as (acc & evs & Hloop & Hinv).
  rewrite app_nil_l in Hinv.
  destruct (visited_inv_pkgs st queries acc Hkeyed Hinv) as [Hnodup Hpkgs].
  exists (range_map _ acc).*2. split; [|done].
  intros fuel Hfuel. unfold Query, walk_roots. by rewrite (Hloop fuel Hfuel).
Qed.

(** C6: for a root that is not in the registry, [walk] returns with the
    visited map it was given and nothing but the logged error; a query
    with such a root among its roots returns what the query without it
    returns, with the root in the roots it gives back; on a registry whose
    nodes are stored under their identities these are the nodes reached
    from the other roots. *)
Theorem walk_missing_root (st : State) (root : string) :
  lookup_pkg st root = None →
  (∀ fuel acc, walk range_map (S fuel) st acc root = Some (acc, [NotFound root]))
  ∧ (∀ fuel qs1 qs2,
       Query range_map (S fuel) st (qs1 ++ root :: qs2)
       = (λ r, (qs1 ++ root :: qs2, r.2)) <$> Query range_map (S fuel) st (qs1 ++ qs2))
  ∧ (keyed_by_ID st → ∀ qs1 qs2,
       ∃ pkgs,
         (∀ fuel, S (S (size (packages st))) ≤ fuel →
            Query range_map fuel st (qs1 ++ root :: qs2)
            = Some (qs1 ++ root :: qs2, pkgs))
         ∧ ∀ l, l ∈ pkgs ↔
                ∃ r id p, r ∈ qs1 ++ qs2 ∧ reach st r id ∧ lookup_pkg st id = Some (l, p)).
Proof.
  intros Hroot.
  assert (∀ fuel acc, walk range_map (S fuel) st acc root = Some (acc, [NotFound root]))
    as Hwalk by (intros; by rewrite walk_unfold, Hroot).
  split; [done|]. split.
  - intros fuel qs1 qs2.
    rewrite !Query_visited. unfold walk_roots. rewrite !for_each_app.
    destruct (for_each (walk_root range_map (S fuel) st) (∅, []) qs1) as [[acc1 evs1]|];
      [|done].
    cbn [mbind option_bind]. rewrite for_each_cons_bind, walk_root_eq, Hwalk.
    cbn [fmap option_fmap option_map mbind option_bind fst snd].
    rewrite (walk_roots_visited _ _ qs2 acc1 _ evs1).
    by destruct (for_each (walk_root range_map (S fuel) st) (acc1, evs1) qs2) as [[??]|].
  - intros Hkeyed qs1 qs2.
    destruct (walk_roots_returns st (qs1 ++ root :: qs2) Hkeyed [] ∅ []
                (visited_inv_empty st)) as (acc & evs & Hloop & Hinv).
    rewrite app_nil_l in Hinv.
    destruct (visited_inv_pkgs st _ acc Hkeyed Hinv) as [_ Hpkgs].
    exists (range_map _ acc).*2. split.
    + intros fuel Hfuel. unfold Query, walk_roots. by rewrite (Hloop fuel Hfuel).
    + intros l. rewrite Hpkgs. split.
      * intros (r & id & p & Hr & Hreach & Hl). exists r, id, p. split; [|done].
        apply elem_of_app in Hr as [Hr|[->|Hr]%elem_of_cons]; apply elem_of_app; auto.
        apply reach_source_registered in Hreach as [? Hsome]. congruence.
      * intros (r & id & p & Hr & Hrest). exists r, id, p. split; [|done].
        apply elem_of_app in Hr as [Hr|Hr]; apply elem_of_app; [by left|].
        right. by apply list_elem_of_further.
Qed.

(** ** Matching labels *)

Variable RulesGoStdlibLabel : string.

Lemma anchor_label_anchored (label : string) :
  (∃ rest, label = "@" +:+ rest) → anchor_label label = label.
Proof. intros H%HasPrefix_true. unfold anchor_label. by rewrite H. Qed.

Lemma anchor_label_bare (label : string) :
  (¬ ∃ rest, label = "@" +:+ rest) → anchor_label label = "@" +:+ label.
Proof. intros H%HasPrefix_false. unfold anchor_label. by rewrite H. Qed.

Lemma Match_stdlib_loop (st : State) (kls : list (string * loc)) :
  (∀ kl, kl ∈ kls → is_Some (heap st !! kl.2)) →
  ∀ roots : gmap string (),
    ∃ roots',
      for_each_r
        (λ roots (kl : string * loc),
           pkg ←r of_option (heap st !! kl.2);
           Ok (if Standard pkg then <[ID pkg := ()]> roots else roots))
        roots kls = Ok roots'
      ∧ ∀ r, r ∈ dom roots' ↔
             r ∈ dom roots
             ∨ ∃ kl p, kl ∈ kls ∧ heap st !! kl.2 = Some p ∧ Standard p = true ∧ r = ID p.
Proof.
  induction kls as [|kl kls IH]; intros Hheap roots.
  - exists roots. split; [done|]. intros r. split; [by left|].
    intros [?|(kl & p & Hin & _)]; [done|]. by apply elem_of_nil in Hin.
  - destruct (Hheap kl) as [p Hp]; [apply list_elem_of_here|].
    cbn [for_each_r]. rewrite Hp. cbn [of_option rbind].
    destruct (IH (λ kl' H, Hheap kl' (list_elem_of_further _ _ _ H))
                (if Standard p then <[ID p := ()]> roots else roots))
      as (roots' & -> & Hdom).
    exists roots'. split; [done|]. intros r. rewrite Hdom. split.
    + intros [Hr|(kl' & p' & Hin & Hrest)].
      * destruct (Standard p) eqn:Hstd; [|by left].
        rewrite dom_insert_L in Hr. apply elem_of_union in Hr as [->%elem_of_singleton|?];
          [|by left].
        right. exists kl, p. split; [apply list_elem_of_here|done].
      * right. exists kl', p'. split; [by apply list_elem_of_further|done].
    + intros [Hr|(kl' & p' & [->|Hin]%elem_of_cons & Hp' & Hstd & ->)].
      * left. destruct (Standard p); [|done]. rewrite dom_insert_L. set_solver.
      * left. rewrite Hp in Hp'. injection Hp' as <-. rewrite Hstd, dom_insert_L.
        set_solver.
      * right. by exists kl', p'.
Qed.

(** For the standard-library root label, the identities of the flagged
    nodes of the registry become roots. *)
Lemma Match_stdlib_spec (st : State) (roots : gmap string ()) :
  no_nil st →
  ∃ roots',
    Match_stdlib range_map st roots = Ok roots'
    ∧ ∀ r, r ∈ dom roots' ↔
           r ∈ dom roots
           ∨ ∃ k l p, lookup_pkg st k = Some (l, p) ∧ Standard p = true ∧ r = ID p.
Proof.
  intros Hnn.
  destruct (Match_stdlib_loop st (range_map _ (packages st))) with (roots := roots)
    as (roots' & Hloop & Hdom).
  { intros [k l] Hkl%elem_of_range_map. by eapply Hnn. }
  exists roots'. split; [done|]. intros r. rewrite Hdom.
  split; (intros [?|Hr]; [by left|right]).
  - destruct Hr as ([k l] & p & Hkl%elem_of_range_map & Hp & Hstd & ->).
    exists k, l, p. split; [by apply lookup_pkg_Some|done].
  - destruct Hr as (k & l & p & [Hk Hp]%lookup_pkg_Some & Hstd & ->).
    exists (k, l), p. split; [by apply elem_of_range_map|done].
Qed.

Lemma Match_label_spec (st : State) (roots : gmap string ()) (label : string) :
  no_nil st →
  ∃ roots',
    Match_label range_map RulesGoStdlibLabel st roots label = Ok roots'
    ∧ ∀ r, r ∈ dom roots' ↔
           r ∈ dom roots ∨ root_of_label RulesGoStdlibLabel st (anchor_label label) r.
Proof.
  intros Hnn. unfold Match_label, root_of_label.
  destruct (decide (anchor_label label = RulesGoStdlibLabel)) as [Heq|Hne].
  - by apply Match_stdlib_spec.
  - destruct (packages st !! (anchor_label label +:+ "_xtest")) as [l|] eqn:Hx.
    + eexists. split; [done|]. intros r. rewrite !dom_insert_L.
      rewrite !elem_of_union, !elem_of_singleton. split.
      * intros [->|[->|?]]; [|by auto..]. right. right. split; [done|]. by rewrite Hx.
      * intros [?|[->|[-> _]]]; auto.
    + eexists. split; [done|]. intros r. rewrite !dom_insert_L.
      rewrite !elem_of_union, !elem_of_singleton. split.
      * intros [->|?]; auto.
      * intros [?|[->|[-> Hsome]]]; [by auto..|].
        rewrite Hx in Hsome. by destruct Hsome.
Qed.

Lemma Match_roots_from (st : State) (labels : list string) :
  no_nil st →
  ∀ roots : gmap string (),
    ∃ roots',
      for_each_r (Match_label range_map RulesGoStdlibLabel st) roots labels = Ok roots'
      ∧ ∀ r, r ∈ dom roots' ↔
             r ∈ dom roots
             ∨ ∃ label, label ∈ labels
                 ∧ root_of_label RulesGoStdlibLabel st (anchor_label label) r.
Proof.
  intros Hnn. induction labels as [|label labels IH]; intros roots.
  - exists roots. split; [done|]. intros r. split; [by left|].
    intros [?|(label & Hin & _)]; [done|]. by apply elem_of_nil in Hin.
  - destruct (Match_label_spec st roots label Hnn) as (roots1 & H1 & Hdom1).
    destruct (IH roots1) as (roots' & H' & Hdom').
    exists roots'. split; [cbn [for_each_r]; by rewrite H1|].
    intros r. rewrite Hdom', Hdom1. split.
    + intros [[?|?]|(label' & ? & ?)]; [by left| |].
      * right. exists label. split; [apply list_elem_of_here|done].
      * right. exists label'. split; [by apply list_elem_of_further|done].
    + intros [?|(label' & [->|?]%elem_of_cons & ?)]; [by auto..|].
      right. by exists label'.
Qed.


End WalkProperties.

(** ** Registries built by [NewPackageRegistry] *)

Lemma Add_one_no_nil (st st' : State) (pkg : loc) :
  Add_one st pkg = Ok st' → no_nil st → no_nil st'.
Proof.
  intros (p0 & Hp0 & ->)%Add_one_inv Hnn k l Hk. simpl in *.
  destruct (decide (PkgPath p0 = k)) as [<-|Hne].
  - rewrite lookup_insert_eq in Hk. injection Hk as <-. by rewrite lookup_insert_eq.
  - rewrite lookup_insert_ne in Hk by done.
    destruct (decide (pkg = l)) as [->|Hl]; [by rewrite lookup_insert_eq|].
    rewrite lookup_insert_ne by done. by eapply Hnn.
Qed.

Lemma Add_no_nil (st st' : State) (pkgs : list loc) :
  Add st pkgs = Ok st' → no_nil st → no_nil st'.
Proof.
  revert st. induction pkgs as [|pkg pkgs IH]; intros st H Hnn; simpl in H.
  - by injection H as <-.
  - destruct (Add_one st pkg) as [st1|] eqn:H1; simpl in H; [|done].
    eapply IH; [done|]. by eapply Add_one_no_nil.
Qed.

(** A registry that [NewPackageRegistry] returns has every node under its
    logical path, which is its identity, and no nil pointer. *)
Lemma NewPackageRegistry_canonical (h : gmap loc FlatPackage) (pkgs : list loc) (st : State) :
  NewPackageRegistry h pkgs = Ok st → canonical st ∧ keyed_by_ID st ∧ no_nil st.
Proof.
  intros H. assert (canonical st) as Hcan.
  { eapply Add_canonical; [exact H|]. intros k l p [Hk _]%lookup_pkg_Some.
    simpl in Hk. by rewrite lookup_empty in Hk. }
  split; [done|]. split; [by apply canonical_keyed|].
  eapply Add_no_nil; [exact H|]. intros k l Hk. simpl in Hk.
  by rewrite lookup_empty in Hk.
Qed.

Example NewPackageRegistry_cyc :
  NewPackageRegistry Examples.cyc_heap [1%positive; 2%positive] = Ok Examples.cyc_st.
Proof. reflexivity. Qed.

Example NewPackageRegistry_label :
  NewPackageRegistry Examples.label_heap [1%positive; 2%positive; 3%positive]
  = Ok Examples.label_st.
Proof. reflexivity. Qed.

(** The walk over the two nodes that import each other. *)
Example walk_cycle :
  walk Examples.range_fixed 3 Examples.cyc_st ∅ "A"
  = Some ({[ "A" := 1%positive; "B" := 2%positive ]}, [Inserted "A"; Inserted "B"]).
Proof. reflexivity. Qed.

(** Without the identity under the key, the walker does not see that it
    has been at the node: on the registry in which [Update] has stored a
    node under a key that is not its identity, no fuel is enough. *)
Lemma walk_revisits_node_of_Update (fuel : nat) :
  Update (mkState {[ 1%positive := Examples.loop_pkg ]} ∅ ∅) 1%positive = Ok Examples.loop_st
  ∧ walk Examples.range_fixed fuel Examples.loop_st ∅ "A" = None.
Proof.
  split; [reflexivity|].
  assert (∀ acc : gmap string loc, acc !! "A" = None →
            walk Examples.range_fixed fuel Examples.loop_st acc "A" = None) as Hloop.
  { induction fuel as [|fuel IH]; intros acc Hacc; [done|].
    change (walk Examples.range_fixed (S fuel) Examples.loop_st acc "A")
      with (for_each (walk_import (walk Examples.range_fixed fuel Examples.loop_st))
              (<["@//a:lib" := 1%positive]> acc, [Inserted "@//a:lib"]) ["A"]).
    cbn [for_each]. unfold walk_import. cbn [fst snd].
    rewrite lookup_insert_ne by done. rewrite Hacc.
    rewrite IH; [done|]. by rewrite lookup_insert_ne. }
  by apply Hloop.
Qed.

(** ** The walker and the queries after [Update] *)

Section UpdateBuilt.

Variable range_map : ∀ A : Type, gmap string A → list (string * A).
Hypothesis range_map_perm : ∀ (A : Type) (m : gmap string A), range_map A m ≡ₚ map_to_list m.

Lemma range_map_empty (A : Type) : range_map A ∅ = [].
Proof.
  apply Permutation_nil_r. rewrite (range_map_perm A ∅). by rewrite map_to_list_empty.
Qed.

Lemma range_map_singleton (A : Type) (k : string) (x : A) :
  range_map A {[ k := x ]} = [(k, x)].
Proof.
  apply Permutation_singleton_r. rewrite (range_map_perm A {[ k := x ]}).
  by rewrite map_to_list_singleton.
Qed.

(** The two nodes that import each other, registered by [Update]: the
    walker does not find the logical paths in its visited map, which holds
    the labels, and goes round. *)
Lemma walk_Update_cycle (fuel : nat) (acc : gmap string loc) :
  acc !! "A" = None → acc !! "B" = None →
  walk range_map fuel MoreExamples.upd_cyc_st acc "A" = None
  ∧ walk range_map fuel MoreExamples.upd_cyc_st acc "B" = None.
Proof.
  revert acc. induction fuel as [|fuel IH]; intros acc HA HB; [done|].
  rewrite !walk_unfold.
  change (lookup_pkg MoreExamples.upd_cyc_st "A")
    with (Some (1%positive, mkFlatPackage "@//a:lib" "A" ["a.go"] {[ "B" := "B" ]} false)).
  change (lookup_pkg MoreExamples.upd_cyc_st "B")
    with (Some (2%positive, mkFlatPackage "@//b:lib" "B" ["b.go"] {[ "A" := "A" ]} false)).
  cbn [ID Imports]. rewrite !range_map_singleton. cbn [fmap list_fmap snd for_each].
  unfold walk_import. cbn [fst snd]. rewrite !lookup_insert_ne by done. rewrite HA, HB.
  destruct (IH (<["@//a:lib" := 1%positive]> acc)) as [_ ->];
    [by rewrite lookup_insert_ne..|].
  destruct (IH (<["@//b:lib" := 2%positive]> acc)) as [-> _];
    [by rewrite lookup_insert_ne..|].
  done.
Qed.

(** C5: on the two nodes that import each other, registered by [Update],
    a call of [walk] on a root does not return, whatever the fuel; on a
    registry whose nodes are stored under their identities, as [Add]
    leaves them, with or without cycles among the import edges, a call of
    [walk] on a root returns for every fuel above the size of the
    registry, whatever nodes of the registry the visited map holds
    already, and inserts no node twice; with an empty visited map the
    nodes it inserts are the nodes reached from the root, each of them
    inserted once, and they are the keys of the visited map it returns. *)
Theorem walk_cycle_behaviour :
  (st1 ←r Update (mkState MoreExamples.upd_cyc_heap ∅ ∅) 1%positive; Update st1 2%positive)
  = Ok MoreExamples.upd_cyc_st
  ∧ (∀ fuel, walk range_map fuel MoreExamples.upd_cyc_st ∅ "A" = None)
  ∧ ∀ st root,
      keyed_by_ID st →
      (∀ acc, acc ⊆ packages st →
         ∃ acc' evs,
           (∀ fuel, S (S (size (packages st))) ≤ fuel →
              walk range_map fuel st acc root = Some (acc', evs))
           ∧ walk_post st acc root acc' evs)
      ∧ ∃ acc' evs,
          (∀ fuel, S (S (size (packages st))) ≤ fuel →
             walk range_map fuel st ∅ root = Some (acc', evs))
          ∧ NoDup (inserted_ids evs)
          ∧ (∀ id, id ∈ inserted_ids evs ↔ reach st root id)
          ∧ (∀ id, id ∈ dom acc' ↔ reach st root id).
Proof.
  split; [reflexivity|]. split.
  - intros fuel. by apply walk_Update_cycle.
  - intros st root. exact (walk_terminates_visits_once range_map range_map_perm st root).
Qed.

(** The walks of a query over the two nodes with one identity. *)
Lemma walk_roots_same_id (fuel : nat) (k1 k2 : string) (l1 l2 : loc) (p1 p2 : FlatPackage) :
  lookup_pkg MoreExamples.same_id_st k1 = Some (l1, p1) →
  lookup_pkg MoreExamples.same_id_st k2 = Some (l2, p2) →
  Imports p1 = ∅ → Imports p2 = ∅ → ID p1 = ID p2 →
  Query range_map (S fuel) MoreExamples.same_id_st [k1; k2] = Some ([k1; k2], [l2]).
Proof.
  intros H1 H2 HI1 HI2 Hid. unfold Query, walk_roots. cbn [for_each].
  rewrite walk_root_eq, walk_unfold, H1, HI1, range_map_empty.
  cbn [fmap list_fmap for_each option_fmap option_map mbind option_bind fst snd].
  rewrite walk_root_eq, walk_unfold, H2, HI2, range_map_empty.
  cbn [fmap list_fmap for_each option_fmap option_map mbind option_bind fst snd].
  rewrite Hid, insert_insert_eq, insert_empty, range_map_singleton. done.
Qed.

(** C7: on the two nodes with one identity, registered by [Update] under
    their two logical paths, [Query] with both paths returns one node, the
    node of the path that comes last, although each path is registered and
    reaches its node; on the two nodes that import each other, registered
    by [Update], [Query] does not return. On a registry whose nodes are
    stored under their identities, as [Add] leaves them, [Query] gives back
    the paths it is given, as they are, and the nodes of the visited map
    after a walk from each of them into one map: the nodes reached from
    one of the paths, each of them once. *)
Theorem Query_behaviour :
  (st1 ←r Update (mkState MoreExamples.same_id_heap ∅ ∅) 1%positive; Update st1 2%positive)
  = Ok MoreExamples.same_id_st
  ∧ reach MoreExamples.same_id_st "example.com/p1" "example.com/p1"
  ∧ reach MoreExamples.same_id_st "example.com/p2" "example.com/p2"
  ∧ (∀ fuel,
       Query range_map (S fuel) MoreExamples.same_id_st ["example.com/p1"; "example.com/p2"]
       = Some (["example.com/p1"; "example.com/p2"], [2%positive])
       ∧ Query range_map (S fuel) MoreExamples.same_id_st ["example.com/p2"; "example.com/p1"]
         = Some (["example.com/p2"; "example.com/p1"], [1%positive]))
  ∧ (∀ fuel, Query range_map fuel MoreExamples.upd_cyc_st ["A"] = None)
  ∧ ∀ st queries,
      keyed_by_ID st →
      ∃ pkgs,
        (∀ fuel, S (S (size (packages st))) ≤ fuel →
           Query range_map fuel st queries = Some (queries, pkgs))
        ∧ NoDup pkgs
        ∧ ∀ l, l ∈ pkgs ↔
               ∃ root id p, root ∈ queries ∧ reach st root id ∧ lookup_pkg st id = Some (l, p).
Proof.
  split; [reflexivity|].
  split; [apply reach_root; by eexists|]. split; [apply reach_root; by eexists|].
  split; [|split].
  - intros fuel. split; by eapply walk_roots_same_id.
  - intros fuel. unfold Query, walk_roots. cbn [for_each].
    rewrite walk_root_eq. by destruct (walk_Update_cycle fuel ∅) as [-> _].
  - intros st queries. exact (Query_reachable range_map range_map_perm st queries).
Qed.

End UpdateBuilt.

(** ** The index after the operations *)



(** ** The properties on the examples *)


Lemma canonicalizeId_cases_witness :
  canonicalizeId "example.com/foo" "@@io_bazel_rules_go//stdlib:fmt" Examples.raw_pkg = "fmt"
  ∧ canonicalizeId "os" "@//go:os" Examples.fmt_std = "@//go:os"
  ∧ canonicalizeId "example.com/foo" "X" Examples.raw_pkg = "example.com/foo".
Proof.
  split; [|split].
  - exact (proj1 (canonicalizeId_cases "example.com/foo"
                    "@@io_bazel_rules_go//stdlib:fmt" Examples.raw_pkg) "fmt" eq_refl).
  - apply (proj1 (proj2 (canonicalizeId_cases "os" "@//go:os" Examples.fmt_std))).
    + intros [rest H]. discriminate H.
    + reflexivity.
  - apply (proj2 (proj2 (canonicalizeId_cases "example.com/foo" "X" Examples.raw_pkg))).
    + intros [rest H]. discriminate H.
    + reflexivity.
Defined.

Lemma walk_cycle_behaviour_witness :
  (∀ fuel, walk Examples.range_fixed fuel MoreExamples.upd_cyc_st ∅ "A" = None)
  ∧ keyed_by_ID Examples.cyc_st
  ∧ reach Examples.cyc_st "A" "B" ∧ reach Examples.cyc_st "B" "A"
  ∧ ∃ acc' evs,
      (∀ fuel, S (S (size (packages Examples.cyc_st))) ≤ fuel →
         walk Examples.range_fixed fuel Examples.cyc_st ∅ "A" = Some (acc', evs))
      ∧ NoDup (inserted_ids evs)
      ∧ (∀ id, id ∈ inserted_ids evs ↔ reach Examples.cyc_st "A" id)
      ∧ (∀ id, id ∈ dom acc' ↔ reach Examples.cyc_st "A" id).
Proof.
  destruct (walk_cycle_behaviour Examples.range_fixed (λ A m, reflexivity _))
    as (_ & Hloop & Hkeyed_walk).
  assert (keyed_by_ID Examples.cyc_st) as Hkeyed.
  { eapply NewPackageRegistry_canonical. exact NewPackageRegistry_cyc. }
  split; [exact Hloop|]. split; [exact Hkeyed|]. split; [|split].
  - eapply (reach_import _ _ "A"); [apply reach_root; by eexists|reflexivity| |by eexists].
    by exists "B".
  - eapply (reach_import _ _ "B"); [apply reach_root; by eexists|reflexivity| |by eexists].
    by exists "A".
  - exact (proj2 (Hkeyed_walk Examples.cyc_st "A" Hkeyed)).
Defined.

Lemma walk_missing_root_witness :
  lookup_pkg Examples.cyc_st "fmt" = None
  ∧ walk Examples.range_fixed 1 Examples.cyc_st {[ "A" := 1%positive ]} "fmt"
    = Some ({[ "A" := 1%positive ]}, [NotFound "fmt"])
  ∧ Query Examples.range_fixed 3 Examples.cyc_st ["fmt"; "A"]
    = Some (["fmt"; "A"], [1%positive; 2%positive])
  ∧ ∃ pkgs,
      (∀ fuel, S (S (size (packages Examples.cyc_st))) ≤ fuel →
         Query Examples.range_fixed fuel Examples.cyc_st ([] ++ "fmt" :: ["A"])
         = Some ([] ++ "fmt" :: ["A"], pkgs))
      ∧ ∀ l, l ∈ pkgs ↔
             ∃ r id p, r ∈ [] ++ ["A"] ∧ reach Examples.cyc_st r id
                       ∧ lookup_pkg Examples.cyc_st id = Some (l, p).
Proof.
  destruct (walk_missing_root Examples.range_fixed (λ A m, reflexivity _)
              Examples.cyc_st "fmt" eq_refl) as (Hwalk & HQuery & Hreach).
  split; [reflexivity|]. split; [apply Hwalk|]. split.
  - etrans; [exact (HQuery 2 [] ["A"])|reflexivity].
  - apply Hreach. eapply NewPackageRegistry_canonical. exact NewPackageRegistry_cyc.
Defined.

Lemma Query_behaviour_witness :
  Query Examples.range_fixed 1 MoreExamples.same_id_st ["example.com/p1"; "example.com/p2"]
  = Some (["example.com/p1"; "example.com/p2"], [2%positive])
  ∧ keyed_by_ID Examples.cyc_st
  ∧ ∃ pkgs,
      (∀ fuel, S (S (size (packages Examples.cyc_st))) ≤ fuel →
         Query Examples.range_fixed fuel Examples.cyc_st ["B"; "fmt"; "A"]
         = Some (["B"; "fmt"; "A"], pkgs))
      ∧ NoDup pkgs
      ∧ ∀ l, l ∈ pkgs ↔
             ∃ root id p, root ∈ ["B"; "fmt"; "A"] ∧ reach Examples.cyc_st root id
                          ∧ lookup_pkg Examples.cyc_st id = Some (l, p).
Proof.
  destruct (Query_behaviour Examples.range_fixed (λ A m, reflexivity _))
    as (_ & _ & _ & Hsame & _ & Hkeyed_query).
  assert (keyed_by_ID Examples.cyc_st) as Hkeyed.
  { eapply NewPackageRegistry_canonical. exact NewPackageRegistry_cyc. }
  split; [exact (proj1 (Hsame 0))|]. split; [exact Hkeyed|].
  exact (Hkeyed_query Examples.cyc_st ["B"; "fmt"; "A"] Hkeyed).
Defined.

Example Match_example :
  Match Examples.range_fixed "@io_bazel_rules_go//:stdlib" 5 Examples.label_st
        ["//pkg:lib"; "@io_bazel_rules_go//:stdlib"]
  = Ok (Some (["fmt"; "@//pkg:lib_xtest"; "@//pkg:lib"],
              [3%positive; 2%positive; 1%positive])).
Proof. vm_compute. reflexivity. Qed.


(** With the example collaborators: the range reaches the node without
    files second, the step fails there, and the third node is left as it
    was; in the other order the test node of ["a"] is in the registry
    under its identity before the failure. *)
Example ResolveImports_example :
  ResolveImports string Examples.step_fmt Examples.split_testing ["fmt"; "b"; "a"]
    Examples.resolve_st
  = Ok (mkState (<[1%positive := mkFlatPackage "fmt" "fmt" ["print.go"] {[ "fmt" := "fmt" ]} true]>
                   (heap Examples.resolve_st))
                (packages Examples.resolve_st) (stdlib Examples.resolve_st),
        Some "no source files")
  ∧ ∃ st', ResolveImports string Examples.step_fmt Examples.split_testing ["a"; "b"]
             Examples.resolve_st = Ok (st', Some "no source files")
           ∧ lookup_pkg st' "a_xtest"
             = Some (4%positive, mkFlatPackage "a_xtest" "a_test" [] ∅ false).
Proof.
  split; [vm_compute; reflexivity|]. eexists. split; vm_compute; reflexivity.
Qed.

(** * Further properties *)

(** ** The superset test as an order *)

Lemma isSuperset_true_iff (a b : list string) :
  isSuperset a b = Ok true ↔ b ≠ [] ∧ b `sublist_of` a.
Proof.
  split.
  - intros H. destruct b as [|x b].
    + by destruct a.
    + split; [done|].
      destruct (isSuperset_nonempty a (x :: b)) as (r & Hr & Hiff); [done|].
      rewrite H in Hr. injection Hr as <-. by apply Hiff.
  - intros [Hb Hsub]. destruct (isSuperset_nonempty a b Hb) as (r & -> & Hiff).
    f_equal. by apply Hiff.
Qed.

(** X1: on non-empty lists the superset test is an order: a list is a
    superset of itself, a superset of a superset is a superset, and two
    lists that are supersets of each other are equal; a list that is found
    to be a superset is at least as long and holds every element of the
    other. *)
Theorem isSuperset_order :
  (∀ a, a ≠ [] → isSuperset a a = Ok true)
  ∧ (∀ a b c, isSuperset a b = Ok true → isSuperset b c = Ok true →
       isSuperset a c = Ok true)
  ∧ (∀ a b, isSuperset a b = Ok true → isSuperset b a = Ok true → a = b)
  ∧ (∀ a b, isSuperset a b = Ok true →
       length b ≤ length a ∧ ∀ x, x ∈ b → x ∈ a).
Proof.
  split; [|split; [|split]].
  - intros a Ha. by apply isSuperset_true_iff.
  - intros a b c [_ Hab]%isSuperset_true_iff [Hc Hbc]%isSuperset_true_iff.
    apply isSuperset_true_iff. split; [done|]. by etrans.
  - intros a b [_ Hba]%isSuperset_true_iff [_ Hab]%isSuperset_true_iff.
    by apply (anti_symm sublist).
  - intros a b [_ Hba]%isSuperset_true_iff. split; [by apply sublist_length|].
    intros x Hx. by eapply elem_of_sublist.
Qed.

(** ** Update, again *)

Lemma set_GoFiles_same (p : FlatPackage) : set_GoFiles (GoFiles p) p = p.
Proof. by destruct p. Qed.

Lemma isSuperset_self (a : list string) :
  ∃ r, isSuperset a a = Ok r.
Proof.
  destruct a as [|x a]; [by exists false|].
  destruct (isSuperset_nonempty (x :: a) (x :: a)) as (r & Hr & _); [done|]. eauto.
Qed.

(** An [Update] with a node that is the registered node of its path
    changes nothing. *)
Lemma Update_registered_self (st : State) (pkg : loc) (p : FlatPackage) :
  heap st !! pkg = Some p → packages st !! PkgPath p = Some pkg →
  Update st pkg = Ok st.
Proof.
  intros Hp Hk. rewrite (Update_existing _ _ _ _ _ Hp Hk Hp).
  destruct (isSuperset_self (GoFiles p)) as [[] ->]; simpl; [|done].
  rewrite set_GoFiles_same, insert_id by done. by destruct st.
Qed.

(** X2: [Update] is idempotent: a second [Update] with the same node,
    right after one that has returned, leaves the state as it is. *)
Theorem Update_idempotent (st st' : State) (pkg : loc) :
  Update st pkg = Ok st' → Update st' pkg = Ok st'.
Proof.
  intros HU. destruct (heap st !! pkg) as [p|] eqn:Hp;
    [|by unfold Update in HU; rewrite Hp in HU].
  destruct (packages st !! PkgPath p) as [ex|] eqn:Hk.
  - destruct (heap st !! ex) as [e|] eqn:He;
      [|by unfold Update in HU; rewrite Hp in HU; simpl in HU; rewrite Hk, He in HU].
    rewrite (Update_existing _ _ _ _ _ Hp Hk He) in HU.
    destruct (isSuperset (GoFiles p) (GoFiles e)) as [[]|] eqn:Hsup; simpl in HU;
      [| |done]; injection HU as <-.
    + apply isSuperset_true_iff in Hsup as [Hne Hsub].
      assert (GoFiles p ≠ []) as Hpne.
      { intros Hnil. rewrite Hnil in Hsub. by apply sublist_nil_r in Hsub. }
      destruct (decide (ex = pkg)) as [->|Hex].
      * rewrite Hp in He. injection He as <-.
        rewrite set_GoFiles_same, insert_id by done.
        replace (set_heap (heap st) st) with st by by destruct st.
        by apply (Update_registered_self _ _ p).
      * rewrite (Update_existing _ pkg ex p (set_GoFiles (GoFiles p) e)); simpl.
        -- assert (isSuperset (GoFiles p) (GoFiles p) = Ok true) as ->
             by by apply isSuperset_true_iff.
           simpl. by rewrite insert_insert_eq.
        -- by rewrite lookup_insert_ne.
        -- done.
        -- by rewrite lookup_insert_eq.
    + rewrite (Update_existing _ _ _ _ _ Hp Hk He), Hsup. done.
  - rewrite (Update_new _ _ _ Hp Hk) in HU. injection HU as <-.
    apply (Update_registered_self _ _ p); simpl; [done|by rewrite lookup_insert_eq].
Qed.

(** X3: an [Update] that returns removes no file from any node: the files
    a node had are a subsequence of the files it has afterwards, and its
    other fields are what they were. *)
Theorem Update_keeps_files (st st' : State) (pkg l : loc) (q : FlatPackage) :
  Update st pkg = Ok st' → heap st !! l = Some q →
  ∃ q', heap st' !! l = Some q'
        ∧ GoFiles q `sublist_of` GoFiles q'
        ∧ ID q' = ID q ∧ PkgPath q' = PkgPath q
        ∧ Imports q' = Imports q ∧ Standard q' = Standard q.
Proof.
  intros HU Hq. destruct (heap st !! pkg) as [p|] eqn:Hp;
    [|by unfold Update in HU; rewrite Hp in HU].
  destruct (packages st !! PkgPath p) as [ex|] eqn:Hk.
  - destruct (heap st !! ex) as [e|] eqn:He;
      [|by unfold Update in HU; rewrite Hp in HU; simpl in HU; rewrite Hk, He in HU].
    rewrite (Update_existing _ _ _ _ _ Hp Hk He) in HU.
    destruct (isSuperset (GoFiles p) (GoFiles e)) as [[]|] eqn:Hsup; simpl in HU;
      [| |done]; injection HU as <-.
    + apply isSuperset_true_iff in Hsup as [_ Hsub]. simpl.
      destruct (decide (ex = l)) as [->|Hne].
      * rewrite lookup_insert_eq. rewrite He in Hq. injection Hq as <-.
        eexists. split; [done|]. by simpl.
      * rewrite lookup_insert_ne by done. by exists q.
    + by exists q.
  - rewrite (Update_new _ _ _ Hp Hk) in HU. injection HU as <-. by exists q.
Qed.

(** X4: an [Update] with a node that [Add] has just registered changes
    nothing. *)
Theorem Update_after_Add (st st1 : State) (pkgs : list loc) (pkg : loc) :
  Add st (pkgs ++ [pkg]) = Ok st1 → Update st1 pkg = Ok st1.
Proof.
  revert st. induction pkgs as [|q pkgs IH]; intros st H; simpl in H.
  - destruct (Add_one st pkg) as [st'|] eqn:H1; simpl in H; [|done].
    injection H as <-. apply Add_one_inv in H1 as (p0 & Hp0 & ->).
    apply (Update_registered_self _ _ (rewritePackage p0)); simpl;
      by rewrite lookup_insert_eq.
  - destruct (Add_one st q) as [st'|] eqn:H1; simpl in H; [|done]. by eapply IH.
Qed.

(** ** Add, again *)

Lemma Add_one_path_of (st st' : State) (pkg l : loc) :
  Add_one st pkg = Ok st' → path_of (heap st') l = path_of (heap st) l.
Proof.
  intros (p0 & Hp0 & ->)%Add_one_inv. unfold path_of. simpl.
  destruct (decide (pkg = l)) as [->|Hne].
  - by rewrite lookup_insert_eq, Hp0.
  - by rewrite lookup_insert_ne.
Qed.

Lemma Add_path_of (st st' : State) (pkgs : list loc) (l : loc) :
  Add st pkgs = Ok st' → path_of (heap st') l = path_of (heap st) l.
Proof.
  revert st. induction pkgs as [|q pkgs IH]; intros st H; simpl in H.
  - by injection H as <-.
  - destruct (Add_one st q) as [st1|] eqn:H1; simpl in H; [|done].
    rewrite (IH _ H). by eapply Add_one_path_of.
Qed.

Lemma path_of_None (h : gmap loc FlatPackage) (l : loc) :
  path_of h l = None ↔ h !! l = None.
Proof. unfold path_of. by destruct (h !! l). Qed.

Lemma path_of_Some (h : gmap loc FlatPackage) (l : loc) (k : string) :
  path_of h l = Some k ↔ ∃ p, h !! l = Some p ∧ PkgPath p = k.
Proof.
  unfold path_of. destruct (h !! l) as [p|]; simpl; split.
  - intros [= <-]. by exists p.
  - by intros (p' & [= <-] & <-).
  - done.
  - by intros (? & ? & _).
Qed.

Lemma Add_app (st : State) (pkgs1 pkgs2 : list loc) :
  Add st (pkgs1 ++ pkgs2) = (st1 ←r Add st pkgs1; Add st1 pkgs2).
Proof.
  revert st. induction pkgs1 as [|q pkgs1 IH]; intros st; simpl; [done|].
  destruct (Add_one st q) as [st1|]; simpl; [apply IH|done].
Qed.

(** X5: [Add] panics exactly when one of the pointers it is given is nil;
    otherwise it returns. *)
Theorem Add_panics_iff_nil (st : State) (pkgs : list loc) :
  Add st pkgs = Panic ↔ ∃ pkg, pkg ∈ pkgs ∧ heap st !! pkg = None.
Proof.
  revert st. induction pkgs as [|q pkgs IH]; intros st; simpl.
  - split; [done|]. intros (pkg & Hin & _). by apply elem_of_nil in Hin.
  - destruct (heap st !! q) as [q0|] eqn:Hq.
    + rewrite (Add_one_Ok _ _ _ Hq). simpl. rewrite IH. simpl.
      assert (∀ l, <[q := rewritePackage q0]> (heap st) !! l = None ↔ heap st !! l = None)
        as Hdom.
      { intros l. destruct (decide (q = l)) as [<-|Hne].
        - rewrite lookup_insert_eq, Hq. done.
        - by rewrite lookup_insert_ne. }
      split.
      * intros (pkg & Hin & Hnil%Hdom). exists pkg. split; [|done].
        by apply list_elem_of_further.
      * intros (pkg & [->|Hin]%elem_of_cons & Hnil); [congruence|].
        exists pkg. split; [done|]. by apply Hdom.
    + split; [|by unfold Add_one; rewrite Hq].
      intros _. exists q. split; [apply list_elem_of_here|done].
Qed.

(** X6: one call of [Add] with two lists of nodes, one after the other,
    does what two calls do, one for each list, and [NewPackageRegistry] is
    the first of them on an empty registry. *)
Theorem Add_composes :
  (∀ st pkgs1 pkgs2,
     Add st (pkgs1 ++ pkgs2) = (st1 ←r Add st pkgs1; Add st1 pkgs2))
  ∧ (∀ h pkgs1 pkgs2,
       NewPackageRegistry h (pkgs1 ++ pkgs2)
       = (st1 ←r NewPackageRegistry h pkgs1; Add st1 pkgs2)).
Proof. split; [exact Add_app|]. intros h pkgs1 pkgs2. apply Add_app. Qed.

Lemma last_with_path_snoc (h : gmap loc FlatPackage) (pkgs : list loc) (q : loc) (k : string) :
  last_with_path h (pkgs ++ [q]) k
  = if decide (path_of h q = Some k) then Some q else last_with_path h pkgs k.
Proof.
  unfold last_with_path. rewrite filter_app, filter_cons, filter_nil.
  destruct (decide (path_of h q = Some k)).
  - apply last_snoc.
  - by rewrite app_nil_r.
Qed.

(** X7: after [Add], the registry holds under a logical path the last of
    the given nodes that has this path, and what it held before when none
    of them has it. *)
Theorem Add_last_write_wins (st st' : State) (pkgs : list loc) (k : string) :
  Add st pkgs = Ok st' →
  packages st' !! k
  = match last_with_path (heap st) pkgs k with
    | Some pkg => Some pkg
    | None => packages st !! k
    end.
Proof.
  revert st'. induction pkgs as [|q pkgs IH] using rev_ind; intros st' H.
  - by injection H as <-.
  - rewrite Add_app in H. destruct (Add st pkgs) as [st1|] eqn:H1; simpl in H; [|done].
    destruct (Add_one st1 q) as [st2|] eqn:H2; simpl in H; [|done]. injection H as <-.
    rewrite last_with_path_snoc, <- (Add_path_of _ _ _ q H1).
    apply Add_one_inv in H2 as (q1 & Hq1 & ->). simpl.
    unfold path_of. rewrite Hq1. simpl.
    destruct (decide (Some (PkgPath q1) = Some k)) as [[= <-]|Hne].
    + by rewrite lookup_insert_eq.
    + rewrite lookup_insert_ne by congruence. by apply IH.
Qed.

(** X8: [Add] changes of a node at most its identity and the targets of
    its import edges. Every node of the heap, given or not, has afterwards
    the logical path, the files, the flag and the import paths it had; a
    node that is given has its logical path as identity, and a node that
    is not given the identity it had. (Nothing is said of the targets of
    the import edges of a node.) *)
Theorem Add_frame (st st' : State) (pkgs : list loc) (l : loc) (q : FlatPackage) :
  Add st pkgs = Ok st' → heap st !! l = Some q →
  ∃ q', heap st' !! l = Some q'
        ∧ PkgPath q' = PkgPath q ∧ GoFiles q' = GoFiles q ∧ Standard q' = Standard q
        ∧ dom (Imports q') = dom (Imports q)
        ∧ ID q' = if decide (l ∈ pkgs) then PkgPath q else ID q.
Proof.
  intros H Hq. revert st' H.
  induction pkgs as [|r pkgs IH] using rev_ind; intros st' H.
  - injection H as <-. exists q. by rewrite decide_False by apply not_elem_of_nil.
  - rewrite Add_app in H. destruct (Add st pkgs) as [st1|] eqn:H1; simpl in H; [|done].
    destruct (Add_one st1 r) as [st2|] eqn:H2; simpl in H; [|done]. injection H as <-.
    destruct (IH _ eq_refl) as (q1 & Hq1 & Hpath & Hfiles & Hstd & Hdom & Hid).
    apply Add_one_inv in H2 as (r0 & Hr0 & ->). simpl.
    destruct (decide (r = l)) as [->|Hne].
    + rewrite lookup_insert_eq. rewrite Hq1 in Hr0. injection Hr0 as <-.
      exists (rewritePackage q1). split; [done|]. simpl.
      split; [done|]. split; [done|]. split; [done|]. split.
      * rewrite <- Hdom. apply set_eq. intros k. rewrite !elem_of_dom, map_lookup_imap.
        destruct (Imports q1 !! k); simpl; split; intros [??]; by eexists.
      * rewrite decide_True by (apply elem_of_app; right; apply list_elem_of_here). done.
    + rewrite lookup_insert_ne by done. exists q1. split; [done|].
      split; [done|]. split; [done|]. split; [done|]. split; [done|].
      rewrite Hid. destruct (decide (l ∈ pkgs)) as [Hin|Hnin].
      * by rewrite decide_True by (apply elem_of_app; by left).
      * rewrite decide_False; [done|].
        intros [?|Heq%list_elem_of_singleton]%elem_of_app; [done|congruence].
Qed.

(** ** The index of a new registry *)

Lemma Add_one_stdlib_self (st st' : State) (pkg : loc) (k : string) :
  Add_one st pkg = Ok st' → stdlib st !! k = Some k → stdlib st' !! k = Some k.
Proof.
  intros (p0 & Hp0 & ->)%Add_one_inv Hk. simpl. destruct (Standard p0); [|done].
  destruct (decide (PkgPath p0 = k)) as [<-|Hne].
  - by rewrite lookup_insert_eq.
  - by rewrite lookup_insert_ne.
Qed.

Lemma Add_stdlib_self (st st' : State) (pkgs : list loc) (k : string) :
  Add st pkgs = Ok st' → stdlib st !! k = Some k → stdlib st' !! k = Some k.
Proof.
  revert st. induction pkgs as [|q pkgs IH]; intros st H Hk; simpl in H.
  - by injection H as <-.
  - destruct (Add_one st q) as [st1|] eqn:H1; simpl in H; [|done].
    eapply IH; [done|]. by eapply Add_one_stdlib_self.
Qed.

Lemma Add_stdlib_flagged_path (st st' : State) (pkgs : list loc) (k : string) :
  Add st pkgs = Ok st' → flagged_path (heap st) pkgs k → stdlib st' !! k = Some k.
Proof.
  revert st. induction pkgs as [|q pkgs IH]; intros st H (pkg & p & Hin & Hp & Hstd & Hpath).
  - by apply elem_of_nil in Hin.
  - simpl in H. destruct (Add_one st q) as [st1|] eqn:H1; simpl in H; [|done].
    pose proof H1 as (q0 & Hq0 & ->)%Add_one_inv.
    apply elem_of_cons in Hin as [->|Hin].
    + eapply Add_stdlib_self; [done|]. simpl.
      rewrite Hp in Hq0. injection Hq0 as <-. by rewrite Hstd, Hpath, lookup_insert_eq.
    + eapply IH; [done|]. simpl.
      destruct (decide (q = pkg)) as [->|Hne].
      * exists pkg, (rewritePackage q0). rewrite lookup_insert_eq.
        rewrite Hp in Hq0. injection Hq0 as <-. done.
      * exists pkg, p. by rewrite lookup_insert_ne.
Qed.

Lemma Add_stdlib_not_flagged (st st' : State) (pkgs : list loc) (k : string) :
  Add st pkgs = Ok st' → ¬ flagged_path (heap st) pkgs k →
  stdlib st' !! k = stdlib st !! k.
Proof.
  intros H Hno. destruct (stdlib st' !! k) as [id|] eqn:Hk.
  - destruct (Add_stdlib_entry _ _ _ _ _ H Hk) as [?|(pkg & p & ? & ? & ? & ? & ?)];
      [done|]. destruct Hno. by exists pkg, p.
  - symmetry. by eapply Add_stdlib_dom.
Qed.

(** X9: the index of a registry that [NewPackageRegistry] returns maps to
    itself every logical path of a flagged node among the given ones, and
    holds nothing else; so the resolver of [ResolveImports] answers such a
    path with the path itself, and any other path with the empty string. *)
Theorem NewPackageRegistry_index (h : gmap loc FlatPackage) (pkgs : list loc) (st : State) :
  NewPackageRegistry h pkgs = Ok st →
  (∀ k id, stdlib st !! k = Some id ↔ id = k ∧ flagged_path h pkgs k)
  ∧ (∀ path, flagged_path h pkgs path → resolve st path = path)
  ∧ (∀ path, ¬ flagged_path h pkgs path → resolve st path = "").
Proof.
  intros H. unfold NewPackageRegistry in H.
  assert (∀ k, flagged_path h pkgs k → stdlib st !! k = Some k) as Hyes
    by (intros k; by apply (Add_stdlib_flagged_path _ _ _ _ H)).
  assert (∀ k, ¬ flagged_path h pkgs k → stdlib st !! k = None) as Hno.
  { intros k Hk. by rewrite (Add_stdlib_not_flagged _ _ _ _ H Hk). }
  split; [|split].
  - intros k id. split.
    + intros Hk. destruct (Add_stdlib_entry _ _ _ _ _ H Hk)
        as [Hk0|(pkg & p & ? & ? & ? & ? & ->)];
        [simpl in Hk0; by rewrite lookup_empty in Hk0|].
      split; [done|]. by exists pkg, p.
    + intros [-> Hk]. by apply Hyes.
  - intros path Hk. unfold resolve. by rewrite (Hyes _ Hk).
  - intros path Hk. unfold resolve. by rewrite (Hno _ Hk).
Qed.

Lemma Add_one_self_identity (st st' : State) (pkg l : loc) (q : FlatPackage) :
  Add_one st pkg = Ok st' → heap st !! l = Some q → ID q = PkgPath q →
  ∃ q', heap st' !! l = Some q' ∧ ID q' = PkgPath q'.
Proof.
  intros (p0 & Hp0 & ->)%Add_one_inv Hq Hid. simpl.
  destruct (decide (pkg = l)) as [->|Hne].
  - rewrite lookup_insert_eq. by eexists.
  - rewrite lookup_insert_ne by done. by exists q.
Qed.

Lemma Add_self_identity (st st' : State) (pkgs : list loc) (l : loc) (q : FlatPackage) :
  Add st pkgs = Ok st' → heap st !! l = Some q → ID q = PkgPath q →
  ∃ q', heap st' !! l = Some q' ∧ ID q' = PkgPath q'.
Proof.
  revert st q. induction pkgs as [|r pkgs IH]; intros st q H Hq Hid; simpl in H.
  - injection H as <-. by exists q.
  - destruct (Add_one st r) as [st1|] eqn:H1; simpl in H; [|done].
    destruct (Add_one_self_identity _ _ _ _ _ H1 Hq Hid) as (q1 & Hq1 & Hid1).
    by eapply IH.
Qed.

Lemma canonical_pointer_unique (st : State) :
  canonical st → no_nil st → pointer_unique st.
Proof.
  intros Hcan Hnn k1 k2 l H1 H2. destruct (Hnn _ _ H1) as [p Hp].
  destruct (Hcan k1 l p) as [<- _]; [by apply lookup_pkg_Some|].
  destruct (Hcan k2 l p) as [<- _]; [by apply lookup_pkg_Some|]. done.
Qed.

(** X10: in a registry that [NewPackageRegistry] returns, every node is
    stored under its logical path and has it as its identity, no pointer
    is nil, no node is stored under two keys, and every node that was
    given has its logical path as its identity. *)
Theorem NewPackageRegistry_invariants (h : gmap loc FlatPackage) (pkgs : list loc) (st : State) :
  NewPackageRegistry h pkgs = Ok st →
  canonical st ∧ no_nil st ∧ pointer_unique st
  ∧ ∀ pkg, pkg ∈ pkgs → ∃ p, heap st !! pkg = Some p ∧ ID p = PkgPath p.
Proof.
  intros H. unfold NewPackageRegistry in H.
  assert (canonical st) as Hcan.
  { eapply Add_canonical; [exact H|]. intros k l p [Hk _]%lookup_pkg_Some.
    simpl in Hk. by rewrite lookup_empty in Hk. }
  assert (no_nil st) as Hnn.
  { eapply Add_no_nil; [exact H|]. intros k l Hk. simpl in Hk.
    by rewrite lookup_empty in Hk. }
  split; [done|]. split; [done|]. split; [by apply canonical_pointer_unique|].
  intros pkg Hin. revert H Hin. generalize (mkState h ∅ ∅). clear.
  induction pkgs as [|q pkgs IH]; intros st0 H Hin; [by apply elem_of_nil in Hin|].
  simpl in H. destruct (Add_one st0 q) as [st1|] eqn:H1; simpl in H; [|done].
  destruct (decide (pkg ∈ pkgs)) as [Hin'|Hnin]; [by eapply IH|].
  apply elem_of_cons in Hin as [->|]; [|done].
  pose proof H1 as (q0 & Hq0 & ->)%Add_one_inv.
  eapply (Add_self_identity _ _ _ q (rewritePackage q0)); [done| |done].
  simpl. by rewrite lookup_insert_eq.
Qed.

(** ** What the operations keep *)

Lemma Add_one_keeps (st st' : State) (pkg : loc) :
  Add_one st pkg = Ok st' →
  (∀ k, is_Some (packages st !! k) → is_Some (packages st' !! k))
  ∧ (∀ l, is_Some (heap st !! l) → is_Some (heap st' !! l)).
Proof.
  intros (p0 & Hp0 & ->)%Add_one_inv. simpl. split.
  - intros k Hk. destruct (decide (PkgPath p0 = k)) as [<-|Hne].
    + by rewrite lookup_insert_eq.
    + by rewrite lookup_insert_ne.
  - intros l Hl. destruct (decide (pkg = l)) as [<-|Hne].
    + by rewrite lookup_insert_eq.
    + by rewrite lookup_insert_ne.
Qed.

Lemma Add_keeps (st st' : State) (pkgs : list loc) :
  Add st pkgs = Ok st' →
  (∀ k, is_Some (packages st !! k) → is_Some (packages st' !! k))
  ∧ (∀ l, is_Some (heap st !! l) → is_Some (heap st' !! l)).
Proof.
  revert st. induction pkgs as [|q pkgs IH]; intros st H; simpl in H.
  - by injection H as <-.
  - destruct (Add_one st q) as [st1|] eqn:H1; simpl in H; [|done].
    destruct (Add_one_keeps _ _ _ H1) as [Hk1 Hl1]. destruct (IH _ H) as [Hk Hl].
    split; auto.
Qed.

Lemma Update_keeps (st st' : State) (pkg : loc) :
  Update st pkg = Ok st' →
  (∀ k, is_Some (packages st !! k) → is_Some (packages st' !! k))
  ∧ (∀ l, is_Some (heap st !! l) → is_Some (heap st' !! l)).
Proof.
  unfold Update. destruct (heap st !! pkg) as [p|]; simpl; [|done].
  destruct (packages st !! PkgPath p) as [ex|] eqn:Hex.
  - destruct (heap st !! ex) as [e|] eqn:He; simpl; [|done].
    destruct (isSuperset (GoFiles p) (GoFiles e)) as [[]|]; simpl; [| |done];
      intros [= <-]; [|done]. simpl. split; [done|].
    intros l Hl. destruct (decide (ex = l)) as [<-|Hne].
    + by rewrite lookup_insert_eq.
    + by rewrite lookup_insert_ne.
  - intros [= <-]. simpl. split; [|done].
    intros k Hk. destruct (decide (PkgPath p = k)) as [<-|Hne].
    + by rewrite lookup_insert_eq.
    + by rewrite lookup_insert_ne.
Qed.

Section ResolveImportsKeeps.

Context {error : Type}.
Variable pkgResolveImports : (string → string) → FlatPackage → FlatPackage * option error.
Variable MoveTestFiles : FlatPackage → FlatPackage * option FlatPackage.

Local Abbreviation node := (ResolveImports_node error pkgResolveImports MoveTestFiles).
Local Abbreviation run := (ResolveImports error pkgResolveImports MoveTestFiles).

Lemma ResolveImports_node_keeps (st st' : State) (l : loc) (oe : option error) :
  node st l = Ok (st', oe) →
  (∀ k, is_Some (packages st !! k) → is_Some (packages st' !! k))
  ∧ (∀ l', is_Some (heap st !! l') → is_Some (heap st' !! l')).
Proof.
  destruct (heap st !! l) as [pkg|] eqn:Hl;
    [|by rewrite (ResolveImports_node_nil _ _ _ _ Hl)].
  rewrite (ResolveImports_node_eq _ _ _ _ _ Hl).
  assert (∀ (h : gmap loc FlatPackage) (q : FlatPackage) l',
            is_Some (h !! l') → is_Some (<[l := q]> h !! l')) as Hins.
  { intros h q l' Hl'. destruct (decide (l = l')) as [<-|Hne].
    - by rewrite lookup_insert_eq.
    - by rewrite lookup_insert_ne. }
  destruct ((pkgResolveImports (resolve st) pkg).2); intros [= <- <-].
  - simpl. split; [done|]. intros l'. apply Hins.
  - unfold after_split.
    set (h2 := <[l := _]> (<[l := _]> (heap st))).
    assert (∀ l', is_Some (heap st !! l') → is_Some (h2 !! l')) as Hh2
      by (intros l' Hl'; by do 2 apply Hins).
    destruct ((MoveTestFiles _).2) as [t|]; simpl; [|done]. split.
    + intros k Hk. destruct (decide (ID t = k)) as [<-|Hne].
      * by rewrite lookup_insert_eq.
      * by rewrite lookup_insert_ne.
    + intros l' Hl'. destruct (decide (fresh (dom h2) = l')) as [<-|Hne].
      * by rewrite lookup_insert_eq.
      * rewrite lookup_insert_ne by done. by apply Hh2.
Qed.

Lemma ResolveImports_keeps (ks : list string) (st st' : State) (oe : option error) :
  run ks st = Ok (st', oe) →
  (∀ k, is_Some (packages st !! k) → is_Some (packages st' !! k))
  ∧ (∀ l, is_Some (heap st !! l) → is_Some (heap st' !! l)).
Proof.
  revert st. induction ks as [|k ks IH]; intros st H; simpl in H.
  - by injection H as <- <-.
  - destruct (packages st !! k) as [l|]; [|by apply IH].
    destruct (node st l) as [[st1 [e|]]|] eqn:Hn; simpl in H; [| |done].
    + injection H as <- <-. by eapply ResolveImports_node_keeps.
    + destruct (ResolveImports_node_keeps _ _ _ _ Hn) as [Hk1 Hl1].
      destruct (IH _ H) as [Hk Hl]. split; auto.
Qed.

Lemma ResolveImports_node_no_nil (st : State) (k : string) (l : loc) :
  no_nil st → packages st !! k = Some l →
  ∃ st' oe, node st l = Ok (st', oe) ∧ no_nil st'.
Proof.
  intros Hnn Hk. destruct (Hnn _ _ Hk) as [pkg Hl].
  rewrite (ResolveImports_node_eq _ _ _ _ _ Hl).
  destruct ((pkgResolveImports (resolve st) pkg).2) as [e|] eqn:He.
  - eexists _, _. split; [done|]. intros k' l' Hk'. simpl in *.
    destruct (decide (l = l')) as [<-|Hne]; [by rewrite lookup_insert_eq|].
    rewrite lookup_insert_ne by done. by eapply Hnn.
  - eexists _, _. split; [done|]. unfold after_split.
    set (h2 := <[l := _]> (<[l := _]> (heap st))).
    assert (∀ k' l', packages st !! k' = Some l' → is_Some (h2 !! l')) as Hh2.
    { intros k' l' Hk'. unfold h2.
      destruct (decide (l = l')) as [<-|Hne]; [by rewrite lookup_insert_eq|].
      rewrite !lookup_insert_ne by done. by eapply Hnn. }
    destruct ((MoveTestFiles _).2) as [t|]; simpl; [|done].
    intros k' l' Hk'. simpl in *.
    destruct (decide (fresh (dom h2) = l')) as [<-|Hne]; [by rewrite lookup_insert_eq|].
    rewrite lookup_insert_ne by done.
    destruct (decide (ID t = k')) as [<-|Hne'].
    + rewrite lookup_insert_eq in Hk'. congruence.
    + rewrite lookup_insert_ne in Hk' by done. by eapply Hh2.
Qed.

(** X12: on a registry without nil pointers [ResolveImports] does not
    panic, whatever the collaborators do to the nodes and in whatever
    order the range goes: it returns, with or without an error, and the
    registry it leaves has no nil pointer either. *)
Theorem ResolveImports_returns (ks : list string) (st : State) :
  no_nil st → ∃ st' oe, run ks st = Ok (st', oe) ∧ no_nil st'.
Proof.
  revert st. induction ks as [|k ks IH]; intros st Hnn; simpl.
  - by exists st, None.
  - destruct (packages st !! k) as [l|] eqn:Hk; [|by apply IH].
    destruct (ResolveImports_node_no_nil st k l Hnn Hk) as (st1 & oe & -> & Hnn1).
    simpl. destruct oe as [e|]; [by exists st1, (Some e)|]. by apply IH.
Qed.

End ResolveImportsKeeps.

(** X11: no operation takes a key out of the registry: a key that
    [Add], [Update] or [ResolveImports] finds in the registry is in the
    registry afterwards. [Update] leaves every key with the node it had;
    after [Add] and [ResolveImports] a key may hold another node. *)
Theorem registry_keys_stay :
  (∀ st pkgs st', Add st pkgs = Ok st' → dom (packages st) ⊆ dom (packages st'))
  ∧ (∀ st pkg st', Update st pkg = Ok st' →
       ∀ k l, packages st !! k = Some l → packages st' !! k = Some l)
  ∧ (∀ (error : Type) pkgResolveImports MoveTestFiles ks st st' (oe : option error),
       ResolveImports error pkgResolveImports MoveTestFiles ks st = Ok (st', oe) →
       dom (packages st) ⊆ dom (packages st')).
Proof.
  split; [|split].
  - intros st pkgs st' H k Hk%elem_of_dom. apply elem_of_dom.
    by apply (Add_keeps _ _ _ H).
  - intros st pkg st' H k l Hk. revert H. unfold Update.
    destruct (heap st !! pkg) as [p|]; simpl; [|done].
    destruct (packages st !! PkgPath p) as [ex|] eqn:Hex.
    + destruct (heap st !! ex) as [e|]; simpl; [|done].
      destruct (isSuperset (GoFiles p) (GoFiles e)) as [[]|]; simpl; [| |done];
        by intros [= <-].
    + intros [= <-]. simpl. rewrite lookup_insert_ne; [done|]. congruence.
  - intros error step split ks st st' oe H k Hk%elem_of_dom. apply elem_of_dom.
    by apply (ResolveImports_keeps _ _ _ _ _ _ H).
Qed.

(** ** Import resolution: a whole run *)

Section ResolveImportsRun.

Context {error : Type}.
Variable pkgResolveImports : (string → string) → FlatPackage → FlatPackage * option error.
Variable MoveTestFiles : FlatPackage → FlatPackage * option FlatPackage.

Local Abbreviation node := (ResolveImports_node error pkgResolveImports MoveTestFiles).
Local Abbreviation run := (ResolveImports error pkgResolveImports MoveTestFiles).

(** What one iteration writes: the node it works on, and, when the split
    returns a test node, a new node and the entry of its identity. *)
Lemma ResolveImports_node_shape (st st' : State) (l : loc) (oe : option error) :
  node st l = Ok (st', oe) →
  ∃ pkg q, heap st !! l = Some pkg ∧ stdlib st' = stdlib st
    ∧ ((packages st' = packages st ∧ heap st' = <[l := q]> (heap st))
       ∨ ∃ t lt, heap st !! lt = None ∧ lt ≠ l
           ∧ packages st' = <[ID t := lt]> (packages st)
           ∧ heap st' = <[lt := t]> (<[l := q]> (heap st))).
Proof.
  intros Hn. destruct (heap st !! l) as [pkg|] eqn:Hl;
    [|by rewrite (ResolveImports_node_nil _ _ _ _ Hl) in Hn].
  rewrite (ResolveImports_node_eq _ _ _ _ _ Hl) in Hn.
  set (pkg1 := (pkgResolveImports (resolve st) pkg).1) in *.
  destruct ((pkgResolveImports (resolve st) pkg).2) as [e|]; injection Hn as <- <-.
  - exists pkg, pkg1. split; [done|]. split; [done|]. by left.
  - exists pkg, (MoveTestFiles pkg1).1. split; [done|]. unfold after_split.
    set (h2 := <[l := (MoveTestFiles pkg1).1]> (<[l := pkg1]> (heap st))).
    assert (h2 = <[l := (MoveTestFiles pkg1).1]> (heap st)) as Hh2
      by apply insert_insert_eq.
    destruct ((MoveTestFiles pkg1).2) as [t|]; simpl.
    + split; [done|]. right. exists t, (fresh (dom h2)).
      pose proof (is_fresh (dom h2)) as Hfresh. rewrite Hh2 in Hfresh |- *.
      set (lt := fresh (dom (<[l := (MoveTestFiles pkg1).1]> (heap st)))) in *.
      rewrite dom_insert_L in Hfresh.
      split; [apply not_elem_of_dom; set_solver|].
      split; [intros Heq; rewrite Heq in Hfresh; set_solver|]. done.
    + split; [done|]. left. by rewrite <- Hh2.
Qed.

Lemma ResolveImports_node_frame (st st' : State) (l l0 : loc) (oe : option error) :
  node st l = Ok (st', oe) → is_Some (heap st !! l0) → l0 ≠ l →
  heap st' !! l0 = heap st !! l0.
Proof.
  intros (pkg & q & Hl & _ & [[_ ->]|(t & lt & Hlt & _ & _ & ->)])%ResolveImports_node_shape
    Hl0 Hne.
  - by rewrite lookup_insert_ne.
  - rewrite !lookup_insert_ne; [done..|]. intros ->. rewrite Hlt in Hl0. by destruct Hl0.
Qed.

Lemma ResolveImports_node_old_pointer (st st' : State) (l l0 : loc) (oe : option error)
    (k : string) :
  node st l = Ok (st', oe) → is_Some (heap st !! l0) →
  packages st' !! k = Some l0 → packages st !! k = Some l0.
Proof.
  intros (pkg & q & Hl & _ & [[-> _]|(t & lt & Hlt & _ & -> & _)])%ResolveImports_node_shape
    Hl0 Hk; [done|].
  destruct (decide (ID t = k)) as [<-|Hne].
  - rewrite lookup_insert_eq in Hk. injection Hk as <-. rewrite Hlt in Hl0. by destruct Hl0.
  - by rewrite lookup_insert_ne in Hk.
Qed.

Lemma ResolveImports_node_invariant (st st' : State) (l : loc) (oe : option error) :
  node st l = Ok (st', oe) → no_nil st ∧ pointer_unique st →
  no_nil st' ∧ pointer_unique st'.
Proof.
  intros (pkg & q & Hl & _ & [[Hp Hh]|(t & lt & Hlt & Hne & Hp & Hh)])%ResolveImports_node_shape
    [Hnn Huniq].
  - split.
    + intros k l0 Hk. rewrite Hp in Hk. rewrite Hh.
      destruct (decide (l = l0)) as [<-|?]; [by rewrite lookup_insert_eq|].
      rewrite lookup_insert_ne by done. by eapply Hnn.
    + intros k1 k2 l0 H1 H2. rewrite Hp in H1, H2. by eapply Huniq.
  - assert (∀ k, packages st !! k ≠ Some lt) as Hnew.
    { intros k Hk. destruct (Hnn _ _ Hk) as [? Hsome]. congruence. }
    split.
    + intros k l0 Hk. rewrite Hp in Hk. rewrite Hh.
      destruct (decide (lt = l0)) as [<-|Hl0]; [by rewrite lookup_insert_eq|].
      rewrite lookup_insert_ne by done.
      destruct (decide (ID t = k)) as [<-|Hk'].
      * rewrite lookup_insert_eq in Hk. congruence.
      * rewrite lookup_insert_ne in Hk by done.
        destruct (decide (l = l0)) as [<-|?]; [by rewrite lookup_insert_eq|].
        rewrite lookup_insert_ne by done. by eapply Hnn.
    + intros k1 k2 l0 H1 H2. rewrite Hp in H1, H2.
      destruct (decide (ID t = k1)) as [<-|Hk1], (decide (ID t = k2)) as [<-|Hk2]; [done|..].
      * rewrite lookup_insert_eq in H1. injection H1 as <-.
        rewrite lookup_insert_ne in H2 by done. by destruct (Hnew k2).
      * rewrite lookup_insert_eq in H2. injection H2 as <-.
        rewrite lookup_insert_ne in H1 by done. by destruct (Hnew k1).
      * rewrite lookup_insert_ne in H1, H2 by done. by eapply Huniq.
Qed.

Lemma ResolveImports_invariant (ks : list string) (st st' : State) (oe : option error) :
  run ks st = Ok (st', oe) → no_nil st ∧ pointer_unique st →
  no_nil st' ∧ pointer_unique st'.
Proof.
  revert st. induction ks as [|k ks IH]; intros st H Hinv; simpl in H.
  - by injection H as <- <-.
  - destruct (packages st !! k) as [l|]; [|by eapply IH].
    destruct (node st l) as [[st1 [e|]]|] eqn:Hn; simpl in H; [| |done].
    + injection H as <- <-. by eapply ResolveImports_node_invariant.
    + eapply IH; [done|]. by eapply ResolveImports_node_invariant.
Qed.

(** A run does not touch a node that is under none of the keys of the
    range, and does not put an old node under a key. *)
Lemma ResolveImports_frame (ks : list string) (st st' : State) (oe : option error)
    (l0 : loc) :
  run ks st = Ok (st', oe) → is_Some (heap st !! l0) →
  (∀ k, k ∈ ks → packages st !! k ≠ Some l0) →
  heap st' !! l0 = heap st !! l0.
Proof.
  revert st. induction ks as [|k ks IH]; intros st H Hl0 Hks; simpl in H.
  - by injection H as <- <-.
  - assert (∀ k', k' ∈ ks → packages st !! k' ≠ Some l0) as Hks'
      by (intros k' Hk'; apply Hks; by apply list_elem_of_further).
    destruct (packages st !! k) as [l|] eqn:Hk; [|by apply IH].
    assert (l0 ≠ l) as Hne.
    { intros ->. by apply (Hks k); [apply list_elem_of_here|]. }
    destruct (node st l) as [[st1 oe1]|] eqn:Hn; simpl in H; [|done].
    pose proof (ResolveImports_node_frame _ _ _ _ _ Hn Hl0 Hne) as Hframe.
    destruct oe1 as [e|]; [by injection H as <- <-|].
    rewrite <- Hframe. apply IH; [done|by rewrite Hframe|].
    intros k' Hk' Hk1. apply (Hks' k' Hk').
    by eapply ResolveImports_node_old_pointer.
Qed.

Lemma ResolveImports_old_pointer (ks : list string) (st st' : State) (oe : option error)
    (l0 : loc) (k0 : string) :
  run ks st = Ok (st', oe) → is_Some (heap st !! l0) →
  packages st' !! k0 = Some l0 → packages st !! k0 = Some l0.
Proof.
  revert st. induction ks as [|k ks IH]; intros st H Hl0 Hk0; simpl in H.
  - by injection H as <- <-.
  - destruct (packages st !! k) as [l|] eqn:Hk; [|by apply IH].
    destruct (node st l) as [[st1 oe1]|] eqn:Hn; simpl in H; [|done].
    assert (is_Some (heap st1 !! l0)) as Hl1
      by (by apply (ResolveImports_node_keeps _ _ _ _ _ _ Hn)).
    destruct oe1 as [e|].
    + injection H as <- <-. by eapply ResolveImports_node_old_pointer.
    + eapply ResolveImports_node_old_pointer; [done..|]. by apply IH.
Qed.

(** A key that a run finds in the registry holds afterwards the node it
    held or a node that the run has made. *)
Lemma ResolveImports_key (ks : list string) (st st' : State) (oe : option error)
    (k0 : string) :
  run ks st = Ok (st', oe) → is_Some (packages st !! k0) →
  ∃ l', packages st' !! k0 = Some l'
        ∧ (packages st !! k0 = Some l' ∨ heap st !! l' = None).
Proof.
  intros H [l0 Hk0].
  destruct (ResolveImports_keeps _ _ _ _ _ _ H) as [Hkeys _].
  destruct (Hkeys k0) as [l' Hl']; [by eexists|]. exists l'. split; [done|].
  destruct (heap st !! l') eqn:Hh; [left|by right].
  eapply ResolveImports_old_pointer; [done| |done]. by eexists.
Qed.

(** The iteration at a key of a run that succeeds, when it ends: the step
    has succeeded, the node is what the step and the split leave, and a
    test node that the split returns is a new node, stored under its
    identity; the run goes on from there. *)
Lemma ResolveImports_iteration_end (ks1 ks2 : list string) (k : string)
    (st st1 st' : State) (l : loc) (pkg : FlatPackage) :
  run (ks1 ++ k :: ks2) st = Ok (st', None) →
  run ks1 st = Ok (st1, None) → lookup_pkg st1 k = Some (l, pkg) →
  (pkgResolveImports (resolve st) pkg).2 = None
  ∧ ∃ st2,
      run (ks1 ++ [k]) st = Ok (st2, None)
      ∧ run ks2 st2 = Ok (st', None)
      ∧ heap st2 !! l = Some (MoveTestFiles (pkgResolveImports (resolve st) pkg).1).1
      ∧ ∀ t, (MoveTestFiles (pkgResolveImports (resolve st) pkg).1).2 = Some t →
          ∃ lt, heap st1 !! lt = None ∧ lookup_pkg st2 (ID t) = Some (lt, t).
Proof.
  intros H H1 [Hk Hl]%lookup_pkg_Some.
  rewrite ResolveImports_app, H1 in H. simpl in H. rewrite Hk in H.
  assert (resolve st = resolve st1) as ->
    by (unfold resolve; by rewrite (ResolveImports_stdlib _ _ _ _ _ _ H1)).
  destruct (node st1 l) as [[st2 oe2]|] eqn:Hn; simpl in H; [|done].
  pose proof Hn as Hnode. rewrite (ResolveImports_node_eq _ _ _ _ _ Hl) in Hn.
  set (r := pkgResolveImports (resolve st1) pkg) in *.
  destruct (r.2) as [e|] eqn:He; injection Hn as <- <-; [done|].
  split; [done|]. exists (after_split MoveTestFiles st1 l r.1).
  split; [|split; [done|split]].
  - rewrite ResolveImports_app, H1. simpl. by rewrite Hk, Hnode.
  - unfold after_split. destruct ((MoveTestFiles r.1).2) as [t|]; simpl.
    + rewrite lookup_insert_ne; [by rewrite lookup_insert_eq|]. intros Heq.
      pose proof (is_fresh (dom (<[l := (MoveTestFiles r.1).1]> (<[l := r.1]> (heap st1)))))
        as Hfresh. rewrite Heq, !dom_insert_L in Hfresh. set_solver.
    + by rewrite lookup_insert_eq.
  - intros t Ht.
    destruct (after_split_lookup MoveTestFiles st1 l r.1 t Ht) as (lt & Hlt & _ & Hlookup).
    by exists lt.
Qed.

(** The iteration at a key of a run that succeeds: the step succeeds, the
    node is afterwards what the step and the split leave, and stays so to
    the end; a test node that the split returns is a new node, stored
    under its identity; it stays as it is unless the range reaches its
    identity later, and its identity stays the key of a node that this
    iteration or a later one has made. *)
Lemma ResolveImports_iteration (ks1 ks2 : list string) (k : string) (st st1 st' : State)
    (l : loc) (pkg : FlatPackage) :
  NoDup (ks1 ++ k :: ks2) → no_nil st → pointer_unique st →
  run (ks1 ++ k :: ks2) st = Ok (st', None) →
  run ks1 st = Ok (st1, None) → lookup_pkg st1 k = Some (l, pkg) →
  (pkgResolveImports (resolve st) pkg).2 = None
  ∧ heap st' !! l = Some (MoveTestFiles (pkgResolveImports (resolve st) pkg).1).1
  ∧ ∀ t, (MoveTestFiles (pkgResolveImports (resolve st) pkg).1).2 = Some t →
      ∃ lt st2,
        heap st1 !! lt = None
        ∧ run (ks1 ++ [k]) st = Ok (st2, None)
        ∧ lookup_pkg st2 (ID t) = Some (lt, t)
        ∧ (ID t ∉ ks2 → heap st' !! lt = Some t)
        ∧ ∃ lt', packages st' !! ID t = Some lt' ∧ heap st1 !! lt' = None.
Proof.
  intros Hnd Hnn Huniq H H1 [Hk Hl]%lookup_pkg_Some.
  apply NoDup_app in Hnd as (_ & _ & [Hk2 _]%NoDup_cons).
  destruct (ResolveImports_invariant _ _ _ _ H1 (conj Hnn Huniq)) as [Hnn1 Huniq1].
  rewrite ResolveImports_app, H1 in H. simpl in H. rewrite Hk in H.
  assert (resolve st = resolve st1) as ->
    by (unfold resolve; by rewrite (ResolveImports_stdlib _ _ _ _ _ _ H1)).
  destruct (node st1 l) as [[st2 oe2]|] eqn:Hn; simpl in H; [|done].
  rewrite (ResolveImports_node_eq _ _ _ _ _ Hl) in Hn.
  set (r := pkgResolveImports (resolve st1) pkg) in *.
  destruct (r.2) as [e|] eqn:He; injection Hn as <- <-; [done|].
  assert (node st1 l = Ok (after_split MoveTestFiles st1 l r.1, None)) as Hnode.
  { rewrite (ResolveImports_node_eq _ _ _ _ _ Hl). fold r. by rewrite He. }
  assert (∀ k', k' ∈ ks2 → packages (after_split MoveTestFiles st1 l r.1) !! k' ≠ Some l)
    as Hnot.
  { intros k' Hk' Hk1. assert (packages st1 !! k' = Some l) as Hk1'.
    { revert Hk1. unfold after_split. destruct ((MoveTestFiles r.1).2) as [t|]; simpl; [|done].
      destruct (decide (ID t = k')) as [<-|?].
      - rewrite lookup_insert_eq. intros [= Heq].
        pose proof (is_fresh (dom (<[l := (MoveTestFiles r.1).1]> (<[l := r.1]> (heap st1)))))
          as Hfresh. rewrite Heq, !dom_insert_L in Hfresh. set_solver.
      - by rewrite lookup_insert_ne. }
    assert (k' = k) as -> by (by eapply Huniq1). done. }
  assert (heap (after_split MoveTestFiles st1 l r.1) !! l = Some (MoveTestFiles r.1).1)
    as Hafter.
  { unfold after_split. destruct ((MoveTestFiles r.1).2) as [t|]; simpl.
    - rewrite lookup_insert_ne; [by rewrite lookup_insert_eq|]. intros Heq.
      pose proof (is_fresh (dom (<[l := (MoveTestFiles r.1).1]> (<[l := r.1]> (heap st1)))))
        as Hfresh. rewrite Heq, !dom_insert_L in Hfresh. set_solver.
    - by rewrite lookup_insert_eq. }
  split; [done|]. split.
  - rewrite <- Hafter. eapply ResolveImports_frame; [done|by rewrite Hafter|done].
  - intros t Ht.
    destruct (after_split_lookup MoveTestFiles st1 l r.1 t Ht) as (lt & Hlt & Hne & Hlookup).
    exists lt, (after_split MoveTestFiles st1 l r.1).
    split; [done|]. split.
    { rewrite ResolveImports_app, H1. simpl. by rewrite Hk, Hnode. }
    split; [done|].
    pose proof Hlookup as [Hkt Hht]%lookup_pkg_Some.
    assert (no_nil (after_split MoveTestFiles st1 l r.1)
            ∧ pointer_unique (after_split MoveTestFiles st1 l r.1)) as [Hnn2 Huniq2].
    { by eapply (ResolveImports_node_invariant st1 _ l None). }
    split.
    + intros Hnotin. rewrite <- Hht.
      eapply ResolveImports_frame; [done|by rewrite Hht|].
      intros k' Hk' Hk1. assert (k' = ID t) as -> by (by eapply Huniq2). done.
    + destruct (ResolveImports_key _ _ _ _ (ID t) H) as (lt' & Hlt' & Hcase);
        [by eexists|].
      exists lt'. split; [done|]. destruct Hcase as [Hsame|Hnew].
      * rewrite Hkt in Hsame. by injection Hsame as <-.
      * destruct (heap st1 !! lt') eqn:Hold; [|done].
        assert (is_Some (heap (after_split MoveTestFiles st1 l r.1) !! lt')) as [? Hsome];
          [|congruence].
        eapply (ResolveImports_node_keeps _ _ _ _ _ _ Hnode). by eexists.
Qed.

(** A node that is in the registry before a run that succeeds, under a
    key of the range: the step and the split have worked on it, once,
    unless a test node was stored under its key before the range came to
    it; then it is as it was, and no longer in the registry. *)
Lemma ResolveImports_registered (ks : list string) (st st' : State) (k : string)
    (l : loc) (pkg : FlatPackage) :
  NoDup ks → no_nil st → pointer_unique st →
  run ks st = Ok (st', None) →
  lookup_pkg st k = Some (l, pkg) → k ∈ ks →
  ((pkgResolveImports (resolve st) pkg).2 = None
   ∧ heap st' !! l = Some (MoveTestFiles (pkgResolveImports (resolve st) pkg).1).1)
  ∨ (heap st' !! l = Some pkg ∧ ∀ k', packages st' !! k' ≠ Some l).
Proof.
  intros Hnd Hnn Huniq H [Hk Hl]%lookup_pkg_Some (ks1 & ks2 & ->)%list_elem_of_split.
  pose proof H as Happ. rewrite ResolveImports_app in Happ.
  destruct (run ks1 st) as [[st1 [e|]]|] eqn:H1; simpl in Happ; [done| |done].
  pose proof Hnd as (_ & Hk1 & _)%NoDup_app.
  assert (heap st1 !! l = Some pkg) as Hl1.
  { rewrite <- Hl. eapply ResolveImports_frame; [done|by rewrite Hl|].
    intros k' Hk' Hk'l. assert (k' = k) as -> by (by eapply Huniq).
    apply (Hk1 k Hk'). apply list_elem_of_here. }
  destruct (decide (packages st1 !! k = Some l)) as [Hk1l|Hk1l].
  - left. destruct (ResolveImports_iteration ks1 ks2 k st st1 st' l pkg)
      as (He & Hfinal & _); [done..|by apply lookup_pkg_Some|]. done.
  - right.
    assert (∀ k', packages st1 !! k' ≠ Some l) as Hnone.
    { intros k' Hk'. assert (packages st !! k' = Some l) as Hold.
      { eapply ResolveImports_old_pointer; [done|by rewrite Hl|done]. }
      assert (k' = k) as -> by (by eapply Huniq). done. }
    assert (run (k :: ks2) st1 = Ok (st', None)) as Hrest by exact Happ.
    split.
    + rewrite <- Hl1. apply (ResolveImports_frame (k :: ks2) st1 st' None l Hrest).
      * by rewrite Hl1.
      * intros k' _. apply Hnone.
    + intros k' Hk'. apply (Hnone k').
      apply (ResolveImports_old_pointer (k :: ks2) st1 st' None l k' Hrest); [|done].
      by rewrite Hl1.
Qed.

End ResolveImportsRun.

(** ** Import resolution with the step of the spec *)

Lemma resolve_edge_lookup (resolve : string → string) (imports : gmap string string)
    (path path' : string) :
  resolve_edge resolve imports path !! path'
  = match imports !! path' with
    | Some target => Some target
    | None =>
      if decide (path' = path ∧ resolve path' ≠ "") then Some (resolve path') else None
    end.
Proof.
  unfold resolve_edge. destruct (imports !! path) as [v|] eqn:Hp.
  - destruct (imports !! path') as [v'|] eqn:Hp'; [done|].
    rewrite decide_False; [done|]. intros [-> _]. congruence.
  - destruct (decide (resolve path = "")) as [He|He].
    + destruct (imports !! path') eqn:Hp'; [done|].
      rewrite decide_False; [done|]. by intros [-> ?].
    + destruct (decide (path' = path)) as [->|Hne].
      * rewrite lookup_insert_eq, Hp. by rewrite decide_True.
      * rewrite lookup_insert_ne by done. destruct (imports !! path'); [done|].
        rewrite decide_False; [done|]. by intros [? _].
Qed.

(** The edges after the step has gone through the paths it has read: an
    edge that had a target keeps it; an edge without a target gets the
    answer of the resolver when its path was read and the answer is not
    the empty string, and stays without a target otherwise. *)
Lemma resolve_edges_lookup (resolve : string → string) (paths : list string)
    (imports : gmap string string) (path : string) :
  foldl (resolve_edge resolve) imports paths !! path
  = match imports !! path with
    | Some target => Some target
    | None =>
      if decide (path ∈ paths ∧ resolve path ≠ "") then Some (resolve path) else None
    end.
Proof.
  revert imports. induction paths as [|p paths IH]; intros imports; cbn [foldl].
  - destruct (imports !! path); [done|]. rewrite decide_False; [done|].
    by intros [?%elem_of_nil _].
  - rewrite IH, resolve_edge_lookup. destruct (imports !! path) as [v|]; [done|].
    destruct (decide (path = p ∧ resolve path ≠ "")) as [[-> He]|Hn].
    + rewrite decide_True; [done|]. split; [apply list_elem_of_here|done].
    + destruct (decide (path ∈ paths ∧ resolve path ≠ "")) as [[Hin He]|Hn'].
      * rewrite decide_True; [done|]. split; [by apply list_elem_of_further|done].
      * rewrite decide_False; [done|].
        intros [[->|?]%elem_of_cons He]; [apply Hn|apply Hn']; done.
Qed.

Section ResolveImportsStep.

Context {error : Type}.
Variable declared_imports : FlatPackage → list string * option error.
Variable MoveTestFiles : FlatPackage → FlatPackage * option FlatPackage.

Local Abbreviation step := (FlatPackage_ResolveImports error declared_imports).
Local Abbreviation run := (ResolveImports error step MoveTestFiles).


End ResolveImportsStep.


(** ** The walker and the queries, again *)

Section QueryProperties.

Variable range_map : ∀ A : Type, gmap string A → list (string * A).

(** X14: a call of [walk] that returns, on any registry and with any
    visited map, removes no key from the visited map: the keys afterwards
    are the keys before and the identities it has inserted, each of which
    is the identity of a registered node. *)
Theorem walk_keeps_visited (fuel : nat) (st : State) (acc acc' : gmap string loc)
    (root : string) (evs : list event) :
  walk range_map fuel st acc root = Some (acc', evs) →
  dom acc' = dom acc ∪ list_to_set (inserted_ids evs)
  ∧ ∀ id, id ∈ inserted_ids evs → ∃ k l p, lookup_pkg st k = Some (l, p) ∧ ID p = id.
Proof.
  revert acc acc' root evs. induction fuel as [|fuel IH]; intros acc acc' root evs H; [done|].
  rewrite walk_unfold in H. destruct (lookup_pkg st root) as [[l pkg]|] eqn:Hroot.
  - assert (∀ ts acc0 evs0 acc1 evs1,
              for_each (walk_import (walk range_map fuel st)) (acc0, evs0) ts
                = Some (acc1, evs1) →
              ∃ evs2, evs1 = evs0 ++ evs2
                ∧ dom acc1 = dom acc0 ∪ list_to_set (inserted_ids evs2)
                ∧ ∀ id, id ∈ inserted_ids evs2 →
                        ∃ k l p, lookup_pkg st k = Some (l, p) ∧ ID p = id) as Hloop.
    { induction ts as [|t ts IHts]; intros acc0 evs0 acc1 evs1 Hl.
      - injection Hl as <- <-. exists []. rewrite app_nil_r. split; [done|].
        split; [set_solver|]. intros id Hid. by apply elem_of_nil in Hid.
      - rewrite for_each_cons_bind in Hl.
        destruct (walk_import (walk range_map fuel st) (acc0, evs0) t)
          as [[acc2 evs2]|] eqn:Ht; [|done].
        cbn [mbind option_bind] in Hl.
        destruct (IHts _ _ _ _ Hl) as (evs3 & -> & Hdom3 & Hids3).
        unfold walk_import in Ht. cbn [fst snd] in Ht.
        destruct (acc0 !! t) as [lt|].
        + injection Ht as <- <-. by exists evs3.
        + destruct (walk range_map fuel st acc0 t) as [[acc4 evs4]|] eqn:Hw; [|done].
          cbn [mbind option_bind fst snd] in Ht. injection Ht as <- <-.
          destruct (IH _ _ _ _ Hw) as [Hdom4 Hids4].
          exists (evs4 ++ evs3). split; [by rewrite app_assoc|].
          rewrite inserted_ids_app. split.
          * rewrite Hdom3, Hdom4, list_to_set_app_L. set_solver.
          * intros id [?|?]%elem_of_app; auto. }
    destruct (Hloop _ _ _ _ _ H) as (evs2 & -> & Hdom & Hids).
    cbn [inserted_ids omap app]. split.
    + rewrite Hdom, dom_insert_L. set_solver.
    + intros id [->|Hid]%elem_of_cons; [by exists root, l, pkg|]. by apply Hids.
  - injection H as <- <-. split; [set_solver|].
    intros id Hid. by apply elem_of_nil in Hid.
Qed.

Hypothesis range_map_perm : ∀ (A : Type) (m : gmap string A), range_map A m ≡ₚ map_to_list m.

(** The nodes a query returns. *)
Lemma Query_nodes (st : State) (queries : list string) :
  keyed_by_ID st →
  ∃ pkgs,
    (∀ fuel, S (S (size (packages st))) ≤ fuel →
       Query range_map fuel st queries = Some (queries, pkgs))
    ∧ NoDup pkgs
    ∧ ∀ l, l ∈ pkgs ↔
           ∃ root id p, root ∈ queries ∧ reach st root id ∧ lookup_pkg st id = Some (l, p).
Proof.
  intros Hkeyed.
  destruct (walk_roots_returns range_map range_map_perm st queries Hkeyed [] ∅ []
              (visited_inv_empty st)) as (acc & evs & Hloop & Hinv).
  rewrite app_nil_l in Hinv.
  destruct (visited_inv_pkgs range_map range_map_perm st queries acc Hkeyed Hinv)
    as [Hnodup Hpkgs].
  exists (range_map _ acc).*2. split; [|done].
  intros fuel Hfuel. unfold Query, walk_roots. by rewrite (Hloop fuel Hfuel).
Qed.

(** X15: the nodes that [Query] returns depend on which roots it is given,
    not on their order or on how often a root is given: two lists with the
    same roots give the same nodes, up to their order. *)
Theorem Query_roots_as_set (st : State) (qs1 qs2 : list string) :
  keyed_by_ID st → (∀ r, r ∈ qs1 ↔ r ∈ qs2) →
  ∃ pkgs1 pkgs2,
    (∀ fuel, S (S (size (packages st))) ≤ fuel →
       Query range_map fuel st qs1 = Some (qs1, pkgs1)
       ∧ Query range_map fuel st qs2 = Some (qs2, pkgs2))
    ∧ pkgs1 ≡ₚ pkgs2.
Proof.
  intros Hkeyed Hsame.
  destruct (Query_nodes st qs1 Hkeyed) as (pkgs1 & HQ1 & Hnd1 & Hin1).
  destruct (Query_nodes st qs2 Hkeyed) as (pkgs2 & HQ2 & Hnd2 & Hin2).
  exists pkgs1, pkgs2. split; [by auto|].
  apply NoDup_Permutation; [done..|].
  intros l. rewrite Hin1, Hin2. split.
  - intros (root & id & p & Hroot%Hsame & Hrest). by exists root, id, p.
  - intros (root & id & p & Hroot%Hsame & Hrest). by exists root, id, p.
Qed.

(** X16: the nodes that [Query] returns for the roots of two lists are the
    nodes it returns for the one list together with the nodes it returns
    for the other. *)
Theorem Query_app (st : State) (qs1 qs2 : list string) :
  keyed_by_ID st →
  ∃ pkgs pkgs1 pkgs2,
    (∀ fuel, S (S (size (packages st))) ≤ fuel →
       Query range_map fuel st (qs1 ++ qs2) = Some (qs1 ++ qs2, pkgs)
       ∧ Query range_map fuel st qs1 = Some (qs1, pkgs1)
       ∧ Query range_map fuel st qs2 = Some (qs2, pkgs2))
    ∧ ∀ l, l ∈ pkgs ↔ l ∈ pkgs1 ∨ l ∈ pkgs2.
Proof.
  intros Hkeyed.
  destruct (Query_nodes st (qs1 ++ qs2) Hkeyed) as (pkgs & HQ & _ & Hin).
  destruct (Query_nodes st qs1 Hkeyed) as (pkgs1 & HQ1 & _ & Hin1).
  destruct (Query_nodes st qs2 Hkeyed) as (pkgs2 & HQ2 & _ & Hin2).
  exists pkgs, pkgs1, pkgs2. split; [by auto|].
  intros l. rewrite Hin, Hin1, Hin2. split.
  - intros (root & id & p & [?|?]%elem_of_app & Hrest); [left|right]; by exists root, id, p.
  - intros [(root & id & p & ? & Hrest)|(root & id & p & ? & Hrest)];
      exists root, id, p; (split; [apply elem_of_app; auto|done]).
Qed.

(** X17: the nodes that [Query] returns hold the node of every root that
    is registered, and with a node the node of every import target of it
    that is registered. *)
Theorem Query_closed (st : State) (queries : list string) :
  keyed_by_ID st →
  ∃ pkgs,
    (∀ fuel, S (S (size (packages st))) ≤ fuel →
       Query range_map fuel st queries = Some (queries, pkgs))
    ∧ (∀ root l p, root ∈ queries → lookup_pkg st root = Some (l, p) → l ∈ pkgs)
    ∧ (∀ id l p t l' p',
         l ∈ pkgs → lookup_pkg st id = Some (l, p) →
         imports_target p t → lookup_pkg st t = Some (l', p') → l' ∈ pkgs).
Proof.
  intros Hkeyed.
  destruct (Query_nodes st queries Hkeyed) as (pkgs & HQ & _ & Hin).
  exists pkgs. split; [done|]. split.
  - intros root l p Hroot Hl. apply Hin. exists root, root, p.
    split; [done|]. split; [|done]. apply reach_root. by eexists.
  - intros id l p t l' p' (root & id0 & p0 & Hroot & Hreach & Hl0)%Hin Hl Ht Hl'.
    assert (id0 = id) as ->.
    { pose proof (Hkeyed _ _ _ Hl0) as <-. pose proof (Hkeyed _ _ _ Hl) as <-.
      apply lookup_pkg_Some in Hl0 as [_ Hl0]. apply lookup_pkg_Some in Hl as [_ Hl].
      congruence. }
    apply Hin. exists root, t, p'. split; [done|]. split; [|done].
    eapply reach_import; [done..|]. by eexists.
Qed.

Variable RulesGoStdlibLabel : string.

Lemma anchor_label_idemp (label : string) :
  anchor_label (anchor_label label) = anchor_label label.
Proof.
  assert (anchor_label label = label ∨ anchor_label label = "@" +:+ label) as [Heq|Heq]
    by (unfold anchor_label; destruct (HasPrefix label "@"); auto); rewrite !Heq.
  - done.
  - apply anchor_label_anchored. by exists label.
Qed.

(** X18: [Match] treats a label without ["@"] in front as the label with
    it: putting the ["@"] in front of the labels beforehand changes
    nothing of what [Match] returns. *)
Theorem Match_anchored_labels (fuel : nat) (st : State) (labels : list string) :
  Match range_map RulesGoStdlibLabel fuel st (anchor_label <$> labels)
  = Match range_map RulesGoStdlibLabel fuel st labels.
Proof.
  unfold Match, Match_roots.
  assert (∀ roots,
            for_each_r (Match_label range_map RulesGoStdlibLabel st) roots
              (anchor_label <$> labels)
            = for_each_r (Match_label range_map RulesGoStdlibLabel st) roots labels) as ->;
    [|done].
  induction labels as [|label labels IH]; intros roots; [done|].
  rewrite fmap_cons. cbn [for_each_r].
  assert (Match_label range_map RulesGoStdlibLabel st roots (anchor_label label)
          = Match_label range_map RulesGoStdlibLabel st roots label) as ->
    by (unfold Match_label; by rewrite anchor_label_idemp).
  destruct (Match_label range_map RulesGoStdlibLabel st roots label); simpl; [apply IH|done].
Qed.

End QueryProperties.

(** ** What the walker logs *)

Section WalkLog.

Variable range_map : ∀ A : Type, gmap string A → list (string * A).
Hypothesis range_map_perm : ∀ (A : Type) (m : gmap string A), range_map A m ≡ₚ map_to_list m.

Lemma elem_of_inserted_ids (evs : list event) (id : string) :
  id ∈ inserted_ids evs ↔ Inserted id ∈ evs.
Proof.
  unfold inserted_ids. rewrite list_elem_of_omap. split.
  - intros ([id'|r] & Hin & [= <-]). done.
  - intros Hin. by exists (Inserted id).
Qed.

(** The calls of [walk] keep the keys of the visited map registered, and
    log the targets that are not. *)
Lemma walk_log_post (st : State) (fuel : nat) :
  keyed_by_ID st →
  ∀ acc root acc' evs,
    (∀ k, k ∈ dom acc → is_Some (lookup_pkg st k)) →
    walk range_map fuel st acc root = Some (acc', evs) →
    (∀ k, k ∈ dom acc' → is_Some (lookup_pkg st k))
    ∧ ∀ r, NotFound r ∈ evs ↔
           lookup_pkg st r = None
           ∧ (r = root
              ∨ ∃ id l p, id ∈ inserted_ids evs ∧ lookup_pkg st id = Some (l, p)
                          ∧ imports_target p r).
Proof.
  intros Hkeyed. induction fuel as [|fuel IH]; intros acc root acc' evs Hacc H; [done|].
  rewrite walk_unfold in H. destruct (lookup_pkg st root) as [[l pkg]|] eqn:Hroot.
  - pose proof (Hkeyed _ _ _ Hroot) as Hid. rewrite Hid in H.
    assert (∀ ts acc0 evs0 acc1 evs1,
              (∀ k, k ∈ dom acc0 → is_Some (lookup_pkg st k)) →
              for_each (walk_import (walk range_map fuel st)) (acc0, evs0) ts
                = Some (acc1, evs1) →
              ∃ evs2, evs1 = evs0 ++ evs2
                ∧ (∀ k, k ∈ dom acc1 → is_Some (lookup_pkg st k))
                ∧ ∀ r, NotFound r ∈ evs2 ↔
                       lookup_pkg st r = None
                       ∧ (r ∈ ts
                          ∨ ∃ id l p, id ∈ inserted_ids evs2
                              ∧ lookup_pkg st id = Some (l, p) ∧ imports_target p r))
      as Hloop.
    { induction ts as [|t ts IHts]; intros acc0 evs0 acc1 evs1 Hacc0 Hl.
      - injection Hl as <- <-. exists []. rewrite app_nil_r. split; [done|].
        split; [done|]. intros r. split.
        + by intros ?%elem_of_nil.
        + intros [_ [?%elem_of_nil|(id & ? & ? & ?%elem_of_nil & _)]]; done.
      - rewrite for_each_cons_bind in Hl.
        destruct (walk_import (walk range_map fuel st) (acc0, evs0) t)
          as [[acc2 evs2]|] eqn:Ht; [|done].
        cbn [mbind option_bind] in Hl.
        unfold walk_import in Ht. cbn [fst snd] in Ht.
        destruct (acc0 !! t) as [lt|] eqn:Hacct.
        + injection Ht as <- <-.
          destruct (IHts _ _ _ _ Hacc0 Hl) as (evs3 & -> & Hacc3 & Hlog3).
          exists evs3. split; [done|]. split; [done|].
          intros r. rewrite Hlog3. split.
          * intros [Hr [?|?]]; (split; [done|]); [left|by right].
            by apply list_elem_of_further.
          * intros [Hr [[->|?]%elem_of_cons|?]]; (split; [done|]); [|by left|by right].
            destruct (Hacc0 t) as [? Hsome]; [apply elem_of_dom; eauto|]. congruence.
        + destruct (walk range_map fuel st acc0 t) as [[acc4 evs4]|] eqn:Hw; [|done].
          cbn [mbind option_bind fst snd] in Ht. injection Ht as <- <-.
          destruct (IH _ _ _ _ Hacc0 Hw) as [Hacc4 Hlog4].
          destruct (IHts _ _ _ _ Hacc4 Hl) as (evs3 & -> & Hacc3 & Hlog3).
          exists (evs4 ++ evs3). split; [by rewrite app_assoc|]. split; [done|].
          intros r. rewrite elem_of_app, Hlog4, Hlog3, inserted_ids_app. split.
          * intros [[Hr [->|(id & l' & p & Hin & Hrest)]]|[Hr [?|(id & l' & p & Hin & Hrest)]]];
              (split; [done|]).
            -- left. apply list_elem_of_here.
            -- right. exists id, l', p. split; [apply elem_of_app; by left|done].
            -- left. by apply list_elem_of_further.
            -- right. exists id, l', p. split; [apply elem_of_app; by right|done].
          * intros [Hr [[->|?]%elem_of_cons|(id & l' & p & [Hin|Hin]%elem_of_app & Hrest)]].
            -- left. split; [done|]. by left.
            -- right. split; [done|]. by left.
            -- left. split; [done|]. right. by exists id, l', p.
            -- right. split; [done|]. right. by exists id, l', p. }
    assert (∀ k, k ∈ dom (<[root := l]> acc) → is_Some (lookup_pkg st k)) as Hacc1.
    { intros k. rewrite dom_insert_L. intros [->%elem_of_singleton|?]%elem_of_union;
        [by eexists|by apply Hacc]. }
    destruct (Hloop _ _ _ _ _ Hacc1 H) as (evs2 & -> & Hacc2 & Hlog2).
    split; [done|]. intros r.
    change ([Inserted root] ++ evs2) with (Inserted root :: evs2).
    change (inserted_ids (Inserted root :: evs2)) with (root :: inserted_ids evs2).
    rewrite elem_of_cons, Hlog2. split.
    + intros [?|[Hr [Ht|(id & l' & p & Hin & Hrest)]]]; [done| |].
      * split; [done|]. right. exists root, l, pkg.
        split; [apply list_elem_of_here|]. split; [done|].
        by apply (elem_of_range_targets range_map range_map_perm).
      * split; [done|]. right. exists id, l', p.
        split; [by apply list_elem_of_further|done].
    + intros [Hr [->|(id & l' & p & [->|Hin]%elem_of_cons & Hl' & Ht)]].
      * congruence.
      * right. split; [done|]. left. rewrite Hroot in Hl'. injection Hl' as <- <-.
        by apply (elem_of_range_targets range_map range_map_perm).
      * right. split; [done|]. right. by exists id, l', p.
  - injection H as <- <-. split; [done|]. intros r.
    rewrite list_elem_of_singleton. split.
    + intros [= ->]. split; [done|]. by left.
    + intros [Hr [->|(id & ? & ? & ?%elem_of_nil & _)]]; done.
Qed.

(** X19: on a registry whose nodes are stored under their identities, a
    call of [walk] with an empty visited map logs an error for the root
    when it is not registered, and for every import target of a node it
    has inserted that is not registered, and for nothing else. *)
Theorem walk_logs_missing (st : State) (fuel : nat) (root : string)
    (acc' : gmap string loc) (evs : list event) :
  keyed_by_ID st →
  walk range_map fuel st ∅ root = Some (acc', evs) →
  ∀ r, NotFound r ∈ evs ↔
       lookup_pkg st r = None
       ∧ (r = root
          ∨ ∃ id l p, id ∈ inserted_ids evs ∧ lookup_pkg st id = Some (l, p)
                      ∧ imports_target p r).
Proof.
  intros Hkeyed H. eapply (walk_log_post st fuel Hkeyed ∅ root acc' evs); [|done].
  intros k Hk. by rewrite dom_empty_L in Hk.
Qed.

End WalkLog.

(** ** The further properties on the examples *)

Example NewPackageRegistry_lib :
  NewPackageRegistry MoreExamples.lib_heap [1%positive; 2%positive] = Ok MoreExamples.lib_st.
Proof. reflexivity. Qed.

Example NewPackageRegistry_miss :
  NewPackageRegistry (heap MoreExamples.miss_st) [1%positive; 2%positive]
  = Ok MoreExamples.miss_st.
Proof. reflexivity. Qed.

Example NewPackageRegistry_resolve :
  NewPackageRegistry (heap Examples.resolve_st) [1%positive; 2%positive; 3%positive]
  = Ok Examples.resolve_st.
Proof. reflexivity. Qed.

Lemma Update_idempotent_witness :
  ∃ st', Update Examples.ab_st 2%positive = Ok st'
         ∧ heap st' !! 1%positive
           = Some (set_GoFiles ["a.go"; "c.go"; "b.go"] Examples.ab_pkg)
         ∧ Update st' 2%positive = Ok st'.
Proof.
  eexists. split; [reflexivity|]. split; [reflexivity|].
  apply (Update_idempotent Examples.ab_st). reflexivity.
Defined.

Lemma Update_keeps_files_witness :
  ∃ st' q', Update Examples.ab_st 2%positive = Ok st'
    ∧ heap st' !! 1%positive = Some q'
    ∧ GoFiles Examples.ab_pkg `sublist_of` GoFiles q'
    ∧ ID q' = ID Examples.ab_pkg ∧ PkgPath q' = PkgPath Examples.ab_pkg
    ∧ Imports q' = Imports Examples.ab_pkg ∧ Standard q' = Standard Examples.ab_pkg.
Proof.
  eexists. 
  destruct (Update_keeps_files Examples.ab_st _ 2%positive 1%positive Examples.ab_pkg
              eq_refl eq_refl) as (q' & Hq').
  exists q'. split; [reflexivity|exact Hq'].
Defined.

Lemma Update_after_Add_witness :
  ∃ st1, Add MoreExamples.lib_st0 ([2%positive] ++ [1%positive]) = Ok st1
         ∧ Update st1 1%positive = Ok st1.
Proof.
  exists MoreExamples.lib_st. split; [reflexivity|].
  apply (Update_after_Add MoreExamples.lib_st0 _ [2%positive]). reflexivity.
Defined.

Lemma Add_last_write_wins_witness :
  Add (mkState Examples.fmt_heap ∅ ∅) [1%positive; 2%positive] = Ok Examples.fmt_st2
  ∧ packages Examples.fmt_st2 !! "fmt" = Some 2%positive
  ∧ packages Examples.fmt_st2 !! "os" = None.
Proof.
  split; [reflexivity|]. split.
  - etrans; [exact (Add_last_write_wins (mkState Examples.fmt_heap ∅ ∅) Examples.fmt_st2
                      [1%positive; 2%positive] "fmt" eq_refl)|reflexivity].
  - etrans; [exact (Add_last_write_wins (mkState Examples.fmt_heap ∅ ∅) Examples.fmt_st2
                      [1%positive; 2%positive] "os" eq_refl)|reflexivity].
Defined.

Lemma Add_frame_witness :
  ∃ q', heap Examples.fmt_st2 !! 2%positive = Some q'
        ∧ PkgPath q' = "fmt" ∧ GoFiles q' = ["fmt.go"] ∧ Standard q' = false
        ∧ dom (Imports q') = dom (Imports Examples.fmt_other)
        ∧ ID q' = "fmt".
Proof.
  exact (Add_frame (mkState Examples.fmt_heap ∅ ∅) Examples.fmt_st2
           [1%positive; 2%positive] 2%positive Examples.fmt_other eq_refl eq_refl).
Defined.

Lemma NewPackageRegistry_index_witness :
  stdlib MoreExamples.lib_st !! "fmt" = Some "fmt"
  ∧ resolve MoreExamples.lib_st "fmt" = "fmt"
  ∧ resolve MoreExamples.lib_st "example.com/pkg" = "".
Proof.
  destruct (NewPackageRegistry_index MoreExamples.lib_heap [1%positive; 2%positive]
              MoreExamples.lib_st eq_refl) as (Hidx & Hyes & Hno).
  assert (flagged_path MoreExamples.lib_heap [1%positive; 2%positive] "fmt") as Hfmt.
  { eexists 2%positive, _. split; [|split; [reflexivity|by split]].
    apply list_elem_of_further, list_elem_of_here. }
  split; [by apply Hidx|]. split; [by apply Hyes|]. apply Hno.
  intros (pkg & p & Hin & Hp & Hstd & Hpath).
  apply elem_of_cons in Hin as [->|Hin%list_elem_of_singleton].
  - vm_compute in Hp. injection Hp as <-. discriminate Hstd.
  - subst pkg. vm_compute in Hp. injection Hp as <-. discriminate Hpath.
Defined.

Lemma NewPackageRegistry_invariants_witness :
  canonical MoreExamples.lib_st ∧ no_nil MoreExamples.lib_st
  ∧ pointer_unique MoreExamples.lib_st
  ∧ ∀ pkg, pkg ∈ [1%positive; 2%positive] →
           ∃ p, heap MoreExamples.lib_st !! pkg = Some p ∧ ID p = PkgPath p.
Proof.
  exact (NewPackageRegistry_invariants MoreExamples.lib_heap [1%positive; 2%positive]
           MoreExamples.lib_st eq_refl).
Defined.

Lemma ResolveImports_returns_witness :
  no_nil Examples.resolve_st
  ∧ ∃ st' oe,
      ResolveImports string Examples.step_fmt Examples.split_testing ["a"; "b"]
        Examples.resolve_st = Ok (st', oe)
      ∧ no_nil st'.
Proof.
  assert (no_nil Examples.resolve_st) as Hnn.
  { eapply NewPackageRegistry_canonical. exact NewPackageRegistry_resolve. }
  split; [exact Hnn|].
  exact (ResolveImports_returns Examples.step_fmt Examples.split_testing ["a"; "b"]
           Examples.resolve_st Hnn).
Defined.

Lemma walk_keeps_visited_witness :
  walk Examples.range_fixed 3 Examples.cyc_st ∅ "A"
  = Some ({[ "A" := 1%positive; "B" := 2%positive ]}, [Inserted "A"; Inserted "B"])
  ∧ dom ({[ "A" := 1%positive; "B" := 2%positive ]} : gmap string loc)
    = dom (∅ : gmap string loc) ∪ list_to_set (inserted_ids [Inserted "A"; Inserted "B"])
  ∧ ∀ id, id ∈ inserted_ids [Inserted "A"; Inserted "B"] →
          ∃ k l p, lookup_pkg Examples.cyc_st k = Some (l, p) ∧ ID p = id.
Proof.
  split; [exact walk_cycle|].
  exact (walk_keeps_visited Examples.range_fixed 3 Examples.cyc_st ∅ _ "A" _ walk_cycle).
Defined.

Lemma Query_roots_as_set_witness :
  keyed_by_ID Examples.cyc_st
  ∧ ∃ pkgs1 pkgs2,
      (∀ fuel, S (S (size (packages Examples.cyc_st))) ≤ fuel →
         Query Examples.range_fixed fuel Examples.cyc_st ["A"; "B"] = Some (["A"; "B"], pkgs1)
         ∧ Query Examples.range_fixed fuel Examples.cyc_st ["B"; "A"; "A"]
           = Some (["B"; "A"; "A"], pkgs2))
      ∧ pkgs1 ≡ₚ pkgs2.
Proof.
  assert (keyed_by_ID Examples.cyc_st) as Hkeyed.
  { eapply NewPackageRegistry_canonical. exact NewPackageRegistry_cyc. }
  split; [exact Hkeyed|].
  apply (Query_roots_as_set Examples.range_fixed (λ A m, reflexivity _)
           Examples.cyc_st ["A"; "B"] ["B"; "A"; "A"] Hkeyed).
  intros r. rewrite !elem_of_cons, !elem_of_nil. tauto.
Defined.

Lemma Query_app_witness :
  keyed_by_ID Examples.cyc_st
  ∧ ∃ pkgs pkgs1 pkgs2,
      (∀ fuel, S (S (size (packages Examples.cyc_st))) ≤ fuel →
         Query Examples.range_fixed fuel Examples.cyc_st (["A"] ++ ["fmt"])
         = Some (["A"] ++ ["fmt"], pkgs)
         ∧ Query Examples.range_fixed fuel Examples.cyc_st ["A"] = Some (["A"], pkgs1)
         ∧ Query Examples.range_fixed fuel Examples.cyc_st ["fmt"] = Some (["fmt"], pkgs2))
      ∧ ∀ l, l ∈ pkgs ↔ l ∈ pkgs1 ∨ l ∈ pkgs2.
Proof.
  assert (keyed_by_ID Examples.cyc_st) as Hkeyed.
  { eapply NewPackageRegistry_canonical. exact NewPackageRegistry_cyc. }
  split; [exact Hkeyed|].
  exact (Query_app Examples.range_fixed (λ A m, reflexivity _)
           Examples.cyc_st ["A"] ["fmt"] Hkeyed).
Defined.

Lemma Query_closed_witness :
  keyed_by_ID MoreExamples.lib_st
  ∧ ∃ pkgs,
      (∀ fuel, S (S (size (packages MoreExamples.lib_st))) ≤ fuel →
         Query Examples.range_fixed fuel MoreExamples.lib_st ["example.com/pkg"]
         = Some (["example.com/pkg"], pkgs))
      ∧ (∀ root l p, root ∈ ["example.com/pkg"] →
           lookup_pkg MoreExamples.lib_st root = Some (l, p) → l ∈ pkgs)
      ∧ (∀ id l p t l' p',
           l ∈ pkgs → lookup_pkg MoreExamples.lib_st id = Some (l, p) →
           imports_target p t → lookup_pkg MoreExamples.lib_st t = Some (l', p') →
           l' ∈ pkgs).
Proof.
  assert (keyed_by_ID MoreExamples.lib_st) as Hkeyed.
  { eapply NewPackageRegistry_canonical. exact NewPackageRegistry_lib. }
  split; [exact Hkeyed|].
  exact (Query_closed Examples.range_fixed (λ A m, reflexivity _)
           MoreExamples.lib_st ["example.com/pkg"] Hkeyed).
Defined.

Example walk_miss :
  walk Examples.range_fixed 3 MoreExamples.miss_st ∅ "A"
  = Some ({[ "A" := 1%positive; "B" := 2%positive ]},
          [Inserted "A"; NotFound "os"; Inserted "B"]).
Proof. reflexivity. Qed.

Lemma walk_logs_missing_witness :
  keyed_by_ID MoreExamples.miss_st
  ∧ ∀ r, NotFound r ∈ [Inserted "A"; NotFound "os"; Inserted "B"] ↔
         lookup_pkg MoreExamples.miss_st r = None
         ∧ (r = "A"
            ∨ ∃ id l p, id ∈ inserted_ids [Inserted "A"; NotFound "os"; Inserted "B"]
                        ∧ lookup_pkg MoreExamples.miss_st id = Some (l, p)
                        ∧ imports_target p r).
Proof.
  assert (keyed_by_ID MoreExamples.miss_st) as Hkeyed.
  { eapply NewPackageRegistry_canonical. exact NewPackageRegistry_miss. }
  split; [exact Hkeyed|].
  exact (walk_logs_missing Examples.range_fixed (λ A m, reflexivity _)
           MoreExamples.miss_st 3 "A" _ _ Hkeyed walk_miss).
Defined.

